(** * cfg-demo: the configuration resolution engine

    A shallow embedding of the Go package [config] (provider chain,
    placeholder expansion, coercion setters, structural walker and the
    [Init] driver) together with the fragments of the Go standard library
    it calls ([strconv], [strings], [regexp], [time], [reflect]) and of the
    repository's own [log] package.

    Conventions.
    - A Go [string] is a Rocq [string] (a sequence of bytes).
    - [int], [int64] and [uint64] are 64 bits wide; they are carried by
      [Z] and the wrap-around of every arithmetic operation the code
      performs on them is written out with [int64] and [uint64].
    - A Go map is a [gmap]; reading a missing key gives the zero value.
    - A [panic] is the [Panic] outcome of [result]; the diagnostics that
      the code hands to the logger are collected in order. *)

From Stdlib Require Import ZArith Lia Ascii String List DecimalString.
From stdpp Require Import base gmap strings list.

Local Open Scope Z_scope.

(** ** log: levels and entries (src/log/logger.go) *)

Module log.
(** [Level] of src/log/logger.go. *)
Inductive Level := DEBUG | INFO | WARN | ERROR | PANIC | FATAL.

Definition Level_value (l : Level) : Z :=
  match l with
  | DEBUG => -1 | INFO => 0 | WARN => 1 | ERROR => 2 | PANIC => 3 | FATAL => 4
  end.

(** An argument of a formatted message. *)
Inductive Arg := AStr (s : string) | AInt (z : Z).

(** One call of the package-level logging functions. *)
Record Entry := mkEntry { level : Level; format : string; args : list Arg }.

(** [CoreLogger.log] drops an entry whose level is below the logger's. *)
Definition emitted (logLevel : Level) (e : Entry) : bool :=
  negb (Level_value (level e) <? Level_value logLevel).

(** [bytes.ToUpper] on ASCII text: a byte outside a-z is kept. (On text
    that is not ASCII Go maps runes, and a few of them, the dotless i for
    one, upper-case into A-Z; the level is then read differently, which
    no statement below depends on.) *)
Definition toUpper (c : ascii) : ascii :=
  let n := N_of_ascii c in
  if ((97 <=? n) && (n <=? 122))%N then ascii_of_N (n - 32) else c.

Fixpoint ToUpper (s : string) : string :=
  match s with
  | EmptyString => EmptyString
  | String c s' => String (toUpper c) (ToUpper s')
  end.

(** [Level.UnmarshalText]: the new level and whether the text was known. *)
Definition UnmarshalText (l : Level) (text : string) : Level * bool :=
  let u := ToUpper text in
  if decide (u = "DEBUG") then (DEBUG, true)
  else if decide (u = "INFO" ∨ u = "") then (INFO, true)
  else if decide (u = "WARN") then (WARN, true)
  else if decide (u = "ERROR") then (ERROR, true)
  else if decide (u = "PANIC") then (PANIC, true)
  else if decide (u = "FATAL") then (FATAL, true)
  else (l, false).

(** [fmt.Sprintf("Level(%d)", l)] *)
Definition Sprintf_Level (l : Z) : string :=
  "Level(" +:+ NilZero.string_of_int (Z.to_int l) +:+ ")".

(** [Level.String] and [Level.PaddedString]. A [Level] is an [int8]: the
    argument is its value, and the values no constant names fall to the
    default branch. *)
Definition String (l : Z) : string :=
  if decide (l = Level_value DEBUG) then "DEBUG"
  else if decide (l = Level_value INFO) then "INFO"
  else if decide (l = Level_value WARN) then "WARN"
  else if decide (l = Level_value ERROR) then "ERROR"
  else if decide (l = Level_value PANIC) then "PANIC"
  else if decide (l = Level_value FATAL) then "FATAL"
  else Sprintf_Level l.

Definition PaddedString (l : Z) : string :=
  if decide (l = Level_value DEBUG) then "DEBUG"
  else if decide (l = Level_value INFO) then "INFO "
  else if decide (l = Level_value WARN) then "WARN "
  else if decide (l = Level_value ERROR) then "ERROR"
  else if decide (l = Level_value PANIC) then "PANIC"
  else if decide (l = Level_value FATAL) then "FATAL"
  else Sprintf_Level l.

Section Logger.

(** [io.Writer] values, and [os.Stdout] among them. *)
Variable Writer : Type.

Variable Stdout : Writer.

Record CoreLogger := mkCoreLogger {
  logLevel : Level;
  outfile : Writer;
  timestampFormat : string;
  callerFormat : string
}.

Definition New : CoreLogger :=
  mkCoreLogger INFO Stdout "01-02 15:04:05.000 " " %20.20s:%03d - ".

Definition GetLevel (l : CoreLogger) : Level := logLevel l.

Definition SetLevel (level : Level) (l : CoreLogger) : CoreLogger :=
  mkCoreLogger level (outfile l) (timestampFormat l) (callerFormat l).

Definition SetOutput (w : Writer) (l : CoreLogger) : CoreLogger :=
  mkCoreLogger (logLevel l) w (timestampFormat l) (callerFormat l).

(** What the four methods of a [Configurator] return to [Setup], which
    calls each of them once; [Output] may return nil. *)
Record Configurator := mkConfigurator {
  LogLevel : string;
  Output : option Writer;
  TimestampFormat : string;
  CallerFormat : string
}.

(** [Setup], on the package's [defaultLogger] (nil until first used): the
    logger it leaves there. *)
Definition Setup (config : Configurator) (defaultLogger : option CoreLogger)
    : CoreLogger :=
  let l := match defaultLogger with Some l => l | None => New end in
  let l := mkCoreLogger (UnmarshalText (logLevel l) (LogLevel config)).1
             (outfile l) (timestampFormat l) (callerFormat l) in
  let l := match Output config with
           | Some configOutfile =>
               mkCoreLogger (logLevel l) configOutfile (timestampFormat l)
                 (callerFormat l)
           | None => l
           end in
  let l := if decide (TimestampFormat config = "") then l
           else mkCoreLogger (logLevel l) (outfile l)
                  (TimestampFormat config) (callerFormat l) in
  if decide (CallerFormat config = "") then l
  else mkCoreLogger (logLevel l) (outfile l) (timestampFormat l)
         (CallerFormat config).

End Logger.
End log.

(** ** Outcomes: normal return or panic, with the logger calls made *)

Inductive result (A : Type) : Type :=
| Ok (a : A) (w : list log.Entry)
| Panic (msg : string).
Arguments Ok {A} a w.
Arguments Panic {A} msg.

Definition ret {A} (a : A) : result A := Ok a [].

Definition bind {A B} (m : result A) (f : A → result B) : result B :=
  match m with
  | Ok a w => match f a with
              | Ok b w' => Ok b (w ++ w')
              | Panic msg => Panic msg
              end
  | Panic msg => Panic msg
  end.

Definition panic {A} (msg : string) : result A := Panic msg.

Definition Debugf (fmt : string) (a : list log.Arg) : result unit :=
  Ok tt [log.mkEntry log.DEBUG fmt a].
Definition Warnf (fmt : string) (a : list log.Arg) : result unit :=
  Ok tt [log.mkEntry log.WARN fmt a].

Notation "x <- m ;; k" := (bind m (fun x => k))
  (at level 100, m at next level, right associativity,
   format "'[v' x  <-  m  ;;  '/' k ']'").
Notation "m ;;; k" := (bind m (fun _ => k))
  (at level 100, right associativity).

(** The value a computation returns, when it returns. *)
Definition returned {A} (m : result A) : option A :=
  match m with Ok a _ => Some a | Panic _ => None end.

(** ** Fixed-width integers *)

Definition int64 (z : Z) : Z := (z + 2 ^ 63) mod 2 ^ 64 - 2 ^ 63.
Definition uint64 (z : Z) : Z := z mod 2 ^ 64.
Definition wrap_signed (bits : Z) (z : Z) : Z :=
  (z + 2 ^ (bits - 1)) mod 2 ^ bits - 2 ^ (bits - 1).
Definition wrap_unsigned (bits : Z) (z : Z) : Z := z mod 2 ^ bits.

(** ** strconv *)

Module strconv.
Inductive NumError := ErrSyntax | ErrRange.

Definition ParseBool (str : string) : bool * option NumError :=
  if decide (str = "1" ∨ str = "t" ∨ str = "T" ∨ str = "true"
             ∨ str = "TRUE" ∨ str = "True") then (true, None)
  else if decide (str = "0" ∨ str = "f" ∨ str = "F" ∨ str = "false"
                  ∨ str = "FALSE" ∨ str = "False") then (false, None)
  else (false, Some ErrSyntax).

Definition maxUint64 : Z := 2 ^ 64 - 1.

Definition isDigit (c : ascii) : bool :=
  let n := N_of_ascii c in ((48 <=? n) && (n <=? 57))%N.

Definition digitVal (c : ascii) : Z := Z.of_N (N_of_ascii c) - 48.

(** The digit loop of [ParseUint] for base 10 and bitSize 64. A byte that
    is not a decimal digit is a syntax error (a letter is a digit value of
    10 or more, which is not below the base). *)
Fixpoint parseUintLoop (s : string) (n : Z) : Z * option NumError :=
  match s with
  | EmptyString => (n, None)
  | String c s' =>
      if isDigit c then
        let d := digitVal c in
        if maxUint64 / 10 + 1 <=? n then (maxUint64, Some ErrRange)
        else
          let n1 := n * 10 + d in
          if maxUint64 <? n1 then (maxUint64, Some ErrRange)
          else parseUintLoop s' n1
      else (0, Some ErrSyntax)
  end.

(** [ParseUint(s, 10, 64)]. *)
Definition ParseUint (s : string) : Z * option NumError :=
  match s with
  | EmptyString => (0, Some ErrSyntax)
  | _ => parseUintLoop s 0
  end.

(** [ParseInt(s, 10, 64)]. *)
Definition ParseInt (s : string) : Z * option NumError :=
  match s with
  | EmptyString => (0, Some ErrSyntax)
  | String c0 s1 =>
      let '(neg, s') :=
        if decide (c0 = "+"%char) then (false, s1)
        else if decide (c0 = "-"%char) then (true, s1)
        else (false, s) in
      match ParseUint s' with
      | (_, Some ErrSyntax) => (0, Some ErrSyntax)
      | (un, _) =>
          let cutoff := 2 ^ 63 in
          if negb neg && (cutoff <=? un) then (cutoff - 1, Some ErrRange)
          else if neg && (cutoff <? un) then (- cutoff, Some ErrRange)
          else (if neg then - un else un, None)
      end
  end.
End strconv.

(** ** strings *)

Module strings.
(** [Split(s, sep)] for a separator of one byte, which is what both call
    sites pass. *)
Fixpoint Split (s : string) (sep : ascii) : list string :=
  match s with
  | EmptyString => [EmptyString]
  | String c s' =>
      if decide (c = sep) then EmptyString :: Split s' sep
      else match Split s' sep with
           | h :: t => String c h :: t
           | [] => [String c EmptyString]
           end
  end.

(** Left-to-right replacement of the non-overlapping occurrences of a
    non-empty [old]; [skip] counts the bytes of an occurrence that are
    still to be passed over. *)
Fixpoint replaceFrom (skip : nat) (s old new : string) : string :=
  match s with
  | EmptyString => EmptyString
  | String c s' =>
      match skip with
      | S k => replaceFrom k s' old new
      | O =>
          if String.prefix old s
          then new +:+ replaceFrom (String.length old - 1) s' old new
          else String c (replaceFrom O s' old new)
      end
  end.

(** An empty [old] matches before every byte and at the end. *)
Fixpoint intersperse (s new : string) : string :=
  match s with
  | EmptyString => new
  | String c s' => new +:+ String c (intersperse s' new)
  end.

(** [Replace(s, old, new, -1)]. *)
Definition Replace (s old new : string) : string :=
  match old with
  | EmptyString => intersperse s new
  | _ => replaceFrom O s old new
  end.
End strings.

(** ** time

    What the package uses of the library: [Now], [AddDate], [Add] and
    [Format] with the layouts 2006-01-02 and 15:04:05, and what these call
    ([Date], [Clock], [abs], [absDate], [absClock], [daysSinceEpoch],
    [norm], [isLeap], [addSec], [appendInt]), as they read up to Go 1.22;
    later releases reach the same calendar by other formulas. The
    arithmetic is that of the library, on [int], [int64] and [uint64],
    with its wrap-around.

    A [Location] is known to these functions through [lookup] alone, which
    for an instant in seconds since 1970-01-01 00:00:00 UTC gives the
    offset in seconds east of UTC in use at that instant, and the two
    instants between which that offset is in use. The zone database is
    therefore a parameter: [UTC] is the location with no zone but UTC.

    A [Time] is the instant it stands for, in seconds since 0001-01-01
    00:00:00 UTC (the library keeps them in [wall] or in [ext]) and
    nanoseconds of the second, and its location. The reading of the
    monotonic clock, which has no part in what [Format] prints, is left
    out. *)

Module time.
Record Location := mkLocation { lookup : Z → Z * Z * Z }.

Definition alpha : Z := - 2 ^ 63.
Definition omega : Z := 2 ^ 63 - 1.

Definition UTC : Location := mkLocation (fun _ => (0, alpha, omega)).

Record Time := mkTime { sec : Z; nsec : Z; loc : Location }.

Definition secondsPerMinute : Z := 60.
Definition secondsPerHour : Z := 3600.
Definition secondsPerDay : Z := 86400.
Definition daysPer400Years : Z := 365 * 400 + 97.
Definition daysPer100Years : Z := 365 * 100 + 24.
Definition daysPer4Years : Z := 365 * 4 + 1.

(** The unsigned zero year of the internal calculations, the year of the
    zero [Time], and the offsets between the three counts of seconds. *)
Definition absoluteZeroYear : Z := -292277022399.
Definition internalYear : Z := 1.
Definition absoluteToInternal : Z :=
  Eval cbv in
    (absoluteZeroYear - internalYear) * 3652425 / 10000 * secondsPerDay.
Definition internalToAbsolute : Z := Eval cbv in - absoluteToInternal.
Definition unixToInternal : Z :=
  Eval cbv in
    (1969 * 365 + 1969 / 4 - 1969 / 100 + 1969 / 400) * secondsPerDay.
Definition internalToUnix : Z := Eval cbv in - unixToInternal.

Definition isLeap (year : Z) : bool :=
  (Z.rem year 4 =? 0)
  && (negb (Z.rem year 100 =? 0) || (Z.rem year 400 =? 0)).

(** Days before the first of month [m + 1] in a non-leap year. *)
Definition daysBefore (m : Z) : Z :=
  nth (Z.to_nat m)
      [0; 31; 59; 90; 120; 151; 181; 212; 243; 273; 304; 334; 365] 0.

(** [t.unixSec()] *)
Definition unixSec (t : Time) : Z := int64 (sec t + internalToUnix).

(** [t.abs()]: the seconds since the start of the absolute zero year on
    the wall clock of the location. *)
Definition abs (t : Time) : Z :=
  let s := unixSec t in
  let '(offset, _, _) := lookup (loc t) s in
  uint64 (s + offset + (unixToInternal + internalToAbsolute)).

(** [absDate], up to the year and the day of the year. The count [abs] is
    a [uint64], so that the days and years counted from it stay far below
    2^64. *)
Definition absYear (abs : Z) : Z * Z :=
  let d := abs / secondsPerDay in
  let n := d / daysPer400Years in
  let y := 400 * n in
  let d := d - daysPer400Years * n in
  let n := d / daysPer100Years in
  let n := n - Z.shiftr n 2 in
  let y := y + 100 * n in
  let d := d - daysPer100Years * n in
  let n := d / daysPer4Years in
  let y := y + 4 * n in
  let d := d - daysPer4Years * n in
  let n := d / 365 in
  let n := n - Z.shiftr n 2 in
  let y := y + n in
  let d := d - 365 * n in
  (y + absoluteZeroYear, d).

(** [absDate(abs, true)]: year, month and day of the month. *)
Definition absDate (abs : Z) : Z * Z * Z :=
  let '(year, yday) := absYear abs in
  let leapDay := isLeap year && (yday =? 31 + 29 - 1) in
  if leapDay then (year, 2, 29)
  else
    let day := if isLeap year && (31 + 29 - 1 <? yday) then yday - 1 else yday in
    let month := day / 31 in
    let end_ := daysBefore (month + 1) in
    let '(month, begin) :=
      if end_ <=? day then (month + 1, end_) else (month, daysBefore month) in
    (year, month + 1, day - begin + 1).

Definition absClock (abs : Z) : Z * Z * Z :=
  let sec := abs mod secondsPerDay in
  let hour := sec / secondsPerHour in
  let sec := sec - hour * secondsPerHour in
  let min := sec / secondsPerMinute in
  let sec := sec - min * secondsPerMinute in
  (hour, min, sec).

(** [t.Date()] and [t.Clock()]. *)
Definition Date_of (t : Time) : Z * Z * Z := absDate (abs t).
Definition Clock (t : Time) : Z * Z * Z := absClock (abs t).

(** [norm(hi, lo, base)]: [lo] brought into [0, base), the excess carried
    into [hi]. Go's division truncates. *)
Definition norm (hi lo base : Z) : Z * Z :=
  let '(hi, lo) :=
    if lo <? 0 then
      let n := int64 (Z.quot (int64 (- lo - 1)) base + 1) in
      (int64 (hi - n), int64 (lo + n * base))
    else (hi, lo) in
  if base <=? lo then
    let n := Z.quot lo base in
    (int64 (hi + n), int64 (lo - n * base))
  else (hi, lo).

(** Days from the start of the absolute zero year to the first of January
    of [year], in a [uint64]. *)
Definition daysSinceEpoch (year : Z) : Z :=
  let y := uint64 (year - absoluteZeroYear) in
  let n := y / 400 in
  let y := y - 400 * n in
  let d := uint64 (daysPer400Years * n) in
  let n := y / 100 in
  let y := y - 100 * n in
  let d := uint64 (d + daysPer100Years * n) in
  let n := y / 4 in
  let y := y - 4 * n in
  let d := uint64 (d + daysPer4Years * n) in
  let n := y in
  uint64 (d + 365 * n).

(** [Date(year, month, day, hour, min, sec, nsec, loc)]. The fields are
    normalised, the count of seconds is put together as if the reading
    were one of UTC, and the offset of the location is taken off: the one
    in use at that count taken for an instant, unless the instant so
    arrived at lies outside the span of that offset, in which case the
    offset in use at the instant arrived at is taken. *)
Definition Date (year month day hour min sec nsec : Z) (loc : Location)
    : Time :=
  let m := int64 (month - 1) in
  let '(year, m) := norm year m 12 in
  let month := m + 1 in
  let '(sec, nsec) := norm sec nsec 1000000000 in
  let '(min, sec) := norm min sec 60 in
  let '(hour, min) := norm hour min 60 in
  let '(day, hour) := norm day hour 24 in
  let d := daysSinceEpoch year in
  let d := uint64 (d + daysBefore (month - 1)) in
  let d := if isLeap year && (3 <=? month) then uint64 (d + 1) else d in
  let d := uint64 (d + uint64 (day - 1)) in
  let abs := uint64 (d * secondsPerDay) in
  let abs :=
    uint64 (abs + uint64 (hour * secondsPerHour + min * secondsPerMinute
                          + sec)) in
  let unix := int64 (int64 abs + (absoluteToInternal + internalToUnix)) in
  let '(offset, start, end_) := lookup loc unix in
  let unix :=
    if decide (offset = 0) then unix
    else
      let utc := int64 (unix - offset) in
      let offset :=
        if (utc <? start) || (end_ <=? utc) then (lookup loc utc).1.1
        else offset in
      int64 (unix - offset) in
  mkTime (int64 (unix + unixToInternal)) nsec loc.

Definition AddDate (t : Time) (years months days : Z) : Time :=
  let '(year, month, day) := Date_of t in
  let '(hour, min, sec) := Clock t in
  Date (int64 (year + years)) (int64 (month + months)) (int64 (day + days))
       hour min sec (nsec t) (loc t).

(** Durations are nanoseconds in an [int64]. *)
Definition Second : Z := 1000000000.
Definition Minute : Z := 60 * Second.
Definition Hour : Z := 60 * Minute.

(** [t.addSec(d)] on the seconds of [t]: the sum, held at the largest or
    the smallest count when it overflows. *)
Definition addSec (s d : Z) : Z :=
  let sum := int64 (s + d) in
  if bool_decide ((s <? sum) = (0 <? d)) then sum
  else if 0 <? d then 2 ^ 63 - 1 else - (2 ^ 63 - 1).

Definition Add (t : Time) (d : Z) : Time :=
  let dsec := Z.quot d 1000000000 in
  let ns := nsec t + Z.rem d 1000000000 in
  let '(dsec, ns) :=
    if 1000000000 <=? ns then (dsec + 1, ns - 1000000000)
    else if ns <? 0 then (dsec - 1, ns + 1000000000)
    else (dsec, ns) in
  mkTime (addSec (sec t) dsec) ns (loc t).

Fixpoint zeros (n : nat) : string :=
  match n with O => EmptyString | S k => String "0" (zeros k) end.

(** [appendInt]: decimal, zero-padded to [width], a minus sign first. *)
Definition appendInt (x : Z) (width : nat) : string :=
  let digits := NilZero.string_of_uint (N.to_uint (Z.to_N (Z.abs x))) in
  (if x <? 0 then "-" else "")
    +:+ zeros (width - String.length digits) +:+ digits.

(** [t.Format("2006-01-02")]. *)
Definition Format_date (t : Time) : string :=
  let '(year, month, day) := absDate (abs t) in
  appendInt year 4 +:+ "-" +:+ appendInt month 2 +:+ "-" +:+ appendInt day 2.

(** [t.Format("15:04:05")]. *)
Definition Format_clock (t : Time) : string :=
  let '(hour, min, s) := absClock (abs t) in
  appendInt hour 2 +:+ ":" +:+ appendInt min 2 +:+ ":" +:+ appendInt s 2.
End time.

(** ** regexp: the placeholder pattern

    [parseDateTimeString] compiles one fixed pattern: two opening braces,
    then the capture group, then two closing braces. The group is one or
    more word bytes, a colon, and three offsets separated by commas, an
    offset being an optional minus sign followed by any number of digits.
    Every choice in it is forced by the next byte (a word byte is never a
    colon, a digit is never a comma or a brace, and the minus sign is taken
    when it is there), so the leftmost-first match at a position is found
    by one deterministic pass. *)

Module regexp.
Record Submatch := mkSubmatch { whole : string; group1 : string }.

(** [\w] and [\d] are the ASCII classes. *)
Definition isWord (c : ascii) : bool :=
  let n := N_of_ascii c in
  (((48 <=? n) && (n <=? 57)) || ((65 <=? n) && (n <=? 90))
   || ((97 <=? n) && (n <=? 122)) || (n =? 95))%N.

Definition isDigit (c : ascii) : bool := strconv.isDigit c.

(** The longest prefix of bytes of a class, and what follows it. *)
Fixpoint span (p : ascii → bool) (s : string) : string * string :=
  match s with
  | EmptyString => (EmptyString, EmptyString)
  | String c s' =>
      if p c then let '(a, b) := span p s' in (String c a, b)
      else (EmptyString, s)
  end.

Definition expect (c : ascii) (s : string) : option string :=
  match s with
  | String c' s' => if decide (c' = c) then Some s' else None
  | EmptyString => None
  end.

(** One offset: an optional minus sign and the digits after it. *)
Definition offset (s : string) : string * string :=
  match expect "-" s with
  | Some s' => let '(d, r) := span isDigit s' in (String "-" d, r)
  | None => span isDigit s
  end.

(** The pattern anchored at the start of [s]: the text of group 1. *)
Definition matchAt (s : string) : option string :=
  s ← expect "{" s; s ← expect "{" s;
  let '(w, s) := span isWord s in
  if decide (w = EmptyString) then None else
  s ← expect ":" s;
  let '(o1, s) := offset s in
  s ← expect "," s;
  let '(o2, s) := offset s in
  s ← expect "," s;
  let '(o3, s) := offset s in
  s ← expect "}" s; _ ← expect "}" s;
  Some (w +:+ ":" +:+ o1 +:+ "," +:+ o2 +:+ "," +:+ o3).

(** The successive non-overlapping matches; [skip] counts the bytes of
    the last match that are still to be passed over. *)
Fixpoint findAllFrom (skip : nat) (s : string) : list Submatch :=
  match s with
  | EmptyString => []
  | String _ s' =>
      match skip with
      | S k => findAllFrom k s'
      | O =>
          match matchAt s with
          | Some g =>
              mkSubmatch ("{{" +:+ g +:+ "}}") g
                :: findAllFrom (String.length g + 3) s'
          | None => findAllFrom O s'
          end
      end
  end.

(** [pattern.FindAllStringSubmatch(data, -1)] *)
Definition FindAllStringSubmatch (data : string) : list Submatch :=
  findAllFrom O data.
End regexp.

(** ** reflect: kinds, permission flags and field descriptors *)

Module reflect.
Inductive Kind :=
| Invalid | Bool | Int | Int8 | Int16 | Int32 | Int64
| Uint | Uint8 | Uint16 | Uint32 | Uint64 | Uintptr
| Float32 | Float64 | Complex64 | Complex128
| Array | Chan | Func | Interface | Map | Pointer | Slice
| String | Struct | UnsafePointer.

Global Instance Kind_eq_dec : EqDecision Kind.
Proof. solve_decision. Defined.

(** [int(kind)] *)
Definition Kind_value (k : Kind) : Z :=
  match k with
  | Invalid => 0 | Bool => 1 | Int => 2 | Int8 => 3 | Int16 => 4
  | Int32 => 5 | Int64 => 6 | Uint => 7 | Uint8 => 8 | Uint16 => 9
  | Uint32 => 10 | Uint64 => 11 | Uintptr => 12 | Float32 => 13
  | Float64 => 14 | Complex64 => 15 | Complex128 => 16 | Array => 17
  | Chan => 18 | Func => 19 | Interface => 20 | Map => 21 | Pointer => 22
  | Slice => 23 | String => 24 | Struct => 25 | UnsafePointer => 26
  end.

(** The kinds by the representation of their values. *)
Inductive IntKind := int_ | int8_ | int16_ | int32_ | int64_.
Inductive UintKind := uint_ | uint8_ | uint16_ | uint32_ | uint64_ | uintptr_.
Inductive FloatKind := float32_ | float64_.
Inductive OtherKind :=
| complex64_ | complex128_ | array_ | chan_ | func_ | interface_
| map_ | pointer_ | slice_ | unsafePointer_.

Definition IntKind_kind (k : IntKind) : Kind :=
  match k with
  | int_ => Int | int8_ => Int8 | int16_ => Int16 | int32_ => Int32
  | int64_ => Int64
  end.
Definition IntKind_bits (k : IntKind) : Z :=
  match k with
  | int_ => 64 | int8_ => 8 | int16_ => 16 | int32_ => 32 | int64_ => 64
  end.
Definition UintKind_kind (k : UintKind) : Kind :=
  match k with
  | uint_ => Uint | uint8_ => Uint8 | uint16_ => Uint16 | uint32_ => Uint32
  | uint64_ => Uint64 | uintptr_ => Uintptr
  end.
Definition UintKind_bits (k : UintKind) : Z :=
  match k with
  | uint_ => 64 | uint8_ => 8 | uint16_ => 16 | uint32_ => 32
  | uint64_ => 64 | uintptr_ => 64
  end.
Definition FloatKind_kind (k : FloatKind) : Kind :=
  match k with float32_ => Float32 | float64_ => Float64 end.
Definition OtherKind_kind (k : OtherKind) : Kind :=
  match k with
  | complex64_ => Complex64 | complex128_ => Complex128 | array_ => Array
  | chan_ => Chan | func_ => Func | interface_ => Interface | map_ => Map
  | pointer_ => Pointer | slice_ => Slice | unsafePointer_ => UnsafePointer
  end.

(** The permission bits of a [Value]'s flag word.
    - [flagStickyRO]: obtained via an unexported not embedded field;
    - [flagEmbedRO]: obtained via an unexported embedded field;
    - [flagAddr]: the value is addressable. *)
Record flag := mkFlag {
  flagStickyRO : bool;
  flagEmbedRO : bool;
  flagAddr : bool
}.

Definition flagRO (f : flag) : bool := flagStickyRO f || flagEmbedRO f.

(** [v.CanSet()]: [v.flag&(flagAddr|flagRO) == flagAddr]. *)
Definition CanSet (f : flag) : bool := flagAddr f && negb (flagRO f).

(** What the walker reads of a field's type: [Type.Name()] and
    [Type.PkgPath()]. The kind is that of the data of the field. *)
Record rtype := mkType { Type_Name : string; Type_PkgPath : string }.

(** A struct tag, as the list of its [key:"value"] pairs. *)
Definition StructTag := list (string * string).

(** [tag.Get(key)]: the value of the first pair with that key, else [""]. *)
Fixpoint Get (tag : StructTag) (key : string) : string :=
  match tag with
  | [] => ""
  | (k, v) :: tag' => if decide (k = key) then v else Get tag' key
  end.

(** [StructField]; [PkgPath] is empty exactly for an exported field and
    [Anonymous] marks an embedded field. *)
Record StructField := mkField {
  Name : string;
  PkgPath : string;
  Typ : rtype;
  Tag : StructTag;
  Anonymous : bool
}.

Definition IsExported (f : StructField) : bool :=
  bool_decide (PkgPath f = "").

(** The flag of [v.Field(i)]: the permission bits of [v] are inherited
    except [flagEmbedRO], which is cleared, and an unexported field sets
    [flagEmbedRO] when it is embedded and [flagStickyRO] when it is not. *)
Definition Field_flag (v : flag) (f : StructField) : flag :=
  {| flagStickyRO :=
       flagStickyRO v || (negb (IsExported f) && negb (Anonymous f));
     flagEmbedRO := negb (IsExported f) && Anonymous f;
     flagAddr := flagAddr v |}.

(** The flag of [ValueOf(p).Elem()] for a non-nil pointer [p]. *)
Definition Elem_flag : flag :=
  {| flagStickyRO := false; flagEmbedRO := false; flagAddr := true |}.
End reflect.

(** ** Package config *)

(** *** Configuration types (part_001) *)

Definition LOG_LEVEL : string := "LOG_LEVEL".
Definition BRANCH : string := "BRANCH".
Definition BUILD_NUMBER : string := "BUILD_NUMBER".
Definition COMMIT : string := "COMMIT".
Definition VERSION : string := "VERSION".

Record buildData := mkBuildData {
  Version : string;
  Commit : string;
  Branch : string;
  BuildNumber : string
}.

(** [Build] embeds the unexported [buildData]. *)
Record Build := mkBuild { Build_buildData : buildData }.

Record Configuration := mkConfiguration {
  LogLevel : string;
  Configuration_Build : Build
}.

Record initOptions := mkInitOptions { DefaultValues : gmap string string }.

(** What decoding ./config.json writes into [defaultConfiguration]: the
    fields the file gives a value for. A file that is missing, a directory,
    unreadable or not valid JSON gives none. *)
Record ConfigFile := mkConfigFile {
  file_log_level : option string;
  file_version : option string;
  file_commit : option string;
  file_branch : option string;
  file_build_number : option string
}.

(** *** Providers (part_002) *)

(** A [*MapProvider] is the address of its store. A store that was never
    written reads as the nil map; [Get] and [Set] both replace a nil map by
    an empty one before using it, so the two are not told apart. *)
Definition loc := nat.

Inductive KeyValueProvider :=
| EnvironmentProvider
| MapProvider (p : loc)
| OtherProvider (get : string → string * option string).

(** The process: its environment, its clock, the file ./config.json, the
    logger's level and the package-level variables of [config]. *)
Record State := mkState {
  environ : gmap string string;
  now : time.Time;
  configFile : ConfigFile;
  logLevel : log.Level;
  stores : gmap loc (gmap string string);
  dataProviders : list KeyValueProvider;
  defaultConfiguration : Configuration;
  configurationData : Configuration
}.

Definition set_stores (f : gmap loc (gmap string string) → gmap loc (gmap string string))
    (σ : State) : State :=
  mkState (environ σ) (now σ) (configFile σ) (logLevel σ) (f (stores σ))
          (dataProviders σ) (defaultConfiguration σ) (configurationData σ).
Definition set_dataProviders (ps : list KeyValueProvider) (σ : State) : State :=
  mkState (environ σ) (now σ) (configFile σ) (logLevel σ) (stores σ)
          ps (defaultConfiguration σ) (configurationData σ).
Definition set_defaultConfiguration (c : Configuration) (σ : State) : State :=
  mkState (environ σ) (now σ) (configFile σ) (logLevel σ) (stores σ)
          (dataProviders σ) c (configurationData σ).
Definition set_configurationData (c : Configuration) (σ : State) : State :=
  mkState (environ σ) (now σ) (configFile σ) (logLevel σ) (stores σ)
          (dataProviders σ) (defaultConfiguration σ) c.
Definition set_logLevel (l : log.Level) (σ : State) : State :=
  mkState (environ σ) (now σ) (configFile σ) l (stores σ)
          (dataProviders σ) (defaultConfiguration σ) (configurationData σ).

(** [os.Getenv] *)
Definition Getenv (σ : State) (key : string) : string :=
  default "" (environ σ !! key).

Definition EnvironmentProvider_Get (σ : State) (key : string)
    : string * option string :=
  (Getenv σ key, None).

Definition store_of (σ : State) (m : loc) : gmap string string :=
  default ∅ (stores σ !! m).

Definition MapProvider_Get (σ : State) (m : loc) (key : string)
    : string * option string :=
  (default "" (store_of σ m !! key), None).

Definition MapProvider_Set (m : loc) (key value : string) (σ : State) : State :=
  set_stores (fun h => <[m := <[key := value]> (store_of σ m)]> h) σ.

(** [DefaultMapProvider = &MapProvider{}] *)
Definition DefaultMapProvider : loc := 0%nat.

(** The initial value of [dataProviders], in decreasing order of priority. *)
Definition dataProviders_init : list KeyValueProvider :=
  [EnvironmentProvider; MapProvider DefaultMapProvider].

Definition ClearDataProviders (σ : State) : State := set_dataProviders [] σ.

Definition AddDataProvider (p : KeyValueProvider) (σ : State) : State :=
  set_dataProviders (dataProviders σ ++ [p]) σ.

Definition Get (σ : State) (prov : KeyValueProvider) (key : string)
    : string * option string :=
  match prov with
  | EnvironmentProvider => EnvironmentProvider_Get σ key
  | MapProvider m => MapProvider_Get σ m key
  | OtherProvider get => get key
  end.

(** The loop of [getValueDefault] over the providers still to be asked. *)
Fixpoint getValueDefault_loop (σ : State) (provs : list KeyValueProvider)
    (key envDefault : string) : string :=
  match provs with
  | [] => envDefault
  | prov :: provs' =>
      match Get σ prov key with
      | (v, None) =>
          if decide (v = "") then getValueDefault_loop σ provs' key envDefault
          else v
      | (_, Some _) => getValueDefault_loop σ provs' key envDefault
      end
  end.

Definition getValueDefault (σ : State) (key envDefault : string) : string :=
  getValueDefault_loop σ (dataProviders σ) key envDefault.

(** The loop of [getValue] over the providers still to be asked. *)
Fixpoint getValue_loop (σ : State) (provs : list KeyValueProvider)
    (key : string) : string :=
  match provs with
  | [] => ""
  | prov :: provs' =>
      match Get σ prov key with
      | (v, None) =>
          if decide (v = "") then getValue_loop σ provs' key else v
      | (_, Some _) => getValue_loop σ provs' key
      end
  end.

Definition getValue (σ : State) (key : string) : string :=
  getValue_loop σ (dataProviders σ) key.

(** *** Placeholder expansion *)

(** The body of the loop of [parseDateTimeString] for one match. *)
Definition expandMatch (t : time.Time) (data : string) (m : regexp.Submatch)
    : string :=
  match strings.Split (regexp.group1 m) ":" with
  | [tag0; tag1] =>
      match strings.Split tag1 "," with
      | [s0; s1; s2] =>
          let v0 := (strconv.ParseInt s0).1 in
          let v1 := (strconv.ParseInt s1).1 in
          let v2 := (strconv.ParseInt s2).1 in
          if decide (tag0 = "date") then
            strings.Replace data (regexp.whole m)
              (time.Format_date (time.AddDate t v0 v1 v2))
          else if decide (tag0 = "time") then
            strings.Replace data (regexp.whole m)
              (time.Format_clock
                 (time.Add t
                    (int64 (int64 (int64 (v0 * time.Hour)
                                   + int64 (v1 * time.Minute))
                            + int64 (v2 * time.Second)))))
          else data
      | _ => data
      end
  | _ => data
  end.

(** [parseDateTimeString], read on a clock that shows [t] throughout. *)
Definition parseDateTimeString (t : time.Time) (data : string) : string :=
  fold_left (expandMatch t) (regexp.FindAllStringSubmatch data) data.

(** *** Functional options of [Init] *)

Definition Set_ (key value : string) : initOptions → initOptions :=
  fun o => mkInitOptions (<[key := value]> (DefaultValues o)).

Definition Defaults (setters : list (initOptions → initOptions))
    : initOptions → initOptions :=
  fun o => fold_left (fun o setter => setter o) setters o.

(** [InitFromConfigFiles]: the decoded fields overwrite the defaults. *)
Definition InitFromConfigFiles (σ : State) : State :=
  let f := configFile σ in
  let c := defaultConfiguration σ in
  let b := Build_buildData (Configuration_Build c) in
  set_defaultConfiguration
    (mkConfiguration
       (default (LogLevel c) (file_log_level f))
       (mkBuild (mkBuildData
          (default (Version b) (file_version f))
          (default (Commit b) (file_commit f))
          (default (Branch b) (file_branch f))
          (default (BuildNumber b) (file_build_number f))))) σ.

(** *** A process to run the engine in *)

(** The initial value of [defaultConfiguration] in part_001. *)
Definition defaultConfiguration_init : Configuration :=
  mkConfiguration "INFO" (mkBuild (mkBuildData "1.0.0" "" "" "")).

(** A process just started, with the given environment and no
    ./config.json, on a clock showing 2024-03-15 10:30:00 UTC. *)
Definition started (env : gmap string string) : State :=
  mkState env (time.Date 2024 3 15 10 30 0 0 time.UTC)
    (mkConfigFile None None None None None) log.INFO ∅ dataProviders_init
    defaultConfiguration_init
    (mkConfiguration "" (mkBuild (mkBuildData "" "" "" ""))).

(** A process whose ./config.json gives a log level, a version and a
    commit, and whose logger is at DEBUG. *)
Definition started_with_file (env : gmap string string) : State :=
  mkState env (time.Date 2024 3 15 10 30 0 0 time.UTC)
    (mkConfigFile (Some "warn") (Some "9.9.9") (Some "{{date:0,0,0}}")
       None None)
    log.DEBUG ∅ dataProviders_init defaultConfiguration_init
    (mkConfiguration "" (mkBuild (mkBuildData "" "" "" ""))).

(** The zones of New York from November 2023 to March 2025: five hours
    west of UTC, and four while daylight saving time is on, from
    2024-03-10 07:00:00 UTC to 2024-11-03 06:00:00 UTC. *)
Definition New_York : time.Location :=
  time.mkLocation (fun unix =>
    if unix <? 1710054000 then (-18000, 1699164000, 1710054000)
    else if unix <? 1730613600 then (-14400, 1710054000, 1730613600)
    else (-18000, 1730613600, 1741503600)).

(** A platform without floating point, for running examples. *)
Definition no_ParseFloat (s : string) : unit * option strconv.NumError :=
  (tt, Some strconv.ErrSyntax).

Section Engine.

(** [float64] values, [strconv.ParseFloat(s, 64)] and the conversion
    [float32(x)] (a [float32] is carried by the [float64] it equals). *)
Variable float64 : Type.

Variable ParseFloat : string → float64 * option strconv.NumError.

Variable to_float32 : float64 → float64.

(** *** reflect: values *)

(** The data a [Value] refers to. A struct carries the descriptor of each
    of its fields next to the field's data. *)
Local Unset Elimination Schemes.

Inductive Data :=
| DBool (b : bool)
| DInt (k : reflect.IntKind) (i : Z)
| DUint (k : reflect.UintKind) (u : Z)
| DFloat (k : reflect.FloatKind) (x : float64)
| DString (s : string)
| DStruct (fields : list (reflect.StructField * Data))
| DOther (k : reflect.OtherKind).

Local Set Elimination Schemes.

(** Induction over a value and the fields nested in it. *)
Fixpoint Data_ind (P : Data → Prop)
    (HBool : ∀ b, P (DBool b))
    (HInt : ∀ k i, P (DInt k i))
    (HUint : ∀ k u, P (DUint k u))
    (HFloat : ∀ k x, P (DFloat k x))
    (HString : ∀ s, P (DString s))
    (HStruct : ∀ fields, Forall (fun f => P f.2) fields → P (DStruct fields))
    (HOther : ∀ k, P (DOther k))
    (d : Data) {struct d} : P d :=
  match d with
  | DBool b => HBool b
  | DInt k i => HInt k i
  | DUint k u => HUint k u
  | DFloat k x => HFloat k x
  | DString s => HString s
  | DStruct fields =>
      HStruct fields
        ((fix all (fs : list (reflect.StructField * Data))
            : Forall (fun f => P f.2) fs :=
            match fs with
            | [] => @List.Forall_nil _ (fun f => P f.2)
            | (ft, fv) :: fs' =>
                @List.Forall_cons _ (fun f => P f.2) (ft, fv) fs'
                  (Data_ind P HBool HInt HUint HFloat HString HStruct HOther fv)
                  (all fs')
            end) fields)
  | DOther k => HOther k
  end.

(** [v.Kind()] *)
Definition Kind (d : Data) : reflect.Kind :=
  match d with
  | DBool _ => reflect.Bool
  | DInt k _ => reflect.IntKind_kind k
  | DUint k _ => reflect.UintKind_kind k
  | DFloat k _ => reflect.FloatKind_kind k
  | DString _ => reflect.String
  | DStruct _ => reflect.Struct
  | DOther k => reflect.OtherKind_kind k
  end.

(** [v.mustBeAssignable()] *)
Definition mustBeAssignable (fl : reflect.flag) : result unit :=
  if reflect.flagRO fl
  then panic "reflect: value obtained using unexported field"
  else if reflect.flagAddr fl then ret tt
  else panic "reflect: using unaddressable value".

Definition SetBool (fl : reflect.flag) (d : Data) (x : bool) : result Data :=
  mustBeAssignable fl ;;;
  match d with
  | DBool _ => ret (DBool x)
  | _ => panic "reflect: call of reflect.Value.SetBool on non-bool Value"
  end.

Definition SetInt (fl : reflect.flag) (d : Data) (x : Z) : result Data :=
  mustBeAssignable fl ;;;
  match d with
  | DInt k _ => ret (DInt k (wrap_signed (reflect.IntKind_bits k) x))
  | _ => panic "reflect: call of reflect.Value.SetInt on non-int Value"
  end.

Definition SetUint (fl : reflect.flag) (d : Data) (x : Z) : result Data :=
  mustBeAssignable fl ;;;
  match d with
  | DUint k _ => ret (DUint k (wrap_unsigned (reflect.UintKind_bits k) x))
  | _ => panic "reflect: call of reflect.Value.SetUint on non-uint Value"
  end.

Definition SetFloat (fl : reflect.flag) (d : Data) (x : float64) : result Data :=
  mustBeAssignable fl ;;;
  match d with
  | DFloat reflect.float32_ _ => ret (DFloat reflect.float32_ (to_float32 x))
  | DFloat reflect.float64_ _ => ret (DFloat reflect.float64_ x)
  | _ => panic "reflect: call of reflect.Value.SetFloat on non-float Value"
  end.

Definition SetString (fl : reflect.flag) (d : Data) (x : string) : result Data :=
  mustBeAssignable fl ;;;
  match d with
  | DString _ => ret (DString x)
  | _ => panic "reflect: call of reflect.Value.SetString on non-string Value"
  end.

(** *** Setters *)

Definition Setter := reflect.flag → Data → string → result Data.

Definition setter_Bool : Setter := fun fl field value =>
  match strconv.ParseBool value with
  | (val, None) => SetBool fl field val
  | (_, Some _) => ret field
  end.

Definition setter_Int : Setter := fun fl field value =>
  match strconv.ParseInt value with
  | (val, None) => SetInt fl field val
  | (_, Some _) => ret field
  end.

Definition setter_Float32 : Setter := fun fl field value =>
  match ParseFloat value with
  | (val, None) => SetFloat fl field val
  | (_, Some _) => ret field
  end.

Definition setter_Uint : Setter := fun fl field value =>
  match strconv.ParseUint value with
  | (val, None) => SetUint fl field val
  | (_, Some _) => ret field
  end.

Definition setter_String (σ : State) : Setter := fun fl field value =>
  let val := parseDateTimeString (now σ) value in
  SetString fl field val.

(** The table [initSetters] builds. [setters] is written by [initSetters]
    only, on the first call of [setValue], so a lookup in it is a lookup
    in this table. *)
Definition setters (σ : State) (k : reflect.Kind) : option Setter :=
  match k with
  | reflect.Bool => Some setter_Bool
  | reflect.Int | reflect.Int8 | reflect.Int16 | reflect.Int32
  | reflect.Int64 => Some setter_Int
  | reflect.Float32 | reflect.Float64 => Some setter_Float32
  | reflect.Uint | reflect.Uint8 | reflect.Uint16 | reflect.Uint32
  | reflect.Uint64 => Some setter_Uint
  | reflect.String => Some (setter_String σ)
  | _ => None
  end.

Definition isStruct (fv : Data) (ft : reflect.StructField) : bool :=
  negb (bool_decide (reflect.Type_PkgPath (reflect.Typ ft) = ""))
  && bool_decide (Kind fv = reflect.Struct).

(** [setValue]. A [Value] taken from a struct field is always valid, so
    the guard is [CanSet]; the kind of the field's type is the kind of
    its data. *)
Definition setValue (σ : State) (fl : reflect.flag) (field : Data)
    (fieldType : reflect.StructField) (value : string) : result Data :=
  if negb (reflect.CanSet fl) then ret field
  else
    let kind := Kind field in
    match setters σ kind with
    | Some setter => setter fl field value
    | None =>
        Warnf "did not find setter for field %s kind = %d"
          [log.AStr (reflect.Name fieldType);
           log.AInt (reflect.Kind_value kind)] ;;;
        ret field
    end.

(** The body of the loop of [walkStruct] for field [i], whose [Value]
    has flag [fl] and data [fv]; [walk] is [walkStruct] itself. *)
Definition walkField
    (walk : reflect.flag → reflect.rtype → Data → Z → result Data)
    (σ : State) (maxDepth : Z) (i : nat) (fl : reflect.flag)
    (ft : reflect.StructField) (fv : Data) : result Data :=
  Debugf "walk[%d]: %s %s"
    [log.AInt (Z.of_nat i); log.AStr (reflect.Name ft);
     log.AStr (reflect.Type_Name (reflect.Typ ft))] ;;;
  let tag := reflect.Get (reflect.Tag ft) "env" in
  if decide (tag = "") then
    if (0 <? maxDepth) && isStruct fv ft
    then walk fl (reflect.Typ ft) fv (maxDepth - 1)
    else ret fv
  else
    let defaultTag := reflect.Get (reflect.Tag ft) "default" in
    let envValue := getValueDefault σ tag defaultTag in
    if decide (envValue = "") then ret fv
    else
      Debugf "setting %s to %s"
        [log.AStr (reflect.Name ft); log.AStr envValue] ;;;
      setValue σ fl fv ft envValue.

(** [walkStruct(v, maxDepth)]; the [Value] [v] is given by its flag, its
    type and the data it refers to, and the data after the walk is
    returned. [NumField] panics on a value that is not a struct. *)
Fixpoint walkStruct (σ : State) (fl : reflect.flag) (t : reflect.rtype)
    (v : Data) (maxDepth : Z) {struct v} : result Data :=
  Debugf "walk: %s %d" [log.AStr (reflect.Type_Name t); log.AInt maxDepth] ;;;
  match v with
  | DStruct fields =>
      fields' <-
        (fix loop (i : nat) (fs : list (reflect.StructField * Data))
           : result (list (reflect.StructField * Data)) :=
           match fs with
           | [] => ret []
           | (ft, fv) :: fs' =>
               fv' <- walkField (walkStruct σ) σ maxDepth i
                        (reflect.Field_flag fl ft) ft fv ;;
               fs'' <- loop (S i) fs' ;;
               ret ((ft, fv') :: fs'')
           end) O fields ;;
      ret (DStruct fields')
  | _ => panic "reflect: call of reflect.Value.NumField on non-struct Value"
  end.

(** The loop of [walkStruct] from field [i] on, as a function of its own. *)
Definition walkFields (σ : State) (fl : reflect.flag) (maxDepth : Z)
    : nat → list (reflect.StructField * Data)
      → result (list (reflect.StructField * Data)) :=
  fix loop (i : nat) (fs : list (reflect.StructField * Data)) :=
    match fs with
    | [] => ret []
    | (ft, fv) :: fs' =>
        fv' <- walkField (walkStruct σ) σ maxDepth i
                 (reflect.Field_flag fl ft) ft fv ;;
        fs'' <- loop (S i) fs' ;;
        ret ((ft, fv') :: fs'')
    end.

(** What [ApplyExternalConfig] can be handed as [s interface{}]. *)
Inductive Iface :=
| Nil
| Direct (t : reflect.rtype) (d : Data)
| PointerTo (t : reflect.rtype) (d : option Data).

(** [ApplyExternalConfig]: the value [s] points to after the walk, and
    the error returned. [Elem] panics unless [s] holds a pointer, and the
    zero [Value] it gives for a nil pointer has no type. *)
Definition ApplyExternalConfig (σ : State) (s : Iface) (maxDepth : Z)
    : result (Data * option string) :=
  match s with
  | PointerTo t (Some d) =>
      d' <- walkStruct σ reflect.Elem_flag t d maxDepth ;;
      ret (d', None)
  | PointerTo t None =>
      panic "reflect: call of reflect.Value.Type on zero Value"
  | Direct _ _ | Nil =>
      panic "reflect: call of reflect.Value.Elem on non-pointer Value"
  end.

(** *** The package's own record as a [Value] (part_001) *)

Definition pkg : string := "grail/sysinfra/cfg/config".

Definition string_type : reflect.rtype := reflect.mkType "string" "".

Definition buildData_type : reflect.rtype := reflect.mkType "buildData" pkg.

Definition Build_type : reflect.rtype := reflect.mkType "Build" pkg.

Definition Configuration_type : reflect.rtype :=
  reflect.mkType "Configuration" pkg.

Definition field_Version : reflect.StructField :=
  reflect.mkField "Version" "" string_type
    [("json", "version,omitempty"); ("default", "1.3"); ("env", "VERSION")]
    false.

Definition field_Commit : reflect.StructField :=
  reflect.mkField "Commit" "" string_type
    [("json", "commit,omitempty"); ("env", "COMMIT")] false.

Definition field_Branch : reflect.StructField :=
  reflect.mkField "Branch" "" string_type
    [("json", "branch,omitempty"); ("env", "BRANCH")] false.

Definition field_BuildNumber : reflect.StructField :=
  reflect.mkField "BuildNumber" "" string_type
    [("json", "build_number,omitempty"); ("env", "BUILD_NUMBER")] false.

(** The embedded field of [Build]: unexported, so it carries the path of
    the package, and anonymous. *)
Definition field_buildData : reflect.StructField :=
  reflect.mkField "buildData" pkg buildData_type [] true.

Definition field_LogLevel : reflect.StructField :=
  reflect.mkField "LogLevel" "" string_type
    [("json", "log_level"); ("env", "LOG_LEVEL")] false.

Definition field_Build : reflect.StructField :=
  reflect.mkField "Build" "" Build_type [("json", "build")] false.

Definition Data_of_buildData (b : buildData) : Data :=
  DStruct [(field_Version, DString (Version b));
           (field_Commit, DString (Commit b));
           (field_Branch, DString (Branch b));
           (field_BuildNumber, DString (BuildNumber b))].

Definition Data_of_Build (b : Build) : Data :=
  DStruct [(field_buildData, Data_of_buildData (Build_buildData b))].

Definition Data_of_Configuration (c : Configuration) : Data :=
  DStruct [(field_LogLevel, DString (LogLevel c));
           (field_Build, Data_of_Build (Configuration_Build c))].



(** Reading the record back from memory laid out as a [Configuration]. *)
Definition Configuration_of_Data (d : Data) : option Configuration :=
  match d with
  | DStruct [(_, DString l);
             (_, DStruct [(_, DStruct [(_, DString v); (_, DString c);
                                       (_, DString b); (_, DString n)])])] =>
      Some (mkConfiguration l (mkBuild (mkBuildData v c b n)))
  | _ => None
  end.

(** *** The driver (part_001) *)

(** [Init]: the state it leaves and the error it returns; the pointer it
    returns is [&configurationData] when the error is nil. The walk works
    on the memory of [configurationData], which keeps the layout of a
    [Configuration]. [json.Marshal] of a record of strings gives no error,
    so nothing is logged after the level is set. *)
Definition Init (options : list (initOptions → initOptions)) (σ : State)
    : result (State * option string) :=
  let σ := InitFromConfigFiles σ in
  let ops := fold_left (fun o option => option o) options (mkInitOptions ∅) in
  let σ := set_configurationData (defaultConfiguration σ) σ in
  let σ := map_fold (fun key value σ =>
                       MapProvider_Set DefaultMapProvider key value σ)
                    σ (DefaultValues ops) in
  r <- ApplyExternalConfig σ
         (PointerTo Configuration_type
            (Some (Data_of_Configuration (configurationData σ)))) 4 ;;
  match Configuration_of_Data r.1 with
  | None => panic "configurationData: layout changed"
  | Some c =>
      let σ := set_configurationData c σ in
      match r.2 with
      | Some err => ret (σ, Some ("error resolving config values: " +:+ err))
      | None =>
          let level := (log.UnmarshalText log.INFO (LogLevel c)).1 in
          ret (set_logLevel level σ, None)
      end
  end.

(** ** Notions the statements are written with *)

(** *** The walk returns *)

Definition walk_returns (σ : State) (v : Data) : Prop :=
  ∀ fl t maxDepth, Kind v = reflect.Struct →
    ∃ fs' w, walkStruct σ fl t v maxDepth = Ok (DStruct fs') w.

(** *** The walk of the package's own record *)

Definition resolved (σ : State) (key defaultTag old : string) : string :=
  let envValue := getValueDefault σ key defaultTag in
  if decide (envValue = "") then old
  else parseDateTimeString (now σ) envValue.

Definition resolve_Configuration (σ : State) (c : Configuration)
    : Configuration :=
  let b := Build_buildData (Configuration_Build c) in
  mkConfiguration
    (resolved σ LOG_LEVEL "" (LogLevel c))
    (mkBuild (mkBuildData
       (resolved σ VERSION "1.3" (Version b))
       (resolved σ COMMIT "" (Commit b))
       (resolved σ BRANCH "" (Branch b))
       (resolved σ BUILD_NUMBER "" (BuildNumber b)))).

(** *** The provider chain *)

(** Provider [prov] yields [v] for [key]: found (no error) and not empty. *)
Definition yields (σ : State) (prov : KeyValueProvider) (key v : string)
    : Prop :=
  Get σ prov key = (v, None) ∧ v ≠ "".

(** *** The driver *)

(** The state [Init] hands to the walk. *)
Definition Init_state (options : list (initOptions → initOptions))
    (σ : State) : State :=
  let σ := InitFromConfigFiles σ in
  let ops := fold_left (fun o option => option o) options (mkInitOptions ∅) in
  let σ := set_configurationData (defaultConfiguration σ) σ in
  map_fold (fun key value σ => MapProvider_Set DefaultMapProvider key value σ)
           σ (DefaultValues ops).

(** Whether the parser of a scalar kind accepts the text. *)
Definition parses (k : reflect.Kind) (value : string) : bool :=
  match k with
  | reflect.Bool => bool_decide ((strconv.ParseBool value).2 = None)
  | reflect.Int | reflect.Int8 | reflect.Int16 | reflect.Int32
  | reflect.Int64 => bool_decide ((strconv.ParseInt value).2 = None)
  | reflect.Uint | reflect.Uint8 | reflect.Uint16 | reflect.Uint32
  | reflect.Uint64 => bool_decide ((strconv.ParseUint value).2 = None)
  | reflect.Float32 | reflect.Float64 =>
      bool_decide ((ParseFloat value).2 = None)
  | _ => true
  end.

(** *** Depth of the walk *)



(** *** Walking twice *)

(** The descriptors of the fields with a bound key, at any depth. *)
Fixpoint boundFields (v : Data) : list reflect.StructField :=
  match v with
  | DStruct fs =>
      (fix go (fs : list (reflect.StructField * Data)) :=
         match fs with
         | [] => []
         | (ft, fv) :: fs' =>
             (if decide (reflect.Get (reflect.Tag ft) "env" = "")
              then [] else [ft]) ++ boundFields fv ++ go fs'
         end) fs
  | _ => []
  end.

Definition set_now (t : time.Time) (σ : State) : State :=
  mkState (environ σ) t (configFile σ) (logLevel σ) (stores σ)
          (dataProviders σ) (defaultConfiguration σ) (configurationData σ).

(** Two states whose providers answer alike. *)
Definition same_sources (σ σ2 : State) : Prop :=
  environ σ2 = environ σ ∧ stores σ2 = stores σ
  ∧ dataProviders σ2 = dataProviders σ.

(** The resolved value of a bound field. *)
Definition resolvedValue (σ : State) (ft : reflect.StructField) : string :=
  getValueDefault σ (reflect.Get (reflect.Tag ft) "env")
    (reflect.Get (reflect.Tag ft) "default").

(** The clocks of two states agree on the expansion of every resolved
    value of the record. *)
Definition clocks_agree (σ σ2 : State) (v : Data) : Prop :=
  ∀ ft, ft ∈ boundFields v →
    parseDateTimeString (now σ2) (resolvedValue σ ft)
    = parseDateTimeString (now σ) (resolvedValue σ ft).

(** Walking the result of a walk of [v] returns it unchanged. *)
Definition walks_again (σ σ2 : State) (v : Data) : Prop :=
  ∀ fl t maxDepth v' w,
    clocks_agree σ σ2 v →
    walkStruct σ fl t v maxDepth = Ok v' w →
    ∃ w', walkStruct σ2 fl t v' maxDepth = Ok v' w'.

(** The state [Init] leaves. *)
Definition Init_final (options : list (initOptions → initOptions))
    (σ : State) : State :=
  let σp := Init_state options σ in
  let c := resolve_Configuration σp (configurationData σp) in
  set_logLevel (log.UnmarshalText log.INFO (LogLevel c)).1
    (set_configurationData c σp).

(** *** Placeholder expansion: strings cut into plain text and tokens *)

Fixpoint all_chars (p : ascii → bool) (s : string) : bool :=
  match s with
  | EmptyString => true
  | String c s' => p c && all_chars p s'
  end.

(** One offset of a token as it is written: a minus sign or none, and
    digits, possibly none. *)
Record Offset := mkOffset { neg : bool; digits : string }.

Definition offset_text (o : Offset) : string :=
  (if neg o then "-" else "") +:+ digits o.

Fixpoint decimal_from (n : Z) (ds : string) : Z :=
  match ds with
  | EmptyString => n
  | String c ds' => decimal_from (n * 10 + strconv.digitVal c) ds'
  end.

(** The number the digits write. *)
Definition decimal (ds : string) : Z := decimal_from 0 ds.

Definition clamp64 (z : Z) : Z := Z.max (- 2 ^ 63) (Z.min (2 ^ 63 - 1) z).

(** The offset a segment stands for: zero when it has no digits, else the
    signed number written, kept within [int64]. *)
Definition offset_value (o : Offset) : Z :=
  if decide (digits o = "") then 0
  else clamp64 (if neg o then - decimal (digits o) else decimal (digits o)).

Inductive Segment :=
| Plain (s : string)
| Token (unit : string) (o1 o2 o3 : Offset).

Definition group_text (unit : string) (o1 o2 o3 : Offset) : string :=
  unit +:+ ":" +:+ offset_text o1 +:+ "," +:+ offset_text o2
       +:+ "," +:+ offset_text o3.

Definition segment_text (g : Segment) : string :=
  match g with
  | Plain s => s
  | Token unit o1 o2 o3 => "{{" +:+ group_text unit o1 o2 o3 +:+ "}}"
  end.

Fixpoint text (segs : list Segment) : string :=
  match segs with
  | [] => ""
  | g :: segs' => segment_text g +:+ text segs'
  end.

(** Plain text: the pattern matches at none of its positions, whatever
    follows it. *)
Fixpoint no_match (s : string) : Prop :=
  match s with
  | EmptyString => True
  | String c s' =>
      (∀ rest, regexp.matchAt (String c s' +:+ rest) = None) ∧ no_match s'
  end.

Definition wf_offset (o : Offset) : Prop :=
  all_chars regexp.isDigit (digits o) = true.

(** A well-formed token has a unit of one or more word bytes and three
    offsets. *)
Definition wf_segment (g : Segment) : Prop :=
  match g with
  | Plain s => no_match s
  | Token unit o1 o2 o3 =>
      unit ≠ "" ∧ all_chars regexp.isWord unit = true
      ∧ wf_offset o1 ∧ wf_offset o2 ∧ wf_offset o3
  end.

(** What a segment reads after expansion on a clock showing [t]. *)
Definition expansion (t : time.Time) (g : Segment) : string :=
  match g with
  | Plain s => s
  | Token unit o1 o2 o3 =>
      if decide (unit = "date") then
        time.Format_date
          (time.AddDate t (offset_value o1) (offset_value o2)
             (offset_value o3))
      else if decide (unit = "time") then
        time.Format_clock
          (time.Add t
             (int64 (int64 (int64 (offset_value o1 * time.Hour)
                            + int64 (offset_value o2 * time.Minute))
                     + int64 (offset_value o3 * time.Second))))
      else segment_text g
  end.

Fixpoint expanded (t : time.Time) (segs : list Segment) : string :=
  match segs with
  | [] => ""
  | g :: segs' => expansion t g +:+ expanded t segs'
  end.

Definition starts_outside (p : ascii → bool) (s : string) : Prop :=
  match s with EmptyString => True | String c _ => p c = false end.

Definition submatch (g : Segment) : regexp.Submatch :=
  match g with
  | Token unit o1 o2 o3 =>
      regexp.mkSubmatch (segment_text g) (group_text unit o1 o2 o3)
  | Plain s => regexp.mkSubmatch s s
  end.

Fixpoint tokens (segs : list Segment) : list Segment :=
  match segs with
  | [] => []
  | Plain _ :: segs' => tokens segs'
  | g :: segs' => g :: tokens segs'
  end.

Definition free_of (sep : ascii) (s : string) : Prop :=
  all_chars (fun c => negb (bool_decide (c = sep))) s = true.

Definition expandable (unit : string) : Prop := unit = "date" ∨ unit = "time".

Global Instance Offset_eq_dec : EqDecision Offset.
Proof. solve_decision. Defined.

Global Instance Segment_eq_dec : EqDecision Segment.
Proof. solve_decision. Defined.

(** Replacing the segments equal to [tok] by plain text. *)
Definition subst (tok : Segment) (new : string) (g : Segment) : Segment :=
  if decide (g = tok) then Plain new else g.

Definition is_token (g : Segment) : Prop :=
  match g with Token _ _ _ _ => True | Plain _ => False end.

(** The segments after the iteration for the match of [tok]. *)
Definition step (t : time.Time) (cur : list Segment) (tok : Segment)
    : list Segment :=
  match tok with
  | Token unit _ _ _ =>
      if decide (expandable unit) then subst tok (expansion t tok) <$> cur
      else cur
  | Plain _ => cur
  end.

(** One segment through the iterations for [toks]. *)
Definition step1 (t : time.Time) (g tok : Segment) : Segment :=
  match tok with
  | Token unit _ _ _ =>
      if decide (expandable unit) then subst tok (expansion t tok) g else g
  | Plain _ => g
  end.

(** *** The calendar *)

(** The days of a year, and of a month of it. *)
Definition yearLength (year : Z) : Z := if time.isLeap year then 366 else 365.

Definition daysIn (year month : Z) : Z :=
  if decide (month = 2) then (if time.isLeap year then 29 else 28)
  else if decide (month = 4 ∨ month = 6 ∨ month = 9 ∨ month = 11) then 30
  else 31.

(** The days of the months of [year] before [month]. *)
Definition daysBeforeMonth (year month : Z) : Z :=
  foldr Z.add 0
    ((fun k => daysIn year (Z.of_nat k)) <$> seq 1 (Z.to_nat (month - 1))).

(** Days from 0001-01-01 to the first of January of [year]. *)
Definition yearStart (year : Z) : Z :=
  365 * (year - 1) + (year - 1) / 4 - (year - 1) / 100 + (year - 1) / 400.

(** Days from 0001-01-01 to a day of the calendar. The day may lie outside
    the month, and then counts on into the months after it, or back into
    those before. *)
Definition dayNumber (year month day : Z) : Z :=
  yearStart year + daysBeforeMonth year month + (day - 1).

(** A day of the calendar. *)
Definition valid_date (year month day : Z) : Prop :=
  1 ≤ month ≤ 12 ∧ 1 ≤ day ≤ daysIn year month.

(** The offset a location has in use at an instant, and the reading of its
    wall clock then; instants and readings are in seconds since 0001-01-01
    00:00:00, the instants on the clock of UTC. *)
Definition offsetAt (l : time.Location) (s : Z) : Z :=
  (time.lookup l (s - time.unixToInternal)).1.1.

Definition wallAt (l : time.Location) (s : Z) : Z := s + offsetAt l s.

Definition wall (t : time.Time) : Z := wallAt (time.loc t) (time.sec t).

(** The day the wall clock of [t] shows. *)
Definition shows (t : time.Time) (year month day : Z) : Prop :=
  valid_date year month day ∧ dayNumber year month day = wall t / 86400.

(** A reading [w] of the wall clock is steady when the location has the
    same offset in use at [w] taken for an instant and at the instant that
    offset puts the reading at. Every reading of a location with one
    offset is steady, and so is a reading of a location with daylight
    saving time unless a change of offset lies between the two instants:
    a reading the clocks skip or show twice is not. *)
Definition steady (l : time.Location) (w : Z) : Prop :=
  offsetAt l (w - offsetAt l w) = offsetAt l w.

(** A clock as [time.Now] reads it: within 2^55 seconds of the year 1,
    which is more than a thousand million years, nanoseconds below a
    second, in a location whose offsets are below a day. *)
Definition clock_ok (t : time.Time) : Prop :=
  (- 2 ^ 55 ≤ time.sec t ≤ 2 ^ 55)
  ∧ (0 ≤ time.nsec t < 1000000000)
  ∧ ∀ s, - 86400 < offsetAt (time.loc t) s < 86400.

(** The reading [Date] is asked for, by its day and the seconds since
    midnight: the month may lie outside the year, and then counts on into
    the years after it, or back into those before. *)
Definition reading (year month day tod : Z) : Z :=
  dayNumber (year + (month - 1) / 12) ((month - 1) mod 12 + 1) day * 86400
  + tod.

(** The days from the start of the absolute zero year to 0001-01-01. *)
Definition absDays : Z := 106751990353932.

(** The month and the day of the month, by the day of the year: the
    second half of [absDate]. *)
Definition monthDay (leap : bool) (yday : Z) : Z * Z :=
  let leapDay := leap && (yday =? 31 + 29 - 1) in
  if leapDay then (2, 29)
  else
    let day := if leap && (31 + 29 - 1 <? yday) then yday - 1 else yday in
    let month := day / 31 in
    let end_ := time.daysBefore (month + 1) in
    let '(month, begin) :=
      if end_ <=? day then (month + 1, end_) else (month, time.daysBefore month) in
    (month + 1, day - begin + 1).

(** [daysIn] and [daysBeforeMonth] of a year that is a leap year or not. *)
Definition monthLength (leap : bool) (m : Z) : Z :=
  if decide (m = 2) then (if leap then 29 else 28)
  else if decide (m = 4 ∨ m = 6 ∨ m = 9 ∨ m = 11) then 30 else 31.

Definition monthStart (leap : bool) (m : Z) : Z :=
  foldr Z.add 0
    ((fun k => monthLength leap (Z.of_nat k)) <$> seq 1 (Z.to_nat (m - 1))).

(** The checks of [monthDay] that are run over every day of a year:
    the month and the day are those of the calendar, and they lead back to
    the day of the year. *)
Definition monthDay_ok (leap : bool) (yday : Z) : bool :=
  let '(m, d) := monthDay leap yday in
  bool_decide (1 ≤ m ≤ 12) && bool_decide (1 ≤ d ≤ monthLength leap m)
  && bool_decide (monthStart leap m + (d - 1) = yday).

(** The other way round, over every day of every month. *)
Definition monthDay_inv_ok (leap : bool) (m d : Z) : bool :=
  bool_decide
    (d ≤ monthLength leap m →
     monthDay leap (monthStart leap m + (d - 1)) = (m, d)).

(** The days of a month lie within the year, and the table [daysBefore]
    agrees with the lengths of the months. *)
Definition month_bounds_ok (leap : bool) (m : Z) : bool :=
  bool_decide
    (0 ≤ monthStart leap m
     ∧ monthStart leap m + monthLength leap m ≤ (if leap then 366 else 365)
     ∧ monthStart leap m
       = time.daysBefore (m - 1) + (if leap && (3 <=? m) then 1 else 0)).

(** The layouts 2006-01-02 and 15:04:05, digit by digit, on a date of a
    year of up to four digits and on the seconds since midnight. *)
Definition digit (n : Z) : ascii := ascii_of_N (48 + Z.to_N n).

Definition two_digits (n : Z) : string :=
  String (digit (n / 10)) (String (digit (n mod 10)) "").

Definition four_digits (n : Z) : string :=
  String (digit (n / 1000)) (String (digit (n / 100 mod 10))
    (two_digits (n mod 100))).

Definition date_text (year month day : Z) : string :=
  four_digits year +:+ "-" +:+ two_digits month +:+ "-" +:+ two_digits day.

Definition clock_text (r : Z) : string :=
  two_digits (r / 3600) +:+ ":" +:+ two_digits (r mod 3600 / 60)
    +:+ ":" +:+ two_digits (r mod 60).

(** [appendInt] against the digits, checked over the numbers of two and
    of four digits. *)
Definition two_digits_ok (x : Z) : bool :=
  bool_decide (time.appendInt x 2 = two_digits x).

Definition four_digits_ok (x : Z) : bool :=
  bool_decide (time.appendInt x 4 = four_digits x).

(** *** Expanding twice *)

(** A segment after expansion: the text that took the place of a date or
    time token is plain text, and everything else is as it was. *)
Definition settled (t : time.Time) (g : Segment) : Segment :=
  match g with
  | Token unit _ _ _ =>
      if decide (expandable unit) then Plain (expansion t g) else g
  | Plain _ => g
  end.

(** *** What the walk leaves alone *)

(** A [Value] no field below which can be set: it was reached through an
    unexported field that is not embedded, or it is not addressable. *)
Definition read_only (fl : reflect.flag) : Prop :=
  reflect.flagStickyRO fl = true ∨ reflect.flagAddr fl = false.

(** A record with the data of its bound fields, at any depth, taken out. *)
Fixpoint unbound_part (v : Data) : Data :=
  match v with
  | DStruct fs =>
      DStruct
        ((fix go (fs : list (reflect.StructField * Data)) :=
            match fs with
            | [] => []
            | (ft, fv) :: fs' =>
                (ft, if decide (reflect.Get (reflect.Tag ft) "env" = "")
                     then unbound_part fv else DStruct []) :: go fs'
            end) fs)
  | _ => v
  end.

(** What [unbound_part] does to field [ft] holding [fv]. *)
Definition unbound_field (ft : reflect.StructField) (fv : Data) : Data :=
  if decide (reflect.Get (reflect.Tag ft) "env" = "")
  then unbound_part fv else DStruct [].

(** *** What the walk logs *)

(** The bound fields, at any depth, whose kind has no setter. *)
Fixpoint unsupported (σ : State) (v : Data) : list reflect.StructField :=
  match v with
  | DStruct fs =>
      (fix go (fs : list (reflect.StructField * Data)) :=
         match fs with
         | [] => []
         | (ft, fv) :: fs' =>
             (if decide (reflect.Get (reflect.Tag ft) "env" = "")
              then unsupported σ fv
              else match setters σ (Kind fv) with
                   | Some _ => []
                   | None => [ft]
                   end) ++ go fs'
         end) fs
  | _ => []
  end.

(** The field's share of [unsupported]. *)
Definition unsupported_field (σ : State) (ft : reflect.StructField)
    (fv : Data) : list reflect.StructField :=
  if decide (reflect.Get (reflect.Tag ft) "env" = "")
  then unsupported σ fv
  else match setters σ (Kind fv) with Some _ => [] | None => [ft] end.

(** The entries of a walk: debugging output, and the warning of
    [setValue] for a field of [missing]. *)
Definition walk_entry (σ : State) (missing : list reflect.StructField)
    (e : log.Entry) : Prop :=
  log.level e = log.DEBUG
  ∨ ∃ ft k,
      ft ∈ missing ∧ setters σ k = None
      ∧ e = log.mkEntry log.WARN "did not find setter for field %s kind = %d"
              [log.AStr (reflect.Name ft); log.AInt (reflect.Kind_value k)].

(** *** Level names *)

(** Text of ASCII bytes, on which [bytes.ToUpper] is [log.ToUpper]. *)
Definition ascii_text (s : string) : Prop :=
  all_chars (fun c => (N_of_ascii c <? 128)%N) s = true.

(** *** Walking again on another clock *)

(** Whether a resolved value holds a token the pattern matches. *)
Definition has_token (value : string) : bool :=
  match regexp.FindAllStringSubmatch value with [] => false | _ => true end.

(** A field as it is compared after two walks on different clocks: a string
    field bound to a key whose resolved value holds a token is blanked. *)
Definition clock_bound (σ : State) (ft : reflect.StructField) : bool :=
  negb (bool_decide (reflect.Get (reflect.Tag ft) "env" = ""))
  && has_token (resolvedValue σ ft).

Fixpoint mask (σ : State) (v : Data) : Data :=
  match v with
  | DStruct fs =>
      DStruct
        ((fix go (fs : list (reflect.StructField * Data)) :=
            match fs with
            | [] => []
            | (ft, fv) :: fs' =>
                (ft, match fv with
                     | DString s =>
                         if clock_bound σ ft then DString "" else DString s
                     | _ => mask σ fv
                     end) :: go fs'
            end) fs)
  | _ => v
  end.

(** What [mask] does to field [ft] holding [fv]. *)
Definition mask_field (σ : State) (ft : reflect.StructField) (fv : Data)
    : Data :=
  match fv with
  | DString s => if clock_bound σ ft then DString "" else DString s
  | _ => mask σ fv
  end.

(** A second walk, on any clock, returns the record of the first but for
    the string fields whose resolved value holds a token. *)
Definition walks_again_masked (σ σ2 : State) (v : Data) : Prop :=
  ∀ fl t maxDepth v' w,
    walkStruct σ fl t v maxDepth = Ok v' w →
    ∃ v'' w', walkStruct σ2 fl t v' maxDepth = Ok v'' w'
              ∧ mask σ v'' = mask σ v'.

(** * Proofs *)

(** *** Lemmas on outcomes *)

Lemma bind_Ok {A B} (m : result A) (f : A → result B) a w b w' :
  m = Ok a w → f a = Ok b w' → bind m f = Ok b (w ++ w').
Proof. intros -> Hf. unfold bind. by rewrite Hf. Qed.

Lemma bind_Ok_inv {A B} (m : result A) (f : A → result B) b w :
  bind m f = Ok b w →
  ∃ a w1 w2, m = Ok a w1 ∧ f a = Ok b w2 ∧ w = w1 ++ w2.
Proof.
  unfold bind. destruct m as [a w1|]; [|done].
  destruct (f a) as [b' w2|] eqn:E; [|done].
  intros [= <- <-]. eauto 6.
Qed.

Lemma returned_Some {A} (m : result A) a :
  returned m = Some a ↔ ∃ w, m = Ok a w.
Proof.
  destruct m as [a' w|msg]; simpl; split.
  - intros [= ->]. by exists w.
  - by intros [w' [= -> _]].
  - done.
  - by intros [w' ?].
Qed.

Lemma returned_bind {A B} (m : result A) (f : A → result B) :
  returned (bind m f) = returned m ≫= (fun a => returned (f a)).
Proof.
  destruct m as [a w|]; simpl; [|done]. by destruct (f a).
Qed.

(** *** The walker, field by field *)

Lemma walkStruct_unfold σ fl t v maxDepth :
  walkStruct σ fl t v maxDepth =
  (Debugf "walk: %s %d" [log.AStr (reflect.Type_Name t); log.AInt maxDepth] ;;;
   match v with
   | DStruct fields =>
       fields' <- walkFields σ fl maxDepth O fields ;; ret (DStruct fields')
   | _ => panic "reflect: call of reflect.Value.NumField on non-struct Value"
   end).
Proof. destruct v; reflexivity. Qed.

Lemma walkFields_cons σ fl maxDepth i ft fv fs :
  walkFields σ fl maxDepth i ((ft, fv) :: fs) =
  (fv' <- walkField (walkStruct σ) σ maxDepth i
            (reflect.Field_flag fl ft) ft fv ;;
   fs' <- walkFields σ fl maxDepth (S i) fs ;;
   ret ((ft, fv') :: fs')).
Proof. reflexivity. Qed.

(** *** Setters never panic and keep the kind *)

Lemma CanSet_true fl :
  reflect.CanSet fl = true →
  reflect.flagRO fl = false ∧ reflect.flagAddr fl = true.
Proof.
  unfold reflect.CanSet. destruct (reflect.flagAddr fl), (reflect.flagRO fl);
    naive_solver.
Qed.

Lemma mustBeAssignable_CanSet fl :
  reflect.CanSet fl = true → mustBeAssignable fl = Ok tt [].
Proof.
  intros [Hro Haddr]%CanSet_true. unfold mustBeAssignable.
  by rewrite Hro, Haddr.
Qed.

Lemma setValue_not_settable σ fl field ft value :
  reflect.CanSet fl = false → setValue σ fl field ft value = Ok field [].
Proof. intros H. unfold setValue. by rewrite H. Qed.

Lemma setValue_String σ fl s ft value :
  reflect.CanSet fl = true →
  setValue σ fl (DString s) ft value =
  Ok (DString (parseDateTimeString (now σ) value)) [].
Proof.
  intros H. unfold setValue. rewrite H. simpl.
  unfold setter_String, SetString. by rewrite (mustBeAssignable_CanSet _ H).
Qed.

Lemma setValue_returns σ fl field ft value :
  ∃ d w, setValue σ fl field ft value = Ok d w ∧ Kind d = Kind field.
Proof.
  destruct (reflect.CanSet fl) eqn:Hset;
    [|rewrite setValue_not_settable by done; eauto].
  pose proof (mustBeAssignable_CanSet _ Hset) as Hm.
  unfold setValue. rewrite Hset. simpl.
  destruct field as [b|k i|k u|k x|s|fs|k]; simpl.
  - unfold setter_Bool, SetBool.
    destruct (strconv.ParseBool value) as [val [e|]]; rewrite ?Hm; simpl; eauto.
  - destruct k; simpl; unfold setter_Int, SetInt;
      destruct (strconv.ParseInt value) as [val [e|]]; rewrite ?Hm; simpl; eauto.
  - destruct k; simpl; unfold setter_Uint, SetUint;
      destruct (strconv.ParseUint value) as [val [e|]]; rewrite ?Hm; simpl; eauto.
  - destruct k; simpl; unfold setter_Float32, SetFloat;
      destruct (ParseFloat value) as [val [e|]]; rewrite ?Hm; simpl; eauto.
  - unfold setter_String, SetString. rewrite Hm. simpl. eauto.
  - eauto.
  - destruct k; simpl; eauto.
Qed.

(** *** The walk returns, field by field *)

Lemma isStruct_DStruct fv ft :
  isStruct fv ft = true → ∃ fs, fv = DStruct fs.
Proof.
  unfold isStruct. intros [_ H%bool_decide_eq_true]%andb_prop.
  destruct fv as [| k | k | k | | |k]; try destruct k; try done. eauto.
Qed.

Lemma walkField_returns σ maxDepth i fl ft fv :
  walk_returns σ fv →
  ∃ fv' w, walkField (walkStruct σ) σ maxDepth i fl ft fv = Ok fv' w
           ∧ Kind fv' = Kind fv.
Proof.
  intros IH. unfold walkField.
  destruct (decide (reflect.Get (reflect.Tag ft) "env" = "")) as [Htag|Htag].
  - destruct ((0 <? maxDepth) && isStruct fv ft) eqn:Hrec.
    + apply andb_prop in Hrec as [_ Hs].
      destruct (isStruct_DStruct _ _ Hs) as [fs ->].
      destruct (IH fl (reflect.Typ ft) (maxDepth - 1) eq_refl) as (fs' & w & ->).
      simpl. eauto.
    + simpl. eauto.
  - destruct (decide (getValueDefault σ _ _ = "")); [simpl; eauto|].
    destruct (setValue_returns σ fl fv ft
                (getValueDefault σ (reflect.Get (reflect.Tag ft) "env")
                   (reflect.Get (reflect.Tag ft) "default")))
      as (d & w & -> & Hk).
    simpl. eauto.
Qed.

Lemma walkFields_returns σ fl maxDepth fs :
  Forall (fun f => walk_returns σ f.2) fs →
  ∀ i, ∃ fs' w,
    walkFields σ fl maxDepth i fs = Ok fs' w
    ∧ length fs' = length fs
    ∧ ∀ j ft fv, fs !! j = Some (ft, fv) →
        ∃ fv' w', walkField (walkStruct σ) σ maxDepth (i + j)%nat
                    (reflect.Field_flag fl ft) ft fv = Ok fv' w'
                  ∧ fs' !! j = Some (ft, fv').
Proof.
  induction 1 as [|[ft fv] fs Hf _ IH]; intros i.
  - exists [], []. split; [done|]. split; [done|]. intros j ?? Hj. done.
  - rewrite walkFields_cons.
    destruct (walkField_returns σ maxDepth i (reflect.Field_flag fl ft) ft fv Hf)
      as (fv' & w1 & Hfv & _).
    destruct (IH (S i)) as (fs' & w2 & Hfs & Hlen & Hlook).
    rewrite Hfv. simpl. rewrite Hfs. simpl.
    eexists _, _. split; [done|]. split; [simpl; by rewrite Hlen|].
    intros [|j] ft0 fv0 Hj; simpl in *.
    + injection Hj as <- <-. rewrite Nat.add_0_r. eauto.
    + destruct (Hlook j ft0 fv0 Hj) as (fv0' & w' & H1 & H2).
      replace (i + S j)%nat with (S i + j)%nat by lia. eauto.
Qed.

Lemma walkStruct_returns σ v : walk_returns σ v.
Proof.
  induction v as [| | | | |fs IH|] using Data_ind; intros fl t maxDepth Hk;
    try done; try (by destruct k).
  rewrite walkStruct_unfold.
  destruct (walkFields_returns σ fl maxDepth fs IH O) as (fs' & w & -> & _).
  simpl. eauto.
Qed.

(** The walk of a struct returns a struct with the same descriptors, whose
    field [j] is what the loop body returns for it. *)
Lemma walkStruct_fields σ fl t fs maxDepth :
  ∃ fs' w,
    walkStruct σ fl t (DStruct fs) maxDepth = Ok (DStruct fs') w
    ∧ length fs' = length fs
    ∧ ∀ j ft fv, fs !! j = Some (ft, fv) →
        ∃ fv' w', walkField (walkStruct σ) σ maxDepth j
                    (reflect.Field_flag fl ft) ft fv = Ok fv' w'
                  ∧ fs' !! j = Some (ft, fv').
Proof.
  rewrite walkStruct_unfold.
  destruct (walkFields_returns σ fl maxDepth fs) with (i := O)
    as (fs' & w & -> & Hlen & Hlook).
  { apply Forall_forall. intros f _. apply walkStruct_returns. }
  simpl. eauto 10.
Qed.

(** *** What the walk returns, by rewriting *)

Lemma returned_walkStruct σ fl t fs maxDepth :
  returned (walkStruct σ fl t (DStruct fs) maxDepth)
  = DStruct <$> returned (walkFields σ fl maxDepth O fs).
Proof.
  rewrite walkStruct_unfold, returned_bind. simpl.
  rewrite returned_bind. by destruct (returned _).
Qed.

Lemma returned_walkFields_nil σ fl maxDepth i :
  returned (walkFields σ fl maxDepth i []) = Some [].
Proof. reflexivity. Qed.

Lemma returned_walkFields_cons σ fl maxDepth i ft fv fs :
  returned (walkFields σ fl maxDepth i ((ft, fv) :: fs))
  = (fv' ← returned (walkField (walkStruct σ) σ maxDepth i
                       (reflect.Field_flag fl ft) ft fv);
     fs' ← returned (walkFields σ fl maxDepth (S i) fs);
     Some ((ft, fv') :: fs')).
Proof.
  rewrite walkFields_cons, returned_bind.
  destruct (returned (walkField _ _ _ _ _ _ _)); simpl; [|done].
  rewrite returned_bind. by destruct (returned (walkFields _ _ _ _ _)).
Qed.

Lemma returned_walkField_unbound σ walk maxDepth i fl ft fv :
  reflect.Get (reflect.Tag ft) "env" = "" →
  returned (walkField walk σ maxDepth i fl ft fv)
  = if (0 <? maxDepth) && isStruct fv ft
    then returned (walk fl (reflect.Typ ft) fv (maxDepth - 1))
    else Some fv.
Proof.
  intros Htag. unfold walkField. rewrite returned_bind. simpl.
  destruct (decide _); [|done]. by destruct (_ && _).
Qed.

Lemma returned_walkField_bound σ walk maxDepth i fl ft fv :
  reflect.Get (reflect.Tag ft) "env" ≠ "" →
  returned (walkField walk σ maxDepth i fl ft fv)
  = let envValue := getValueDefault σ (reflect.Get (reflect.Tag ft) "env")
                      (reflect.Get (reflect.Tag ft) "default") in
    if decide (envValue = "") then Some fv
    else returned (setValue σ fl fv ft envValue).
Proof.
  intros Htag. unfold walkField. rewrite returned_bind. simpl.
  destruct (decide (reflect.Get _ _ = "")); [done|].
  destruct (decide (getValueDefault _ _ _ = "")); [done|].
  simpl. by destruct (setValue _ _ _ _ _).
Qed.

Lemma returned_walkField_bound_String σ walk maxDepth i fl ft s :
  reflect.Get (reflect.Tag ft) "env" ≠ "" →
  reflect.CanSet fl = true →
  returned (walkField walk σ maxDepth i fl ft (DString s)) =
  Some (DString (resolved σ (reflect.Get (reflect.Tag ft) "env")
                   (reflect.Get (reflect.Tag ft) "default") s)).
Proof.
  intros Htag Hset. rewrite returned_walkField_bound by done.
  unfold resolved. simpl.
  destruct (decide (getValueDefault σ _ _ = "")); [done|].
  by rewrite setValue_String.
Qed.

Lemma walk_Configuration σ c :
  returned (walkStruct σ reflect.Elem_flag Configuration_type
              (Data_of_Configuration c) 4)
  = Some (Data_of_Configuration (resolve_Configuration σ c)).
Proof.
  destruct c as [l [[v cm br bn]]].
  unfold Data_of_Configuration, Data_of_Build, Data_of_buildData,
    resolve_Configuration.
  cbn [Configuration_Build Build_buildData LogLevel Version Commit Branch
       BuildNumber].
  rewrite returned_walkStruct, !returned_walkFields_cons,
    returned_walkFields_nil.
  rewrite returned_walkField_bound_String by done.
  rewrite returned_walkField_unbound by done.
  change ((0 <? 4) && isStruct _ field_Build) with true. cbv iota.
  rewrite returned_walkStruct, !returned_walkFields_cons,
    returned_walkFields_nil.
  rewrite returned_walkField_unbound by done.
  change ((0 <? 4 - 1) && isStruct _ field_buildData) with true. cbv iota.
  rewrite returned_walkStruct, !returned_walkFields_cons,
    returned_walkFields_nil.
  rewrite !returned_walkField_bound_String by done.
  reflexivity.
Qed.

Lemma getValueDefault_loop_skip σ before rest key d :
  (∀ p, p ∈ before → ∀ u, ¬ yields σ p key u) →
  getValueDefault_loop σ (before ++ rest) key d
  = getValueDefault_loop σ rest key d.
Proof.
  induction before as [|p before IH]; intros Hno; [done|].
  simpl. destruct (Get σ p key) as [v [e|]] eqn:Hget.
  - apply IH. intros q Hq. apply Hno. by right.
  - destruct (decide (v = "")) as [->|Hv].
    + apply IH. intros q Hq. apply Hno. by right.
    + exfalso. apply (Hno p (list_elem_of_here _ _) v). by split.
Qed.

Lemma getValueDefault_loop_hit σ prov rest key d v :
  yields σ prov key v → getValueDefault_loop σ (prov :: rest) key d = v.
Proof.
  intros [Hget Hv]. simpl. rewrite Hget. by destruct (decide (v = "")).
Qed.

(** C4. [getValueDefault] asks the providers in the order of the chain and
    returns the value of the first one that yields a found, non-empty
    result; when none does, it returns the fallback default. *)
Theorem getValueDefault_first_found σ key fallbackDefault :
  (∀ before prov after v,
     dataProviders σ = before ++ prov :: after →
     (∀ p, p ∈ before → ∀ u, ¬ yields σ p key u) →
     yields σ prov key v →
     getValueDefault σ key fallbackDefault = v)
  ∧ ((∀ p, p ∈ dataProviders σ → ∀ u, ¬ yields σ p key u) →
     getValueDefault σ key fallbackDefault = fallbackDefault).
Proof.
  unfold getValueDefault. split.
  - intros before prov after v -> Hno Hy.
    rewrite getValueDefault_loop_skip by done.
    by apply getValueDefault_loop_hit.
  - intros Hno.
    rewrite <- (app_nil_r (dataProviders σ)).
    by rewrite getValueDefault_loop_skip.
Qed.

(** C7. A field with no bound external key whose type is not a nested
    record is left as it was by the walk of the record it belongs to. *)
Theorem unbound_field_untouched σ fl t fields maxDepth i ft fv :
  fields !! i = Some (ft, fv) →
  reflect.Get (reflect.Tag ft) "env" = "" →
  isStruct fv ft = false →
  ∃ fields' w,
    walkStruct σ fl t (DStruct fields) maxDepth = Ok (DStruct fields') w
    ∧ fields' !! i = Some (ft, fv).
Proof.
  intros Hi Htag Hs.
  destruct (walkStruct_fields σ fl t fields maxDepth)
    as (fs' & w & Hwalk & _ & Hlook).
  destruct (Hlook i ft fv Hi) as (fv' & w' & Hf & Hi').
  exists fs', w. split; [done|].
  apply (f_equal returned) in Hf.
  rewrite returned_walkField_unbound, Hs, andb_false_r in Hf by done.
  simpl in Hf. by injection Hf as ->.
Qed.



Lemma Configuration_of_Data_of c :
  Configuration_of_Data (Data_of_Configuration c) = Some c.
Proof. by destruct c as [l [[v cm br bn]]]. Qed.

Lemma Init_returned options σ :
  returned (Init options σ) =
  Some (let σp := Init_state options σ in
        let c := resolve_Configuration σp (configurationData σp) in
        (set_logLevel (log.UnmarshalText log.INFO (LogLevel c)).1
           (set_configurationData c σp), None)).
Proof.
  unfold Init. fold (Init_state options σ).
  rewrite returned_bind. unfold ApplyExternalConfig.
  rewrite returned_bind, walk_Configuration.
  cbn [mbind option_bind returned ret fst snd].
  by rewrite Configuration_of_Data_of.
Qed.

(** The fold of [MapProvider.Set] over the defaults touches nothing but
    the store of [DefaultMapProvider], where the defaults win. *)
Lemma fold_Set_spec (defaults : gmap string string) σ σ' :
  σ' = map_fold (fun key value σ =>
                   MapProvider_Set DefaultMapProvider key value σ)
                σ defaults →
  environ σ' = environ σ ∧ now σ' = now σ ∧ configFile σ' = configFile σ
  ∧ logLevel σ' = logLevel σ ∧ dataProviders σ' = dataProviders σ
  ∧ defaultConfiguration σ' = defaultConfiguration σ
  ∧ configurationData σ' = configurationData σ
  ∧ (∀ m, m ≠ DefaultMapProvider → stores σ' !! m = stores σ !! m)
  ∧ (∀ key, store_of σ' DefaultMapProvider !! key
            = match defaults !! key with
              | Some v => Some v
              | None => store_of σ DefaultMapProvider !! key
              end).
Proof.
  intros ->.
  apply (map_fold_weak_ind (fun σ' defaults =>
    environ σ' = environ σ ∧ now σ' = now σ ∧ configFile σ' = configFile σ
    ∧ logLevel σ' = logLevel σ ∧ dataProviders σ' = dataProviders σ
    ∧ defaultConfiguration σ' = defaultConfiguration σ
    ∧ configurationData σ' = configurationData σ
    ∧ (∀ m, m ≠ DefaultMapProvider → stores σ' !! m = stores σ !! m)
    ∧ (∀ key, store_of σ' DefaultMapProvider !! key
              = match defaults !! key with
                | Some v => Some v
                | None => store_of σ DefaultMapProvider !! key
                end))).
  - repeat split; try done.
  - intros k v m r Hk (H1 & H2 & H3 & H4 & H5 & H6 & H7 & H8 & H9).
    repeat split; try done.
    + intros l Hl. simpl. rewrite lookup_insert_ne by done. by apply H8.
    + intros key. unfold store_of at 1. simpl. rewrite lookup_insert_eq. simpl.
      destruct (decide (k = key)) as [->|Hne].
      * by rewrite !lookup_insert_eq.
      * rewrite !lookup_insert_ne by done. apply H9.
Qed.

Lemma getValueDefault_init σ key d :
  dataProviders σ = dataProviders_init →
  getValueDefault σ key d =
  if decide (Getenv σ key = "")
  then if decide ((MapProvider_Get σ DefaultMapProvider key).1 = "")
       then d else (MapProvider_Get σ DefaultMapProvider key).1
  else Getenv σ key.
Proof.
  intros H. unfold getValueDefault. rewrite H. simpl.
  destruct (decide (Getenv σ key = "")); [|done].
  by destruct (decide (default "" (store_of σ DefaultMapProvider !! key) = "")).
Qed.

Lemma Init_state_frame options σ :
  let σp := Init_state options σ in
  environ σp = environ σ ∧ now σp = now σ
  ∧ dataProviders σp = dataProviders σ
  ∧ configurationData σp = defaultConfiguration (InitFromConfigFiles σ).
Proof.
  intros σp.
  destruct (fold_Set_spec _ _ σp eq_refl) as (H1 & H2 & _ & _ & H5 & _ & H7 & _).
  by rewrite H1, H2, H5, H7.
Qed.

(** C1. With the chain the package starts with, the environment is asked
    before the process-local map and the field's default literal comes
    last: a key that both the environment and the map hold resolves to
    the environment's value, which is what [setValue] applies to the
    field bound to it. Scenario D: with BUILD_NUMBER=8.0.0 in the
    environment and the programmatic override 7.0.0, [Init] resolves the
    build number to 8.0.0. *)
Theorem environment_wins :
  (∀ σ key defaultTag,
     dataProviders σ = dataProviders_init →
     let e := Getenv σ key in
     let m := (MapProvider_Get σ DefaultMapProvider key).1 in
     (e ≠ "" → getValueDefault σ key defaultTag = e)
     ∧ (e = "" → m ≠ "" → getValueDefault σ key defaultTag = m)
     ∧ (e = "" → m = "" → getValueDefault σ key defaultTag = defaultTag))
  ∧ (∀ σ fl t fields maxDepth i ft fv,
       dataProviders σ = dataProviders_init →
       let key := reflect.Get (reflect.Tag ft) "env" in
       fields !! i = Some (ft, fv) →
       key ≠ "" →
       Getenv σ key ≠ "" →
       (MapProvider_Get σ DefaultMapProvider key).1 ≠ "" →
       ∃ fields' w fv' w',
         walkStruct σ fl t (DStruct fields) maxDepth = Ok (DStruct fields') w
         ∧ setValue σ (reflect.Field_flag fl ft) fv ft (Getenv σ key)
           = Ok fv' w'
         ∧ fields' !! i = Some (ft, fv')
         ∧ (∀ s, fv = DString s →
                 reflect.CanSet (reflect.Field_flag fl ft) = true →
                 fv' = DString (parseDateTimeString (now σ) (Getenv σ key))))
  ∧ (∀ σ,
       dataProviders σ = dataProviders_init →
       environ σ !! BUILD_NUMBER = Some "8.0.0" →
       ∃ σ' w,
         Init [Defaults [Set_ BUILD_NUMBER "7.0.0"]] σ = Ok (σ', None) w
         ∧ MapProvider_Get σ' DefaultMapProvider BUILD_NUMBER
           = ("7.0.0", None)
         ∧ BuildNumber (Build_buildData
                          (Configuration_Build (configurationData σ')))
           = "8.0.0").
Proof.
  split; [|split].
  - intros σ key d Hinit e m. rewrite getValueDefault_init by done.
    fold e m. repeat split; intros; repeat destruct (decide _); done.
  - intros σ fl t fields maxDepth i ft fv Hinit key Hi Hkey He Hm.
    destruct (walkStruct_fields σ fl t fields maxDepth)
      as (fs' & w & Hwalk & _ & Hlook).
    destruct (Hlook i ft fv Hi) as (fv' & w' & Hf & Hi').
    destruct (setValue_returns σ (reflect.Field_flag fl ft) fv ft
                (Getenv σ key)) as (d & w'' & Hset & _).
    exists fs', w, d, w''. split; [done|]. split; [done|].
    apply (f_equal returned) in Hf.
    rewrite returned_walkField_bound in Hf by done. fold key in Hf.
    simpl in Hf. rewrite getValueDefault_init in Hf by done.
    destruct (decide (Getenv σ key = "")); [done|].
    destruct (decide (Getenv σ key = "")); [done|].
    rewrite Hset in Hf. simpl in Hf. injection Hf as ->.
    split; [done|].
    intros s -> Hcan. rewrite setValue_String in Hset by done.
    by injection Hset as <- _.
  - intros σ Hinit Henv.
    pose proof (Init_returned [Defaults [Set_ BUILD_NUMBER "7.0.0"]] σ) as HI.
    apply returned_Some in HI as [w HI]. simpl in HI.
    eexists _, w. split; [exact HI|].
    destruct (Init_state_frame [Defaults [Set_ BUILD_NUMBER "7.0.0"]] σ)
      as (He & Hn & Hp & Hc).
    destruct (fold_Set_spec _ _
                (Init_state [Defaults [Set_ BUILD_NUMBER "7.0.0"]] σ) eq_refl)
      as (_ & _ & _ & _ & _ & _ & _ & _ & HS).
    specialize (HS BUILD_NUMBER).
    change (DefaultValues _) with (<[BUILD_NUMBER := "7.0.0"]> (∅ : gmap string string)) in HS.
    rewrite lookup_insert_eq in HS.
    split.
    + unfold MapProvider_Get.
      change (store_of (set_logLevel _ (set_configurationData _ ?s)) ?m)
        with (store_of s m).
      by rewrite HS.
    + simpl. unfold resolved.
      rewrite getValueDefault_init by (by rewrite Hp).
      unfold Getenv. rewrite He, Henv. simpl. reflexivity.
Qed.

Lemma getValueDefault_loop_nonempty σ provs key d :
  d ≠ "" → getValueDefault_loop σ provs key d ≠ "".
Proof.
  intros Hd. induction provs as [|p provs IH]; [done|].
  simpl. destruct (Get σ p key) as [v [e|]]; [done|].
  by destruct (decide (v = "")).
Qed.

(** C10 (as amended). The four fields of [Build] are settable: selecting
    a field of the embedded [buildData] clears the read-only bit that the
    unexported embedded field set, and the four fields are exported. So
    [Init] gives each of them its resolved value: [Version] always takes
    the expansion of the first non-empty of the environment's VERSION,
    the override and the default literal 1.3, and [Commit], [Branch] and
    [BuildNumber] take the expansion of the environment's or the
    override's value when one is non-empty and keep their value from
    before the walk only when neither is. *)
Theorem Build_fields_resolved options σ :
  let σp := Init_state options σ in
  let pre := Build_buildData (Configuration_Build (configurationData σp)) in
  let fl := reflect.Field_flag
              (reflect.Field_flag reflect.Elem_flag field_Build)
              field_buildData in
  reflect.flagEmbedRO fl = true
  ∧ reflect.CanSet (reflect.Field_flag fl field_Version) = true
  ∧ reflect.CanSet (reflect.Field_flag fl field_Commit) = true
  ∧ reflect.CanSet (reflect.Field_flag fl field_Branch) = true
  ∧ reflect.CanSet (reflect.Field_flag fl field_BuildNumber) = true
  ∧ getValueDefault σp VERSION "1.3" ≠ ""
  ∧ ∃ σ' w,
      Init options σ = Ok (σ', None) w
      ∧ let b := Build_buildData (Configuration_Build (configurationData σ')) in
        Version b
        = parseDateTimeString (now σp) (getValueDefault σp VERSION "1.3")
        ∧ Commit b = resolved σp COMMIT "" (Commit pre)
        ∧ Branch b = resolved σp BRANCH "" (Branch pre)
        ∧ BuildNumber b = resolved σp BUILD_NUMBER "" (BuildNumber pre).
Proof.
  intros σp pre fl.
  assert (Hv : getValueDefault σp VERSION "1.3" ≠ "")
    by by apply getValueDefault_loop_nonempty.
  do 5 (split; [reflexivity|]). split; [done|].
  pose proof (Init_returned options σ) as HI.
  apply returned_Some in HI as [w HI]. fold σp in HI.
  eexists _, w. split; [exact HI|].
  cbn. unfold resolved at 1.
  by destruct (decide (getValueDefault σp VERSION "1.3" = "")).
Qed.

Lemma setValue_cases σ fl field ft value :
  ∃ d w,
    setValue σ fl field ft value = Ok d w
    ∧ Kind d = Kind field
    ∧ (reflect.CanSet fl = false → d = field ∧ w = [])
    ∧ (setters σ (Kind field) = None → d = field)
    ∧ (reflect.CanSet fl = true → setters σ (Kind field) = None →
       w = [log.mkEntry log.WARN "did not find setter for field %s kind = %d"
              [log.AStr (reflect.Name ft);
               log.AInt (reflect.Kind_value (Kind field))]])
    ∧ (parses (Kind field) value = false → d = field).
Proof.
  destruct (reflect.CanSet fl) eqn:Hset.
  2:{ rewrite setValue_not_settable by done. eexists _, _.
      repeat split; done. }
  pose proof (mustBeAssignable_CanSet _ Hset) as Hm.
  unfold setValue. rewrite Hset. simpl.
  destruct field as [b|k i|k u|k x|s|fs|k]; simpl.
  - unfold setter_Bool, SetBool.
    destruct (strconv.ParseBool value) as [val [e|]]; rewrite ?Hm; simpl;
      eexists _, _; repeat split; done.
  - destruct k; simpl; unfold setter_Int, SetInt;
      destruct (strconv.ParseInt value) as [val [e|]]; rewrite ?Hm; simpl;
      eexists _, _; repeat split; done.
  - destruct k; simpl; unfold setter_Uint, SetUint;
      destruct (strconv.ParseUint value) as [val [e|]]; rewrite ?Hm; simpl;
      eexists _, _; repeat split; done.
  - destruct k; simpl; unfold setter_Float32, SetFloat;
      destruct (ParseFloat value) as [val [e|]]; rewrite ?Hm; simpl;
      eexists _, _; repeat split; done.
  - unfold setter_String, SetString. rewrite Hm. simpl.
    eexists _, _; repeat split; done.
  - eexists _, _; repeat split; done.
  - destruct k; simpl; eexists _, _; repeat split; done.
Qed.

(** C2. The walk of a record never fails: [ApplyExternalConfig] on a
    pointer to any struct returns, with a nil error and a struct of the
    same fields, and [setValue] returns for every field and every text.
    A field that is not settable, one whose kind has no setter (a warning
    is logged for it when it is settable) and one whose text its parser
    rejects are left at the value they had. *)
Theorem walk_never_fails :
  (∀ σ t fields maxDepth,
     ∃ fields' w,
       ApplyExternalConfig σ (PointerTo t (Some (DStruct fields))) maxDepth
       = Ok (DStruct fields', None) w
       ∧ length fields' = length fields
       ∧ ∀ j ft fv, fields !! j = Some (ft, fv) →
           ∃ fv', fields' !! j = Some (ft, fv') ∧ Kind fv' = Kind fv)
  ∧ (∀ σ fl field ft value,
       ∃ d w,
         setValue σ fl field ft value = Ok d w
         ∧ Kind d = Kind field
         ∧ (reflect.CanSet fl = false → d = field ∧ w = [])
         ∧ (setters σ (Kind field) = None → d = field)
         ∧ (reflect.CanSet fl = true → setters σ (Kind field) = None →
            w = [log.mkEntry log.WARN
                   "did not find setter for field %s kind = %d"
                   [log.AStr (reflect.Name ft);
                    log.AInt (reflect.Kind_value (Kind field))]])
         ∧ (parses (Kind field) value = false → d = field)).
Proof.
  split; [|apply setValue_cases].
  intros σ t fields maxDepth. unfold ApplyExternalConfig.
  destruct (walkStruct_fields σ reflect.Elem_flag t fields maxDepth)
    as (fs' & w & Hwalk & Hlen & Hlook).
  rewrite Hwalk. simpl. eexists _, _. split; [done|]. split; [done|].
  intros j ft fv Hj. destruct (Hlook j ft fv Hj) as (fv' & w' & Hf & Hj').
  exists fv'. split; [done|].
  destruct (walkField_returns σ maxDepth j
              (reflect.Field_flag reflect.Elem_flag ft) ft fv
              (walkStruct_returns σ fv)) as (fv'' & w'' & Hf' & Hk).
  rewrite Hf in Hf'. by injection Hf' as <- _.
Qed.




Lemma getValueDefault_same σ σ2 key d :
  same_sources σ σ2 → getValueDefault σ2 key d = getValueDefault σ key d.
Proof.
  intros (He & Hs & Hp). unfold getValueDefault. rewrite Hp. clear Hp.
  induction (dataProviders σ) as [|p ps IH]; [done|].
  assert (Hg : Get σ2 p key = Get σ p key).
  { destruct p as [|m|get]; simpl; [| |done].
    - unfold EnvironmentProvider_Get, Getenv. by rewrite He.
    - unfold MapProvider_Get, store_of. by rewrite Hs. }
  simpl. by rewrite IH, Hg.
Qed.

Lemma setValue_again σ σ2 fl fv ft value d w :
  setValue σ fl fv ft value = Ok d w →
  (∀ s, fv = DString s →
        parseDateTimeString (now σ2) value
        = parseDateTimeString (now σ) value) →
  ∃ w', setValue σ2 fl d ft value = Ok d w'.
Proof.
  destruct (reflect.CanSet fl) eqn:Hset.
  2:{ rewrite !setValue_not_settable by done. intros [= <- <-] _. eauto. }
  pose proof (mustBeAssignable_CanSet _ Hset) as Hm.
  unfold setValue. rewrite Hset. simpl.
  destruct fv as [b|k i|k u|k x|s|fs|k]; simpl.
  - unfold setter_Bool, SetBool.
    destruct (strconv.ParseBool value) as [val [e|]] eqn:Hp; rewrite ?Hm;
      simpl; intros [= <- <-] _; simpl; unfold setter_Bool, SetBool;
      rewrite Hp, ?Hm; simpl; eauto.
  - destruct k; simpl; unfold setter_Int, SetInt;
      destruct (strconv.ParseInt value) as [val [e|]] eqn:Hp; rewrite ?Hm;
      simpl; intros [= <- <-] _; simpl; unfold setter_Int, SetInt;
      rewrite Hp, ?Hm; simpl; eauto.
  - destruct k; simpl; unfold setter_Uint, SetUint;
      destruct (strconv.ParseUint value) as [val [e|]] eqn:Hp; rewrite ?Hm;
      simpl; intros [= <- <-] _; simpl; unfold setter_Uint, SetUint;
      rewrite ?Hp, ?Hm; simpl; eauto.
  - destruct k; simpl; unfold setter_Float32, SetFloat;
      destruct (ParseFloat value) as [val [e|]] eqn:Hp; rewrite ?Hm;
      simpl; intros [= <- <-] _; simpl; unfold setter_Float32, SetFloat;
      rewrite Hp, ?Hm; simpl; eauto.
  - unfold setter_String, SetString. rewrite Hm. simpl.
    intros [= <- <-] Hc. simpl. unfold setter_String, SetString.
    rewrite Hm. simpl. rewrite (Hc s eq_refl). eauto.
  - intros [= <- <-] _. simpl. eauto.
  - destruct k; simpl; intros [= <- <-] _; simpl; eauto.
Qed.

Lemma boundFields_cons ft fv fs :
  boundFields (DStruct ((ft, fv) :: fs))
  = (if decide (reflect.Get (reflect.Tag ft) "env" = "") then [] else [ft])
      ++ boundFields fv ++ boundFields (DStruct fs).
Proof. reflexivity. Qed.

Lemma clocks_agree_cons σ σ2 ft fv fs :
  clocks_agree σ σ2 (DStruct ((ft, fv) :: fs)) →
  (reflect.Get (reflect.Tag ft) "env" ≠ "" →
   parseDateTimeString (now σ2) (resolvedValue σ ft)
   = parseDateTimeString (now σ) (resolvedValue σ ft))
  ∧ clocks_agree σ σ2 fv
  ∧ clocks_agree σ σ2 (DStruct fs).
Proof.
  intros H. repeat split.
  - intros Htag. apply H. rewrite boundFields_cons.
    destruct (decide _); [done|]. apply list_elem_of_here.
  - intros f Hf. apply H. rewrite boundFields_cons.
    apply elem_of_app. right. apply elem_of_app. by left.
  - intros f Hf. apply H. rewrite boundFields_cons.
    apply elem_of_app. right. apply elem_of_app. by right.
Qed.

Lemma walkField_again σ σ2 maxDepth i fl ft fv fv' w :
  same_sources σ σ2 →
  walks_again σ σ2 fv →
  (reflect.Get (reflect.Tag ft) "env" ≠ "" →
   parseDateTimeString (now σ2) (resolvedValue σ ft)
   = parseDateTimeString (now σ) (resolvedValue σ ft)) →
  clocks_agree σ σ2 fv →
  walkField (walkStruct σ) σ maxDepth i fl ft fv = Ok fv' w →
  ∃ w', walkField (walkStruct σ2) σ2 maxDepth i fl ft fv' = Ok fv' w'.
Proof.
  intros Hsame IH Hclock Hsub Hf. apply returned_Some.
  apply (f_equal returned) in Hf. simpl in Hf.
  destruct (decide (reflect.Get (reflect.Tag ft) "env" = "")) as [Htag|Htag].
  - rewrite returned_walkField_unbound in Hf |- * by done.
    destruct ((0 <? maxDepth) && isStruct fv ft) eqn:Hrec.
    + apply andb_prop in Hrec as [Hd Hs].
      apply returned_Some in Hf as [w0 Hf].
      destruct (isStruct_DStruct _ _ Hs) as [fs0 ->].
      destruct (walkStruct_fields σ fl (reflect.Typ ft) fs0 (maxDepth - 1))
        as (fs' & w1 & Hw & _).
      rewrite Hw in Hf. injection Hf as <- <-.
      replace (isStruct (DStruct fs') ft) with (isStruct (DStruct fs0) ft)
        by done.
      rewrite Hd, Hs. simpl. apply returned_Some.
      by apply (IH fl (reflect.Typ ft) (maxDepth - 1) (DStruct fs') w1).
    + injection Hf as <-. by rewrite Hrec.
  - rewrite returned_walkField_bound in Hf |- * by done.
    simpl in *. rewrite (getValueDefault_same σ σ2) by done.
    destruct (decide (getValueDefault σ _ _ = "")) as [He|He]; [done|].
    apply returned_Some in Hf as [w0 Hf]. apply returned_Some.
    apply (setValue_again σ σ2 _ _ _ _ _ _ Hf).
    intros s _. by apply Hclock.
Qed.

Lemma walkFields_again σ σ2 fl maxDepth fs :
  same_sources σ σ2 →
  Forall (fun f => walks_again σ σ2 f.2) fs →
  clocks_agree σ σ2 (DStruct fs) →
  ∀ i fs' w,
    walkFields σ fl maxDepth i fs = Ok fs' w →
    ∃ w', walkFields σ2 fl maxDepth i fs' = Ok fs' w'.
Proof.
  intros Hsame. induction 1 as [|[ft fv] fs Hf _ IH]; intros Hc i fs' w.
  - intros [= <- <-]. by exists [].
  - rewrite walkFields_cons.
    intros (fv' & w1 & w2 & Hfv & Hrest & ->)%bind_Ok_inv.
    apply bind_Ok_inv in Hrest as (rest' & w3 & w4 & Hfs & Hret & ->).
    injection Hret as <- <-.
    apply clocks_agree_cons in Hc as (Hc1 & Hc2 & Hc3).
    destruct (walkField_again σ σ2 maxDepth i (reflect.Field_flag fl ft)
                ft fv fv' w1 Hsame Hf Hc1 Hc2 Hfv) as [w1' Hfv'].
    destruct (IH Hc3 (S i) rest' w3 Hfs) as [w3' Hfs'].
    rewrite walkFields_cons, Hfv'. simpl. rewrite Hfs'. simpl. eauto.
Qed.

Lemma walkStruct_again σ σ2 v : same_sources σ σ2 → walks_again σ σ2 v.
Proof.
  intros Hsame.
  induction v as [| | | | |fs IH|] using Data_ind;
    intros fl t maxDepth v' w Hc; try done.
  rewrite walkStruct_unfold. simpl.
  destruct (walkFields σ fl maxDepth 0 fs) as [fs' w1|] eqn:Hfs; [|done].
  simpl. intros [= <- <-].
  destruct (walkFields_again σ σ2 fl maxDepth fs Hsame IH Hc O fs' w1 Hfs)
    as [w' Hfs'].
  rewrite walkStruct_unfold. simpl. rewrite Hfs'. simpl. eauto.
Qed.

Lemma parseDateTimeString_no_token t data :
  regexp.FindAllStringSubmatch data = [] → parseDateTimeString t data = data.
Proof. intros H. unfold parseDateTimeString. by rewrite H. Qed.

(** *** Running the driver twice *)

Lemma State_eq (σa σb : State) :
  environ σa = environ σb → now σa = now σb → configFile σa = configFile σb →
  logLevel σa = logLevel σb → stores σa = stores σb →
  dataProviders σa = dataProviders σb →
  defaultConfiguration σa = defaultConfiguration σb →
  configurationData σa = configurationData σb →
  σa = σb.
Proof. destruct σa, σb. simpl. by intros -> -> -> -> -> -> -> ->. Qed.

Lemma fold_Set_stores (defaults : gmap string string) σ :
  let σ' := map_fold (fun key value σ =>
                        MapProvider_Set DefaultMapProvider key value σ)
                     σ defaults in
  (defaults = ∅ → stores σ' = stores σ)
  ∧ (defaults ≠ ∅ →
     stores σ'
     = <[DefaultMapProvider := defaults ∪ store_of σ DefaultMapProvider]>
         (stores σ)).
Proof.
  cbv zeta.
  apply (map_fold_weak_ind (fun σ' (m0 : gmap string string) =>
    (m0 = ∅ → stores σ' = stores σ)
    ∧ (m0 ≠ ∅ →
       stores σ'
       = <[DefaultMapProvider := m0 ∪ store_of σ DefaultMapProvider]>
           (stores σ)))).
  - split; [done|]. by intros [].
  - intros k v m r Hk [IH1 IH2]. split.
    { intros H. by apply insert_non_empty in H. }
    intros _. simpl. unfold store_of at 1.
    destruct (decide (m = ∅)) as [->|Hm].
    + rewrite IH1 by done. fold (store_of σ DefaultMapProvider).
      by rewrite <- insert_union_l, (left_id_L ∅ (∪)).
    + rewrite IH2 by done. rewrite lookup_insert_eq. simpl.
      by rewrite insert_insert_eq, insert_union_l.
Qed.

Lemma InitFromConfigFiles_idem σ :
  defaultConfiguration (InitFromConfigFiles (InitFromConfigFiles σ))
  = defaultConfiguration (InitFromConfigFiles σ).
Proof.
  unfold InitFromConfigFiles. simpl.
  by destruct (configFile σ) as [[] [] [] [] []].
Qed.

Lemma resolve_Configuration_same σ σ2 c :
  same_sources σ σ2 → now σ2 = now σ →
  resolve_Configuration σ2 c = resolve_Configuration σ c.
Proof.
  intros Hs Hn. unfold resolve_Configuration, resolved.
  by rewrite !(getValueDefault_same σ σ2), Hn.
Qed.

Lemma Init_state_again options σ lv c :
  Init_state options
    (set_logLevel lv (set_configurationData c (Init_state options σ)))
  = set_logLevel lv (Init_state options σ).
Proof.
  set (σp := Init_state options σ).
  set (σ1 := set_logLevel lv (set_configurationData c σp)).
  set (D := DefaultValues (fold_left (fun o option => option o) options
                             (mkInitOptions ∅))).
  destruct (fold_Set_spec D _ σp eq_refl)
    as (E1 & E2 & E3 & E4 & E5 & E6 & E7 & _).
  destruct (fold_Set_spec D _ (Init_state options σ1) eq_refl)
    as (F1 & F2 & F3 & F4 & F5 & F6 & F7 & _).
  assert (ES : (D = ∅ → stores σp = stores σ)
               ∧ (D ≠ ∅ →
                  stores σp
                  = <[DefaultMapProvider :=
                        D ∪ store_of σ DefaultMapProvider]> (stores σ))).
  { exact (fold_Set_stores D
      (set_configurationData (defaultConfiguration (InitFromConfigFiles σ))
         (InitFromConfigFiles σ))). }
  assert (FS : (D = ∅ → stores (Init_state options σ1) = stores σp)
               ∧ (D ≠ ∅ →
                  stores (Init_state options σ1)
                  = <[DefaultMapProvider :=
                        D ∪ store_of σp DefaultMapProvider]> (stores σp))).
  { exact (fold_Set_stores D
      (set_configurationData (defaultConfiguration (InitFromConfigFiles σ1))
         (InitFromConfigFiles σ1))). }
  assert (Hdc : defaultConfiguration (InitFromConfigFiles σ1)
                = defaultConfiguration (InitFromConfigFiles σ)).
  { change (defaultConfiguration (InitFromConfigFiles σ1))
      with (mkConfiguration
              (default (LogLevel (defaultConfiguration σp))
                 (file_log_level (configFile σp)))
              (mkBuild (mkBuildData
                 (default (Version (Build_buildData (Configuration_Build
                    (defaultConfiguration σp)))) (file_version (configFile σp)))
                 (default (Commit (Build_buildData (Configuration_Build
                    (defaultConfiguration σp)))) (file_commit (configFile σp)))
                 (default (Branch (Build_buildData (Configuration_Build
                    (defaultConfiguration σp)))) (file_branch (configFile σp)))
                 (default (BuildNumber (Build_buildData (Configuration_Build
                    (defaultConfiguration σp))))
                    (file_build_number (configFile σp)))))).
    rewrite E6, E3. apply InitFromConfigFiles_idem. }
  apply State_eq.
  - rewrite F1. simpl. by rewrite E1.
  - rewrite F2. simpl. by rewrite E2.
  - rewrite F3. simpl. by rewrite E3.
  - by rewrite F4.
  - destruct ES as [ES1 ES2], FS as [FS1 FS2].
    destruct (decide (D = ∅)) as [HD|HD].
    + by rewrite FS1.
    + rewrite FS2 by done. simpl.
      unfold store_of at 1. rewrite ES2 by done.
      rewrite lookup_insert_eq. simpl.
      rewrite insert_insert_eq.
      by rewrite (assoc_L (∪)), (idemp_L (∪)).
  - rewrite F5. simpl. by rewrite E5.
  - etrans; [exact F6|]. etrans; [exact Hdc|]. symmetry. exact E6.
  - etrans; [exact F7|]. etrans; [exact Hdc|]. symmetry. exact E7.
Qed.

Lemma Init_final_idem options σ :
  Init_final options (Init_final options σ) = Init_final options σ.
Proof.
  unfold Init_final. rewrite !Init_state_again.
  set (σp := Init_state options σ).
  set (lv := (log.UnmarshalText log.INFO
                (LogLevel (resolve_Configuration σp
                             (configurationData σp)))).1).
  rewrite (resolve_Configuration_same σp (set_logLevel lv σp)) by done.
  reflexivity.
Qed.

(** *** Walking again on another clock *)

Lemma mask_DStruct σ fs :
  mask σ (DStruct fs)
  = DStruct ((fun f => (f.1, mask_field σ f.1 f.2)) <$> fs).
Proof.
  induction fs as [|[ft fv] fs IH]; [done|].
  cbn [mask] in *. injection IH as IH. rewrite fmap_cons. f_equal.
  f_equal. exact IH.
Qed.

Lemma mask_field_unbound σ ft fv :
  reflect.Get (reflect.Tag ft) "env" = "" → mask_field σ ft fv = mask σ fv.
Proof.
  intros H. unfold mask_field, clock_bound.
  rewrite bool_decide_eq_true_2 by done. by destruct fv.
Qed.

Lemma setValue_again_any σ σ2 fl fv ft value d w :
  setValue σ fl fv ft value = Ok d w →
  ∃ d2 w', setValue σ2 fl d ft value = Ok d2 w'
           ∧ (d2 = d ∨ ∃ s s2, d = DString s ∧ d2 = DString s2).
Proof.
  intros H.
  destruct (setValue_returns σ fl fv ft value) as (d0 & w0 & H0 & Hk).
  rewrite H in H0. injection H0 as <- <-.
  destruct (setValue_returns σ2 fl d ft value) as (d2 & w2 & H2 & Hk2).
  exists d2, w2. split; [done|].
  destruct (decide (Kind fv = reflect.String)) as [Hs|Hs].
  - right. rewrite Hk in Hk2. rewrite Hs in Hk, Hk2.
    destruct d as [|k|k|k|s1| |k]; try (by destruct k); try done.
    destruct d2 as [|k|k|k|s2| |k]; try (by destruct k); try done. eauto.
  - left.
    destruct (setValue_again σ σ2 fl fv ft value d w H) as [w' H'].
    { by intros s ->. }
    rewrite H2 in H'. by injection H' as ->.
Qed.

Lemma walkField_again_masked σ σ2 maxDepth i fl ft fv fv' w :
  same_sources σ σ2 →
  walks_again_masked σ σ2 fv →
  walkField (walkStruct σ) σ maxDepth i fl ft fv = Ok fv' w →
  ∃ fv'' w',
    walkField (walkStruct σ2) σ2 maxDepth i fl ft fv' = Ok fv'' w'
    ∧ mask_field σ ft fv'' = mask_field σ ft fv'.
Proof.
  intros Hsame IH Hf.
  assert (Hgoal : ∀ fv'',
            returned (walkField (walkStruct σ2) σ2 maxDepth i fl ft fv')
            = Some fv'' →
            mask_field σ ft fv'' = mask_field σ ft fv' →
            ∃ fv'' w',
              walkField (walkStruct σ2) σ2 maxDepth i fl ft fv' = Ok fv'' w'
              ∧ mask_field σ ft fv'' = mask_field σ ft fv').
  { intros fv'' [w' Hr]%returned_Some Hm. eauto. }
  apply (f_equal returned) in Hf. simpl in Hf.
  destruct (decide (reflect.Get (reflect.Tag ft) "env" = "")) as [Htag|Htag].
  - rewrite returned_walkField_unbound in Hf by done.
    destruct ((0 <? maxDepth) && isStruct fv ft) eqn:Hrec.
    + apply andb_prop in Hrec as [Hd Hs].
      apply returned_Some in Hf as [w0 Hf].
      destruct (isStruct_DStruct _ _ Hs) as [fs0 ->].
      destruct (walkStruct_fields σ fl (reflect.Typ ft) fs0 (maxDepth - 1))
        as (fs' & w1 & Hw & _).
      rewrite Hw in Hf. injection Hf as <- <-.
      destruct (IH fl (reflect.Typ ft) (maxDepth - 1) (DStruct fs') w1 Hw)
        as (v'' & w'' & Hw2 & Hm).
      apply (Hgoal v'').
      * rewrite returned_walkField_unbound by done.
        replace (isStruct (DStruct fs') ft) with (isStruct (DStruct fs0) ft)
          by done.
        rewrite Hd, Hs. cbn [andb]. by rewrite Hw2.
      * by rewrite !mask_field_unbound.
    + injection Hf as <-. apply (Hgoal fv); [|done].
      rewrite returned_walkField_unbound by done. by rewrite Hrec.
  - rewrite returned_walkField_bound in Hf by done. simpl in Hf.
    fold (resolvedValue σ ft) in Hf.
    destruct (decide (resolvedValue σ ft = "")) as [He|He].
    + injection Hf as <-. apply (Hgoal fv); [|done].
      rewrite returned_walkField_bound by done. simpl.
      rewrite (getValueDefault_same σ σ2) by done.
      fold (resolvedValue σ ft). by rewrite decide_True.
    + apply returned_Some in Hf as [w0 Hf].
      assert (Hret : ∀ d2 w2,
                setValue σ2 fl fv' ft (resolvedValue σ ft) = Ok d2 w2 →
                returned (walkField (walkStruct σ2) σ2 maxDepth i fl ft fv')
                = Some d2).
      { intros d2 w2 H2. rewrite returned_walkField_bound by done. simpl.
        rewrite (getValueDefault_same σ σ2) by done.
        fold (resolvedValue σ ft). rewrite decide_False by done.
        by rewrite H2. }
      destruct (has_token (resolvedValue σ ft)) eqn:Htok.
      * destruct (setValue_again_any σ σ2 _ _ _ _ _ _ Hf)
          as (d2 & w2 & H2 & [->|(s & s2 & -> & ->)]).
        { apply (Hgoal fv'); [by apply (Hret fv' w2)|done]. }
        apply (Hgoal (DString s2)); [by apply (Hret _ w2)|].
        unfold mask_field, clock_bound.
        rewrite Htok, bool_decide_eq_false_2 by done. done.
      * destruct (setValue_again σ σ2 _ _ _ _ _ _ Hf) as [w2 H2].
        { intros s _. unfold has_token in Htok.
          destruct (regexp.FindAllStringSubmatch _) eqn:Hfa; [|done].
          by rewrite !parseDateTimeString_no_token. }
        apply (Hgoal fv'); [by apply (Hret fv' w2)|done].
Qed.

Lemma walkFields_again_masked σ σ2 fl maxDepth fs :
  same_sources σ σ2 →
  Forall (fun f => walks_again_masked σ σ2 f.2) fs →
  ∀ i fs' w,
    walkFields σ fl maxDepth i fs = Ok fs' w →
    ∃ fs'' w',
      walkFields σ2 fl maxDepth i fs' = Ok fs'' w'
      ∧ (fun f => (f.1, mask_field σ f.1 f.2)) <$> fs''
        = (fun f => (f.1, mask_field σ f.1 f.2)) <$> fs'.
Proof.
  intros Hsame. induction 1 as [|[ft fv] fs Hf _ IH]; intros i fs' w.
  - intros [= <- <-]. by exists [], [].
  - rewrite walkFields_cons.
    intros (fv' & w1 & w2 & Hfv & Hrest & ->)%bind_Ok_inv.
    apply bind_Ok_inv in Hrest as (rest' & w3 & w4 & Hfs & Hret & ->).
    injection Hret as <- <-.
    destruct (walkField_again_masked σ σ2 maxDepth i
                (reflect.Field_flag fl ft) ft fv fv' w1 Hsame Hf Hfv)
      as (fv'' & w1' & Hfv' & Hm).
    destruct (IH (S i) rest' w3 Hfs) as (rest'' & w3' & Hfs' & Hms).
    rewrite walkFields_cons, Hfv'. simpl. rewrite Hfs'. simpl.
    eexists _, _. split; [done|]. rewrite !fmap_cons. simpl.
    by rewrite Hm, Hms.
Qed.

Lemma walkStruct_again_masked σ σ2 v :
  same_sources σ σ2 → walks_again_masked σ σ2 v.
Proof.
  intros Hsame.
  induction v as [| | | | |fs IH|] using Data_ind;
    intros fl t maxDepth v' w; try done.
  rewrite walkStruct_unfold. simpl.
  destruct (walkFields σ fl maxDepth 0 fs) as [fs' w1|] eqn:Hfs; [|done].
  simpl. intros [= <- <-].
  destruct (walkFields_again_masked σ σ2 fl maxDepth fs Hsame IH O fs' w1 Hfs)
    as (fs'' & w' & Hfs' & Hm).
  rewrite walkStruct_unfold. simpl. rewrite Hfs'. simpl.
  eexists _, _. split; [done|].
  etrans; [apply mask_DStruct|]. rewrite Hm. symmetry. apply mask_DStruct.
Qed.

(** C9. Resolution is idempotent. Walking a record again with the same
    state returns the record the first walk returned; so does walking it
    again on a later clock when no bound field resolves to a value that
    holds a placeholder token; on any later clock the second walk returns
    a record that differs from the first at most in the bound string
    fields whose resolved value holds a token ([mask] blanks exactly
    those); and [Init], run on the state a first run of it left, leaves
    that state and returns the same record. *)
Theorem resolution_idempotent :
  (∀ σ fl t v maxDepth v' w,
     walkStruct σ fl t v maxDepth = Ok v' w →
     ∃ w', walkStruct σ fl t v' maxDepth = Ok v' w')
  ∧ (∀ σ t2 fl t v maxDepth v' w,
       (∀ ft, ft ∈ boundFields v →
              regexp.FindAllStringSubmatch (resolvedValue σ ft) = []) →
       walkStruct σ fl t v maxDepth = Ok v' w →
       ∃ w', walkStruct (set_now t2 σ) fl t v' maxDepth = Ok v' w')
  ∧ (∀ σ t2 fl t v maxDepth v' w,
       walkStruct σ fl t v maxDepth = Ok v' w →
       ∃ v'' w', walkStruct (set_now t2 σ) fl t v' maxDepth = Ok v'' w'
                 ∧ mask σ v'' = mask σ v')
  ∧ (∀ options σ σ' e w,
       Init options σ = Ok (σ', e) w →
       ∃ w', Init options σ' = Ok (σ', e) w').
Proof.
  split; [|split; [|split]].
  - intros σ fl t v maxDepth v' w Hw.
    by apply (walkStruct_again σ σ v) with (w := w).
  - intros σ t2 fl t v maxDepth v' w Hfree Hw.
    apply (walkStruct_again σ (set_now t2 σ) v) with (w := w); [done| |done].
    intros ft Hft.
    by rewrite !parseDateTimeString_no_token by by apply Hfree.
  - intros σ t2 fl t v maxDepth v' w Hw.
    by apply (walkStruct_again_masked σ (set_now t2 σ) v) with (w := w).
  - intros options σ σ' e w HI.
    assert (HR : returned (Init options σ) = Some (Init_final options σ, None))
      by apply Init_returned.
    rewrite HI in HR. simpl in HR. injection HR as -> ->.
    apply returned_Some.
    exact (eq_trans (Init_returned options _)
             (f_equal (fun s => Some (s, None)) (Init_final_idem options σ))).
Qed.

(** *** Strings *)

Lemma app_cons (c : ascii) (s r : string) :
  String c s +:+ r = String c (s +:+ r).
Proof. reflexivity. Qed.

Lemma app_empty_l (s : string) : "" +:+ s = s.
Proof. reflexivity. Qed.

Lemma app_empty_r (s : string) : s +:+ "" = s.
Proof. induction s as [|c s IH]; [done|]. by rewrite app_cons, IH. Qed.

Lemma app_assoc_s (s r u : string) : (s +:+ r) +:+ u = s +:+ r +:+ u.
Proof. induction s as [|c s IH]; [done|]. by rewrite !app_cons, IH. Qed.

Lemma length_app_s (s r : string) :
  String.length (s +:+ r) = (String.length s + String.length r)%nat.
Proof. induction s as [|c s IH]; [done|]. rewrite app_cons. simpl. lia. Qed.

Lemma prefix_app (s r : string) : String.prefix s (s +:+ r) = true.
Proof.
  induction s as [|c s IH]; [by destruct r|].
  rewrite app_cons. simpl. by destruct (ascii_dec c c).
Qed.

Lemma prefix_cons_ne c c' s x :
  c ≠ c' → String.prefix (String c s) (String c' x) = false.
Proof. intros H. cbn [String.prefix]. by destruct (ascii_dec c c'). Qed.

Lemma prefix_inv (s x : string) :
  String.prefix s x = true → ∃ r, x = s +:+ r.
Proof.
  revert x. induction s as [|c s IH]; intros x H.
  - by exists x.
  - destruct x as [|c' x]; [done|]. simpl in H.
    destruct (ascii_dec c c') as [<-|]; [|done].
    destruct (IH x H) as [r ->]. by exists r.
Qed.

Ltac norm_str :=
  repeat (progress (rewrite ?app_assoc_s, ?app_cons, ?app_empty_l)).

Lemma span_all p s rest :
  all_chars p s = true → starts_outside p rest →
  regexp.span p (s +:+ rest) = (s, rest).
Proof.
  intros Hs Hr. induction s as [|c s IH].
  - destruct rest as [|c r]; [done|]. simpl in *. by rewrite Hr.
  - simpl in Hs. apply andb_prop in Hs as [Hc Hs].
    rewrite app_cons. simpl. by rewrite Hc, IH.
Qed.

Lemma digits_not_minus ds rest :
  all_chars regexp.isDigit ds = true → starts_outside regexp.isDigit rest →
  regexp.expect "-" (ds +:+ rest) = None ∨
  ∃ r, ds = "" ∧ rest = String "-" r.
Proof.
  intros Hd Hr. destruct ds as [|c ds].
  - destruct rest as [|c r]; [by left|]. simpl.
    destruct (decide (c = "-"%char)) as [->|]; [right; eauto|by left].
  - left. simpl in Hd. apply andb_prop in Hd as [Hc _].
    rewrite app_cons. simpl.
    destruct (decide (c = "-"%char)) as [->|]; [done|done].
Qed.

Lemma offset_spec o rest :
  wf_offset o → starts_outside regexp.isDigit rest →
  regexp.expect "-" rest = None →
  regexp.offset (offset_text o +:+ rest) = (offset_text o, rest).
Proof.
  intros Hd Hr Hm. unfold regexp.offset, offset_text, wf_offset in *.
  destruct o as [[] ds]; cbn [neg digits] in *.
  - change (("-" +:+ ds) +:+ rest) with (String "-" (ds +:+ rest)).
    cbn [regexp.expect]. rewrite decide_True by done.
    by rewrite (span_all _ _ _ Hd Hr).
  - rewrite app_empty_l.
    destruct (digits_not_minus ds rest Hd Hr) as [->|(r & -> & ->)];
      [|by simpl in Hm].
    by rewrite (span_all _ _ _ Hd Hr).
Qed.

Lemma expect_cons c s : regexp.expect c (String c s) = Some s.
Proof. simpl. by rewrite decide_True. Qed.

Lemma matchAt_token unit o1 o2 o3 rest :
  wf_segment (Token unit o1 o2 o3) →
  regexp.matchAt (segment_text (Token unit o1 o2 o3) +:+ rest)
  = Some (group_text unit o1 o2 o3).
Proof.
  intros (Hne & Hw & H1 & H2 & H3).
  unfold segment_text, group_text. rewrite !app_assoc_s.
  rewrite !app_cons, !app_empty_l.
  unfold regexp.matchAt.
  do 2 (rewrite expect_cons; cbn [mbind option_bind]).
  rewrite (span_all regexp.isWord unit _ Hw) by done.
  destruct (decide (unit = "")) as [|_]; [done|].
  rewrite expect_cons; cbn [mbind option_bind].
  rewrite (offset_spec o1) by done.
  rewrite expect_cons; cbn [mbind option_bind].
  rewrite (offset_spec o2) by done.
  rewrite expect_cons; cbn [mbind option_bind].
  rewrite (offset_spec o3) by done.
  do 2 (rewrite expect_cons; cbn [mbind option_bind]).
  done.
Qed.

Lemma findAllFrom_skip u rest :
  regexp.findAllFrom (String.length u) (u +:+ rest)
  = regexp.findAllFrom O rest.
Proof. induction u as [|c u IH]; [done|]. by rewrite app_cons. Qed.

Lemma findAllFrom_plain s rest :
  no_match s →
  regexp.findAllFrom O (s +:+ rest) = regexp.findAllFrom O rest.
Proof.
  induction s as [|c s IH]; [done|]. intros [Hc Hs].
  specialize (Hc rest). rewrite app_cons in *. simpl. rewrite Hc. by apply IH.
Qed.

Lemma findAllFrom_match c s g :
  regexp.matchAt (String c s) = Some g →
  regexp.findAllFrom O (String c s)
  = regexp.mkSubmatch ("{{" +:+ g +:+ "}}") g
      :: regexp.findAllFrom (String.length g + 3) s.
Proof. intros H. simpl. by rewrite H. Qed.

Lemma FindAll_text segs :
  Forall wf_segment segs →
  regexp.FindAllStringSubmatch (text segs) = submatch <$> tokens segs.
Proof.
  unfold regexp.FindAllStringSubmatch.
  induction 1 as [|g segs Hg _ IH]; [done|].
  destruct g as [s|unit o1 o2 o3]; cbn [text tokens].
  - cbn [segment_text]. rewrite findAllFrom_plain by done. apply IH.
  - pose proof (matchAt_token unit o1 o2 o3 (text segs) Hg) as Hm.
    set (g := group_text unit o1 o2 o3) in *.
    assert (Htxt : segment_text (Token unit o1 o2 o3) +:+ text segs
                   = String "{" (String "{" (g +:+ "}}") +:+ text segs)).
    { cbn [segment_text]. fold g. by norm_str. }
    rewrite Htxt in *. rewrite (findAllFrom_match _ _ _ Hm).
    rewrite fmap_cons. f_equal.
    rewrite <- IH.
    replace (String.length g + 3)%nat
      with (String.length (String "{" (g +:+ "}}"))).
    + apply findAllFrom_skip.
    + cbn [String.length]. rewrite length_app_s. simpl. lia.
Qed.

Lemma all_chars_app p s r :
  all_chars p (s +:+ r) = all_chars p s && all_chars p r.
Proof.
  induction s as [|c s IH]; [done|]. rewrite app_cons. simpl.
  by rewrite IH, andb_assoc.
Qed.

Lemma all_chars_impl (p q : ascii → bool) s :
  (∀ c, p c = true → q c = true) →
  all_chars p s = true → all_chars q s = true.
Proof.
  intros Hpq. induction s as [|c s IH]; [done|]. simpl.
  intros [Hc Hs]%andb_prop. by rewrite (Hpq c Hc), IH.
Qed.

Lemma Split_free s sep : free_of sep s → strings.Split s sep = [s].
Proof.
  unfold free_of. induction s as [|c s IH]; [done|]. simpl.
  intros [Hc Hs]%andb_prop. apply negb_true_iff, bool_decide_eq_false in Hc.
  rewrite decide_False by done. by rewrite IH.
Qed.

Lemma Split_app s r sep :
  free_of sep s →
  strings.Split (s +:+ String sep r) sep = s :: strings.Split r sep.
Proof.
  unfold free_of. induction s as [|c s IH]; cbn [all_chars].
  - intros _. rewrite app_empty_l. cbn [strings.Split].
    by rewrite decide_True.
  - intros [Hc Hs]%andb_prop. apply negb_true_iff, bool_decide_eq_false in Hc.
    rewrite app_cons. cbn [strings.Split].
    rewrite decide_False by done. by rewrite IH.
Qed.

Lemma isWord_not sep c :
  regexp.isWord sep = false → regexp.isWord c = true →
  negb (bool_decide (c = sep)) = true.
Proof.
  intros Hs Hc. apply negb_true_iff, bool_decide_eq_false.
  intros ->. congruence.
Qed.

Lemma isDigit_not sep c :
  regexp.isDigit sep = false → regexp.isDigit c = true →
  negb (bool_decide (c = sep)) = true.
Proof.
  intros Hs Hc. apply negb_true_iff, bool_decide_eq_false.
  intros ->. congruence.
Qed.

Lemma free_of_offset_text o sep :
  wf_offset o → sep ≠ "-"%char → regexp.isDigit sep = false →
  free_of sep (offset_text o).
Proof.
  intros Hd Hm Hs. unfold free_of, offset_text, wf_offset in *.
  rewrite all_chars_app. apply andb_true_intro. split.
  - destruct (neg o); [|done]. simpl.
    rewrite bool_decide_eq_false_2; [done|]. by intros <-.
  - revert Hd. apply all_chars_impl. intros c. by apply isDigit_not.
Qed.

Lemma free_of_app sep s r :
  free_of sep s → free_of sep r → free_of sep (s +:+ r).
Proof. unfold free_of. intros Hs Hr. by rewrite all_chars_app, Hs, Hr. Qed.

Lemma free_of_cons sep c r :
  c ≠ sep → free_of sep r → free_of sep (String c r).
Proof.
  unfold free_of. intros Hc Hr. simpl.
  by rewrite bool_decide_eq_false_2, Hr.
Qed.

Lemma Split_group unit o1 o2 o3 :
  wf_segment (Token unit o1 o2 o3) →
  strings.Split (group_text unit o1 o2 o3) ":"
  = [unit; offset_text o1 +:+ "," +:+ offset_text o2 +:+ "," +:+ offset_text o3]
  ∧ strings.Split
      (offset_text o1 +:+ "," +:+ offset_text o2 +:+ "," +:+ offset_text o3) ","
    = [offset_text o1; offset_text o2; offset_text o3].
Proof.
  intros (Hne & Hw & H1 & H2 & H3). unfold group_text. split.
  - norm_str.
    rewrite Split_app.
    2:{ revert Hw. apply all_chars_impl. intros c. by apply isWord_not. }
    rewrite Split_free; [done|].
    apply free_of_app; [by apply free_of_offset_text|].
    apply free_of_cons; [done|].
    apply free_of_app; [by apply free_of_offset_text|].
    apply free_of_cons; [done|]. by apply free_of_offset_text.
  - norm_str.
    rewrite Split_app by by apply free_of_offset_text.
    rewrite Split_app by by apply free_of_offset_text.
    rewrite Split_free by by apply free_of_offset_text.
    done.
Qed.

(** *** Parsing an offset *)

Lemma isDigit_digitVal c :
  regexp.isDigit c = true → 0 ≤ strconv.digitVal c ≤ 9.
Proof.
  unfold regexp.isDigit, strconv.isDigit, strconv.digitVal.
  intros [H1 H2]%andb_prop. apply N.leb_le in H1, H2. lia.
Qed.

Lemma decimal_from_ge n ds :
  all_chars regexp.isDigit ds = true → 0 ≤ n → n ≤ decimal_from n ds.
Proof.
  revert n. induction ds as [|c ds IH]; intros n Hd Hn; simpl; [lia|].
  simpl in Hd. apply andb_prop in Hd as [Hc Hd].
  pose proof (isDigit_digitVal c Hc).
  specialize (IH (n * 10 + strconv.digitVal c) Hd). lia.
Qed.

Lemma parseUintLoop_spec ds n :
  all_chars regexp.isDigit ds = true → 0 ≤ n ≤ strconv.maxUint64 →
  strconv.parseUintLoop ds n
  = if decide (decimal_from n ds ≤ strconv.maxUint64)
    then (decimal_from n ds, None)
    else (strconv.maxUint64, Some strconv.ErrRange).
Proof.
  revert n. induction ds as [|c ds IH]; intros n Hd Hn.
  - simpl. by rewrite decide_True by lia.
  - simpl in Hd. apply andb_prop in Hd as [Hc Hd].
    pose proof (isDigit_digitVal c Hc) as Hv.
    pose proof (decimal_from_ge (n * 10 + strconv.digitVal c) ds Hd) as Hge.
    cbn [strconv.parseUintLoop decimal_from].
    change (strconv.isDigit c) with (regexp.isDigit c). rewrite Hc.
    unfold strconv.maxUint64 in *.
    change (2 ^ 64 - 1) with 18446744073709551615 in *.
    change (18446744073709551615 / 10 + 1) with 1844674407370955162.
    destruct (1844674407370955162 <=? n) eqn:Hcut.
    + apply Z.leb_le in Hcut. by rewrite decide_False by lia.
    + apply Z.leb_gt in Hcut.
      destruct (18446744073709551615 <? n * 10 + strconv.digitVal c) eqn:Hov.
      * apply Z.ltb_lt in Hov. by rewrite decide_False by lia.
      * apply Z.ltb_ge in Hov. apply IH; [done|lia].
Qed.

Lemma ParseInt_offset o :
  wf_offset o → (strconv.ParseInt (offset_text o)).1 = offset_value o.
Proof.
  unfold wf_offset, offset_text, offset_value.
  destruct o as [sgn ds]. cbn [neg digits]. intros Hd.
  destruct ds as [|c ds].
  { rewrite decide_True by done. by destruct sgn. }
  rewrite decide_False by done.
  assert (Hu : strconv.ParseUint (String c ds)
               = if decide (decimal (String c ds) ≤ strconv.maxUint64)
                 then (decimal (String c ds), None)
                 else (strconv.maxUint64, Some strconv.ErrRange)).
  { unfold strconv.ParseUint, decimal. apply parseUintLoop_spec; [done|].
    unfold strconv.maxUint64. lia. }
  pose proof (decimal_from_ge 0 (String c ds) Hd ltac:(lia)) as Hge.
  fold (decimal (String c ds)) in Hge.
  set (v := decimal (String c ds)) in *. clearbody v.
  assert (Hc : regexp.isDigit c = true)
    by (simpl in Hd; by apply andb_prop in Hd as [? ?]).
  unfold clamp64, strconv.maxUint64 in *.
  change (2 ^ 64 - 1) with 18446744073709551615 in *.
  change (2 ^ 63) with 9223372036854775808 in *.
  destruct sgn.
  - change ("-" +:+ String c ds) with (String "-" (String c ds)).
    unfold strconv.ParseInt. rewrite decide_False by done.
    rewrite decide_True by done. rewrite Hu.
    change (2 ^ 63) with 9223372036854775808.
    destruct (decide (v ≤ 18446744073709551615)); cbn [negb andb].
    + destruct (9223372036854775808 <? v) eqn:Hlt; cbn [fst].
      * apply Z.ltb_lt in Hlt. lia.
      * apply Z.ltb_ge in Hlt. lia.
    + cbn. lia.
  - rewrite app_empty_l.
    unfold strconv.ParseInt.
    assert (c ≠ "+"%char) by (intros ->; done).
    assert (c ≠ "-"%char) by (intros ->; done).
    rewrite !decide_False by done. rewrite Hu.
    change (2 ^ 63) with 9223372036854775808.
    destruct (decide (v ≤ 18446744073709551615)); cbn [negb andb].
    + destruct (9223372036854775808 <=? v) eqn:Hlt; cbn [fst].
      * apply Z.leb_le in Hlt. lia.
      * apply Z.leb_gt in Hlt. lia.
    + cbn. lia.
Qed.

Lemma expandMatch_token t data unit o1 o2 o3 :
  wf_segment (Token unit o1 o2 o3) →
  expandMatch t data (submatch (Token unit o1 o2 o3))
  = if decide (expandable unit)
    then strings.Replace data (segment_text (Token unit o1 o2 o3))
           (expansion t (Token unit o1 o2 o3))
    else data.
Proof.
  intros Hwf. pose proof Hwf as (Hne & Hw & H1 & H2 & H3).
  destruct (Split_group unit o1 o2 o3 Hwf) as [S1 S2].
  unfold expandMatch. cbn [submatch regexp.group1 regexp.whole].
  rewrite S1, S2. rewrite !ParseInt_offset by done.
  unfold expandable. cbn [expansion].
  destruct (decide (unit = "date")) as [->|Hd].
  { by rewrite decide_True by by left. }
  destruct (decide (unit = "time")) as [->|Ht].
  { by rewrite decide_True by by right. }
  by rewrite decide_False by by intros [|].
Qed.

(** *** Tokens are told apart by their text *)

Lemma offset_text_inj o o' :
  wf_offset o → wf_offset o' → offset_text o = offset_text o' → o = o'.
Proof.
  unfold wf_offset, offset_text.
  destruct o as [[] d], o' as [[] d']; cbn [neg digits]; intros Hd Hd' H.
  - change ("-" +:+ d) with (String "-" d) in H.
    change ("-" +:+ d') with (String "-" d') in H. by injection H as ->.
  - change ("-" +:+ d) with (String "-" d) in H. rewrite app_empty_l in H.
    subst d'. done.
  - change ("-" +:+ d') with (String "-" d') in H. rewrite app_empty_l in H.
    subst d. done.
  - rewrite !app_empty_l in H. by subst.
Qed.

Lemma group_text_inj unit o1 o2 o3 unit' o1' o2' o3' :
  wf_segment (Token unit o1 o2 o3) → wf_segment (Token unit' o1' o2' o3') →
  group_text unit o1 o2 o3 = group_text unit' o1' o2' o3' →
  Token unit o1 o2 o3 = Token unit' o1' o2' o3'.
Proof.
  intros Hwf Hwf' Hg.
  destruct (Split_group _ _ _ _ Hwf) as [S1 S2].
  destruct (Split_group _ _ _ _ Hwf') as [S1' S2'].
  rewrite Hg, S1' in S1. injection S1 as <- Hoff.
  rewrite Hoff, S2 in S2'. injection S2' as E1 E2 E3.
  destruct Hwf as (_ & _ & H1 & H2 & H3), Hwf' as (_ & _ & H1' & H2' & H3').
  by rewrite (offset_text_inj o1 o1'), (offset_text_inj o2 o2'),
    (offset_text_inj o3 o3').
Qed.

Lemma token_prefix_inj unit o1 o2 o3 unit' o1' o2' o3' rest :
  wf_segment (Token unit o1 o2 o3) → wf_segment (Token unit' o1' o2' o3') →
  String.prefix (segment_text (Token unit o1 o2 o3))
    (segment_text (Token unit' o1' o2' o3') +:+ rest) = true →
  Token unit o1 o2 o3 = Token unit' o1' o2' o3'.
Proof.
  intros Hwf Hwf' [r Hr]%prefix_inv.
  pose proof (matchAt_token _ _ _ _ rest Hwf') as M'.
  rewrite Hr, (matchAt_token _ _ _ _ r Hwf) in M'.
  injection M' as M'. by apply group_text_inj.
Qed.

(** *** Replacing a token in a string cut into segments *)

Lemma replaceFrom_skip u rest old new :
  strings.replaceFrom (String.length u) (u +:+ rest) old new
  = strings.replaceFrom O rest old new.
Proof. induction u as [|c u IH]; [done|]. by rewrite app_cons. Qed.

Lemma replaceFrom_miss c s old new :
  String.prefix old (String c s) = false →
  strings.replaceFrom O (String c s) old new
  = String c (strings.replaceFrom O s old new).
Proof. intros H. cbn [strings.replaceFrom]. by rewrite H. Qed.

Lemma replaceFrom_hit c s rest new :
  strings.replaceFrom O (String c s +:+ rest) (String c s) new
  = new +:+ strings.replaceFrom O rest (String c s) new.
Proof.
  pose proof (prefix_app (String c s) rest) as Hp.
  rewrite app_cons in *. cbn [strings.replaceFrom]. rewrite Hp.
  f_equal. cbn [String.length]. rewrite Nat.sub_succ, Nat.sub_0_r.
  apply replaceFrom_skip.
Qed.

Lemma replaceFrom_free s rest old new :
  free_of "{" s →
  strings.replaceFrom O (s +:+ rest) (String "{" old) new
  = s +:+ strings.replaceFrom O rest (String "{" old) new.
Proof.
  unfold free_of. induction s as [|c s IH]; [done|]. cbn [all_chars].
  intros [Hc Hs]%andb_prop. apply negb_true_iff, bool_decide_eq_false in Hc.
  rewrite !app_cons. rewrite replaceFrom_miss.
  - by rewrite IH.
  - by apply prefix_cons_ne.
Qed.

Lemma replaceFrom_plain s rest unit o1 o2 o3 new :
  no_match s → wf_segment (Token unit o1 o2 o3) →
  strings.replaceFrom O (s +:+ rest) (segment_text (Token unit o1 o2 o3)) new
  = s +:+ strings.replaceFrom O rest (segment_text (Token unit o1 o2 o3)) new.
Proof.
  intros Hs Hwf. induction s as [|c s IH]; [done|].
  destruct Hs as [Hc Hs]. rewrite !app_cons.
  rewrite replaceFrom_miss; [by rewrite IH|].
  destruct (String.prefix _ _) eqn:Hp; [|done].
  apply prefix_inv in Hp as [r Hr].
  specialize (Hc rest). rewrite app_cons, Hr, matchAt_token in Hc by done.
  done.
Qed.

Lemma prefix_cons_eq c s x :
  String.prefix (String c s) (String c x) = String.prefix s x.
Proof. cbn [String.prefix]. by destruct (ascii_dec c c). Qed.

Lemma isWord_not_brace c : regexp.isWord c = true → c ≠ "{"%char.
Proof. by intros H ->. Qed.

Lemma group_free unit o1 o2 o3 :
  wf_segment (Token unit o1 o2 o3) →
  free_of "{" (group_text unit o1 o2 o3 +:+ "}}").
Proof.
  intros (Hne & Hw & H1 & H2 & H3). unfold group_text. norm_str.
  apply free_of_app.
  { revert Hw. apply all_chars_impl. intros c. by apply isWord_not. }
  apply free_of_cons; [done|].
  apply free_of_app; [by apply free_of_offset_text|].
  apply free_of_cons; [done|].
  apply free_of_app; [by apply free_of_offset_text|].
  apply free_of_cons; [done|].
  apply free_of_app; [by apply free_of_offset_text|]. done.
Qed.

Lemma replaceFrom_other_token unit o1 o2 o3 unit' o1' o2' o3' rest new :
  wf_segment (Token unit o1 o2 o3) → wf_segment (Token unit' o1' o2' o3') →
  Token unit' o1' o2' o3' ≠ Token unit o1 o2 o3 →
  strings.replaceFrom O (segment_text (Token unit' o1' o2' o3') +:+ rest)
    (segment_text (Token unit o1 o2 o3)) new
  = segment_text (Token unit' o1' o2' o3')
      +:+ strings.replaceFrom O rest (segment_text (Token unit o1 o2 o3)) new.
Proof.
  intros Hwf Hwf' Hne.
  assert (Hp : String.prefix (segment_text (Token unit o1 o2 o3))
                 (segment_text (Token unit' o1' o2' o3') +:+ rest) = false).
  { destruct (String.prefix _ _) eqn:Hp; [|done].
    by apply token_prefix_inj in Hp. }
  pose proof (group_free _ _ _ _ Hwf') as Hfree.
  destruct Hwf' as (Hu' & Hw' & _).
  destruct unit' as [|c u']; [done|].
  cbn [all_chars] in Hw'. apply andb_prop in Hw' as [Hc _].
  apply isWord_not_brace in Hc.
  set (B := group_text (String c u') o1' o2' o3' +:+ "}}") in *.
  assert (HB : ∃ B', B = String c B') by (eexists; reflexivity).
  assert (Hg : segment_text (Token (String c u') o1' o2' o3')
               = String "{" (String "{" B)) by reflexivity.
  assert (HT : ∃ old, segment_text (Token unit o1 o2 o3)
                      = String "{" (String "{" old))
    by (eexists; reflexivity).
  destruct HT as [old HT]. rewrite Hg, HT in *. clearbody B.
  destruct HB as [B' ->]. rewrite !app_cons in *.
  rewrite replaceFrom_miss by done. f_equal.
  rewrite replaceFrom_miss.
  2:{ rewrite prefix_cons_eq. apply prefix_cons_ne. by intros <-. }
  f_equal.
  change (String c (B' +:+ rest)) with (String c B' +:+ rest).
  by rewrite replaceFrom_free.
Qed.

Lemma Replace_text cur unit o1 o2 o3 new :
  Forall wf_segment cur → wf_segment (Token unit o1 o2 o3) →
  strings.Replace (text cur) (segment_text (Token unit o1 o2 o3)) new
  = text (subst (Token unit o1 o2 o3) new <$> cur).
Proof.
  intros Hcur Hwf.
  change (strings.Replace (text cur) (segment_text (Token unit o1 o2 o3)) new)
    with (strings.replaceFrom O (text cur)
            (segment_text (Token unit o1 o2 o3)) new).
  induction Hcur as [|g cur Hg _ IH]; [done|].
  rewrite fmap_cons. cbn [text]. unfold subst at 1.
  destruct g as [s|unit' o1' o2' o3'].
  - rewrite decide_False by done. change (segment_text (Plain s)) with s.
    by rewrite replaceFrom_plain, IH.
  - destruct (decide (Token unit' o1' o2' o3' = Token unit o1 o2 o3))
      as [->|Hne].
    + assert (HT : ∃ c s, segment_text (Token unit o1 o2 o3) = String c s)
        by (eexists _, _; reflexivity).
      destruct HT as (c & s & HT). rewrite HT in *.
      rewrite replaceFrom_hit. change (segment_text (Plain new)) with new.
      by rewrite IH.
    + by rewrite replaceFrom_other_token, IH.
Qed.

(** *** What is substituted holds no brace *)

Lemma string_of_uint_digits d :
  all_chars regexp.isDigit (NilEmpty.string_of_uint d) = true.
Proof. induction d; simpl; done. Qed.

Lemma appendInt_free x width : free_of "{" (time.appendInt x width).
Proof.
  unfold time.appendInt. apply free_of_app; [by destruct (x <? 0)|].
  apply free_of_app.
  - generalize (width - String.length
                   (NilZero.string_of_uint (N.to_uint (Z.to_N (Z.abs x)))))%nat.
    intros n. induction n as [|n IH]; [done|]. by apply free_of_cons.
  - unfold NilZero.string_of_uint.
    destruct (N.to_uint _) eqn:E; [done|..]; rewrite <- E;
      (eapply all_chars_impl; [|apply string_of_uint_digits]);
      intros c; by apply isDigit_not.
Qed.

Lemma Format_date_free t : free_of "{" (time.Format_date t).
Proof.
  unfold time.Format_date. destruct (time.absDate _) as [[y m] d].
  repeat (first [apply appendInt_free | apply free_of_app | reflexivity]).
Qed.

Lemma Format_clock_free t : free_of "{" (time.Format_clock t).
Proof.
  unfold time.Format_clock. destruct (time.absClock _) as [[h m] s].
  repeat (first [apply appendInt_free | apply free_of_app | reflexivity]).
Qed.

Lemma free_no_match s : free_of "{" s → no_match s.
Proof.
  unfold free_of. induction s as [|c s IH]; [done|]. cbn [all_chars].
  intros [Hc Hs]%andb_prop. apply negb_true_iff, bool_decide_eq_false in Hc.
  split; [|by apply IH]. intros rest. rewrite app_cons.
  unfold regexp.matchAt. cbn [regexp.expect]. by rewrite decide_False.
Qed.

Lemma expansion_no_match t unit o1 o2 o3 :
  expandable unit → no_match (expansion t (Token unit o1 o2 o3)).
Proof.
  intros [-> | ->]; apply free_no_match; cbn [expansion].
  - rewrite decide_True by done. apply Format_date_free.
  - rewrite decide_False by done. rewrite decide_True by done.
    apply Format_clock_free.
Qed.

Lemma step_wf t cur tok :
  Forall wf_segment cur → Forall wf_segment (step t cur tok).
Proof.
  intros Hcur. destruct tok as [s|unit o1 o2 o3]; [done|]. cbn [step].
  destruct (decide (expandable unit)) as [He|]; [|done].
  apply Forall_fmap. eapply Forall_impl; [exact Hcur|].
  intros g Hg. unfold subst. cbn.
  destruct (decide (g = Token unit o1 o2 o3)); [|done].
  by apply expansion_no_match.
Qed.

Lemma fold_expandMatch t toks :
  Forall wf_segment toks → Forall is_token toks →
  ∀ cur, Forall wf_segment cur →
    fold_left (expandMatch t) (submatch <$> toks) (text cur)
    = text (fold_left (step t) toks cur).
Proof.
  induction 1 as [|tok toks Hwf _ IH]; intros Htok cur Hcur; [done|].
  apply Forall_cons in Htok as [Ht Htok].
  destruct tok as [s|unit o1 o2 o3]; [done|].
  rewrite fmap_cons. cbn [fold_left].
  rewrite expandMatch_token by done.
  rewrite <- (IH Htok) by by apply step_wf.
  f_equal. cbn [step].
  destruct (decide (expandable unit)); [|done].
  by apply Replace_text.
Qed.

Lemma tokens_spec segs :
  Forall wf_segment segs →
  Forall wf_segment (tokens segs) ∧ Forall is_token (tokens segs)
  ∧ ∀ g, g ∈ segs → is_token g → g ∈ tokens segs.
Proof.
  induction 1 as [|g segs Hg _ (IH1 & IH2 & IH3)].
  { split; [done|]. split; [done|]. by intros g ?%elem_of_nil. }
  destruct g as [s|unit o1 o2 o3]; cbn [tokens].
  - split; [done|]. split; [done|].
    intros g [->|Hin]%elem_of_cons Ht; [done|]. by apply IH3.
  - split; [by constructor|]. split; [by constructor|].
    intros g [->|Hin]%elem_of_cons Ht; [by left|]. right. by apply IH3.
Qed.

Lemma fold_step_map t toks cur :
  fold_left (step t) toks cur
  = (fun g => fold_left (step1 t) toks g) <$> cur.
Proof.
  revert cur. induction toks as [|tok toks IH]; intros cur.
  { cbn. by rewrite list_fmap_id. }
  cbn [fold_left]. rewrite IH.
  destruct tok as [s|unit o1 o2 o3]; [done|]. cbn [step step1].
  destruct (decide (expandable unit)); [|done].
  by rewrite <- list_fmap_compose.
Qed.

Lemma fold_step1_Plain t toks s :
  Forall is_token toks → fold_left (step1 t) toks (Plain s) = Plain s.
Proof.
  induction 1 as [|tok toks Ht _ IH]; [done|]. cbn [fold_left].
  destruct tok as [|unit o1 o2 o3]; [done|]. cbn [step1].
  destruct (decide (expandable unit)); [|done].
  unfold subst. by rewrite decide_False.
Qed.

Lemma fold_step1_Token t toks unit o1 o2 o3 :
  Forall is_token toks →
  Token unit o1 o2 o3 ∈ toks ∨ ¬ expandable unit →
  segment_text (fold_left (step1 t) toks (Token unit o1 o2 o3))
  = expansion t (Token unit o1 o2 o3)
  ∨ (fold_left (step1 t) toks (Token unit o1 o2 o3) = Token unit o1 o2 o3
     ∧ ¬ expandable unit).
Proof.
  induction 1 as [|tok toks Ht Htoks IH]; intros Hin.
  { destruct Hin as [Hin%elem_of_nil|Hne]; [done|]. by right. }
  cbn [fold_left].
  destruct tok as [|unit' o1' o2' o3']; [done|]. cbn [step1].
  destruct (decide (expandable unit')) as [He|He].
  - unfold subst.
    destruct (decide (Token unit o1 o2 o3 = Token unit' o1' o2' o3'))
      as [Heq|Hneq].
    + injection Heq as -> -> -> ->. left.
      by rewrite fold_step1_Plain.
    + apply IH. destruct Hin as [[Heq|Hin]%elem_of_cons|Hne]; auto.
  - apply IH. destruct Hin as [[Heq|Hin]%elem_of_cons|Hne]; auto.
    injection Heq as -> -> -> ->. by right.
Qed.

Lemma expansion_not_expandable t unit o1 o2 o3 :
  ¬ expandable unit →
  expansion t (Token unit o1 o2 o3) = segment_text (Token unit o1 o2 o3).
Proof.
  intros He. cbn [expansion].
  rewrite decide_False by (intros ->; apply He; by left).
  by rewrite decide_False by (intros ->; apply He; by right).
Qed.

(** The expansion of a string cut into plain text and well-formed tokens
    is the expansion of each token, with the plain text between them
    left as it is. *)
Lemma parseDateTimeString_segments t segs :
  Forall wf_segment segs →
  parseDateTimeString t (text segs) = expanded t segs.
Proof.
  intros Hwf. destruct (tokens_spec segs Hwf) as (T1 & T2 & T3).
  unfold parseDateTimeString.
  rewrite FindAll_text, fold_expandMatch, fold_step_map by done.
  assert (Hall : ∀ g, g ∈ segs →
            segment_text (fold_left (step1 t) (tokens segs) g)
            = expansion t g).
  { intros [s|unit o1 o2 o3] Hin.
    - by rewrite fold_step1_Plain.
    - destruct (fold_step1_Token t (tokens segs) unit o1 o2 o3 T2)
        as [H|[H Hne]]; [|done|].
      + destruct (decide (expandable unit)); [left|by right]. by apply T3.
      + by rewrite H, expansion_not_expandable. }
  clear T1 T2 T3 Hwf. revert Hall. generalize (tokens segs) as toks.
  intros toks. induction segs as [|g segs IH]; intros Hall; [done|].
  rewrite fmap_cons. cbn [text expanded].
  rewrite Hall by by left. rewrite IH; [done|].
  intros g' Hg'. apply Hall. by right.
Qed.

(** *** Fixed-width arithmetic *)
Lemma int64_id z : - 2 ^ 63 ≤ z ≤ 2 ^ 63 - 1 → int64 z = z.
Proof.
  intros H. unfold int64.
  change (2 ^ 63) with 9223372036854775808 in *.
  change (2 ^ 64) with 18446744073709551616 in *.
  rewrite Z.mod_small; lia.
Qed.

Lemma uint64_id z : 0 ≤ z < 2 ^ 64 → uint64 z = z.
Proof. intros H. unfold uint64. by rewrite Z.mod_small. Qed.

Lemma uint64_add_l a b : uint64 (uint64 a + b) = uint64 (a + b).
Proof. unfold uint64. by rewrite Zplus_mod_idemp_l. Qed.

Lemma uint64_add_r a b : uint64 (a + uint64 b) = uint64 (a + b).
Proof. unfold uint64. by rewrite Zplus_mod_idemp_r. Qed.

Lemma uint64_mul_l a b : uint64 (uint64 a * b) = uint64 (a * b).
Proof. unfold uint64. by rewrite Zmult_mod_idemp_l. Qed.

Lemma uint64_int64 a : uint64 (int64 a) = uint64 a.
Proof.
  unfold uint64, int64.
  rewrite Zminus_mod_idemp_l.
  replace (a + 2 ^ 63 - 2 ^ 63) with a by lia. done.
Qed.

Lemma int64_uint64 a : int64 (uint64 a) = int64 a.
Proof.
  unfold uint64, int64. by rewrite Zplus_mod_idemp_l.
Qed.

Lemma int64_add_l a b : int64 (int64 a + b) = int64 (a + b).
Proof.
  unfold int64. f_equal.
  replace ((a + 2 ^ 63) mod 2 ^ 64 - 2 ^ 63 + b + 2 ^ 63)
    with ((a + 2 ^ 63) mod 2 ^ 64 + b) by lia.
  rewrite Zplus_mod_idemp_l. f_equal. lia.
Qed.

(** *** The calendar of [absDate] and [Date] *)

Lemma div_shift a b k c : 0 < c → a = b - k * c → a / c = b / c - k.
Proof.
  intros Hc ->. replace (b - k * c) with (b + (- k) * c) by lia.
  rewrite Z.div_add by lia. lia.
Qed.

Lemma rem_eqb_0 a b : 0 < b → (Z.rem a b =? 0) = (a mod b =? 0).
Proof.
  intros Hb. destruct (Z.eqb_spec (Z.rem a b) 0) as [H|H],
    (Z.eqb_spec (a mod b) 0) as [H'|H']; try done.
  - apply Z.rem_divide in H; [|lia]. apply Z.mod_divide in H; [done|lia].
  - apply Z.mod_divide in H'; [|lia]. apply Z.rem_divide in H'; [done|lia].
Qed.

(** The remainders of [isLeap] are zero when those of the floor division
    are. *)
Lemma isLeap_mod year :
  time.isLeap year
  = (year mod 4 =? 0) && (negb (year mod 100 =? 0) || (year mod 400 =? 0)).
Proof. unfold time.isLeap. by rewrite !rem_eqb_0 by lia. Qed.

Lemma yearLength_pos y : 365 ≤ yearLength y ≤ 366.
Proof. unfold yearLength. destruct (time.isLeap y); lia. Qed.

Lemma yearStart_succ y : yearStart (y + 1) = yearStart y + yearLength y.
Proof.
  unfold yearStart, yearLength. rewrite isLeap_mod.
  replace (y + 1 - 1) with y by lia.
  repeat match goal with
         | |- context [Z.eqb ?a ?b] => destruct (Z.eqb_spec a b)
         end; cbn [andb orb negb];
  (Z.to_euclidean_division_equations; lia).
Qed.

Lemma yearStart_mono y1 y2 : y1 ≤ y2 → yearStart y1 ≤ yearStart y2.
Proof.
  intros Hy. unfold yearStart. Z.to_euclidean_division_equations; lia.
Qed.

Lemma daysSinceEpoch_yearStart y :
  time.absoluteZeroYear ≤ y ≤ 2 ^ 45 →
  time.daysSinceEpoch y = yearStart y + absDays.
Proof.
  intros Hy. unfold time.daysSinceEpoch, yearStart, absDays,
    time.daysPer400Years, time.daysPer100Years, time.daysPer4Years,
    time.absoluteZeroYear in *.
  change (2 ^ 45) with 35184372088832 in Hy.
  cbv zeta.
  rewrite (uint64_id (y - _)) by (change (2 ^ 64) with 18446744073709551616; lia).
  rewrite (div_shift (y - 1) (y - -292277022399) 73069255600 4) by lia.
  rewrite (div_shift (y - 1) (y - -292277022399) 2922770224 100) by lia.
  rewrite (div_shift (y - 1) (y - -292277022399) 730692556 400) by lia.
  replace (y - 1) with (y - -292277022399 - 292277022400) by lia.
  assert (HY : 0 ≤ y - -292277022399 < 1125899906842624) by lia.
  set (Y := y - -292277022399) in *. clearbody Y. clear Hy y.
  unfold uint64. change (2 ^ 64) with 18446744073709551616.
  rewrite (Z.mod_small ((365 * 400 + 97) * (Y / 400)))
    by (Z.to_euclidean_division_equations; lia).
  rewrite (Z.mod_small ((365 * 400 + 97) * (Y / 400) + _))
    by (Z.to_euclidean_division_equations; lia).
  rewrite (Z.mod_small ((365 * 400 + 97) * (Y / 400) + _ + _))
    by (Z.to_euclidean_division_equations; lia).
  rewrite Z.mod_small by (Z.to_euclidean_division_equations; lia).
  Z.to_euclidean_division_equations; lia.
Qed.

Lemma yearStart_shift y :
  yearStart y + absDays
  = 365 * (y - time.absoluteZeroYear) + (y - time.absoluteZeroYear) / 4
    - (y - time.absoluteZeroYear) / 100 + (y - time.absoluteZeroYear) / 400.
Proof.
  unfold yearStart, absDays, time.absoluteZeroYear.
  rewrite (div_shift (y - 1) (y - -292277022399) 73069255600 4) by lia.
  rewrite (div_shift (y - 1) (y - -292277022399) 2922770224 100) by lia.
  rewrite (div_shift (y - 1) (y - -292277022399) 730692556 400) by lia.
  lia.
Qed.

Lemma isLeap_shift y :
  time.isLeap y
  = (((y - time.absoluteZeroYear + 1) mod 4 =? 0)
     && (negb ((y - time.absoluteZeroYear + 1) mod 100 =? 0)
         || ((y - time.absoluteZeroYear + 1) mod 400 =? 0))).
Proof.
  rewrite isLeap_mod. unfold time.absoluteZeroYear.
  replace (y - -292277022399 + 1) with (y + 730692556 * 400) by lia.
  rewrite (Z_mod_plus_full y 730692556 400).
  replace (y + 730692556 * 400) with (y + 2922770224 * 100) by lia.
  rewrite (Z_mod_plus_full y 2922770224 100).
  replace (y + 2922770224 * 100) with (y + 73069255600 * 4) by lia.
  by rewrite (Z_mod_plus_full y 73069255600 4).
Qed.

Lemma absYear_spec a :
  0 ≤ a < 2 ^ 64 →
  yearStart (time.absYear a).1 + (time.absYear a).2 + absDays
  = a / time.secondsPerDay
  ∧ 0 ≤ (time.absYear a).2 < yearLength (time.absYear a).1.
Proof.
  intros Ha. change (2 ^ 64) with 18446744073709551616 in Ha.
  rewrite <- Z.add_assoc, (Z.add_comm _ absDays), Z.add_assoc.
  unfold yearLength. rewrite yearStart_shift, isLeap_shift.
  unfold time.absYear,
    time.daysPer400Years, time.daysPer100Years, time.daysPer4Years,
    time.secondsPerDay.
  rewrite !Z.shiftr_div_pow2 by lia. change (2 ^ 2) with 4.
  cbv zeta. cbn [fst snd].
  set (d := a / 86400).
  assert (Hd : 0 ≤ d < 213503982334602)
    by (subst d; Z.to_euclidean_division_equations; lia).
  clearbody d. clear Ha a.
  match goal with
  | |- context [?y + time.absoluteZeroYear - time.absoluteZeroYear] =>
      replace (y + time.absoluteZeroYear - time.absoluteZeroYear) with y by lia
  end.
  repeat match goal with
         | |- context [Z.eqb ?a ?b] => destruct (Z.eqb_spec a b)
         end; cbn [andb orb negb];
  (Z.to_euclidean_division_equations; lia).
Qed.

Lemma daysBeforeMonth_monthStart year month :
  daysBeforeMonth year month = monthStart (time.isLeap year) month.
Proof. reflexivity. Qed.

Lemma daysIn_monthLength year month :
  daysIn year month = monthLength (time.isLeap year) month.
Proof. reflexivity. Qed.

Lemma absDate_monthDay a :
  time.absDate a
  = ((time.absYear a).1,
     (monthDay (time.isLeap (time.absYear a).1) (time.absYear a).2).1,
     (monthDay (time.isLeap (time.absYear a).1) (time.absYear a).2).2).
Proof.
  unfold time.absDate, monthDay.
  destruct (time.absYear a) as [y yd]. cbn [fst snd].
  destruct (time.isLeap y && (yd =? 31 + 29 - 1)); [done|].
  cbv zeta.
  by destruct (_ <=? _).
Qed.

Lemma monthDay_ok_all (leap : bool) :
  forallb (fun k => monthDay_ok leap (Z.of_nat k))
          (seq 0 (if leap then 366 else 365)%nat) = true.
Proof. destruct leap; vm_compute; reflexivity. Qed.

Lemma monthDay_spec (leap : bool) yday :
  0 ≤ yday < (if leap then 366 else 365) → monthDay_ok leap yday = true.
Proof.
  intros H.
  pose proof (proj1 (List.forallb_forall _ _) (monthDay_ok_all leap)
                (Z.to_nat yday)) as Hall.
  cbv beta in Hall. rewrite Z2Nat.id in Hall by lia.
  apply Hall. apply List.in_seq. destruct leap; lia.
Qed.

Lemma monthDay_inv_all (leap : bool) :
  forallb (fun i => forallb (fun j => monthDay_inv_ok leap (Z.of_nat i)
                                        (Z.of_nat j)) (seq 1 31))
          (seq 1 12) = true.
Proof. destruct leap; vm_compute; reflexivity. Qed.

Lemma monthLength_le leap m : 28 ≤ monthLength leap m ≤ 31.
Proof.
  unfold monthLength. destruct (decide _); [destruct leap; lia|].
  destruct (decide _); lia.
Qed.

Lemma monthDay_inverse (leap : bool) m d :
  1 ≤ m ≤ 12 → 1 ≤ d ≤ monthLength leap m →
  monthDay leap (monthStart leap m + (d - 1)) = (m, d).
Proof.
  intros Hm Hd.
  pose proof (proj1 (List.forallb_forall _ _) (monthDay_inv_all leap)
                (Z.to_nat m)) as H1.
  cbv beta in H1. rewrite Z2Nat.id in H1 by lia.
  specialize (H1 ltac:(apply List.in_seq; lia)).
  pose proof (proj1 (List.forallb_forall _ _) H1 (Z.to_nat d)) as H2.
  cbv beta in H2. rewrite Z2Nat.id in H2 by lia.
  pose proof (monthLength_le leap m).
  specialize (H2 ltac:(apply List.in_seq; lia)).
  apply bool_decide_eq_true in H2. apply H2. lia.
Qed.

Lemma month_bounds_all (leap : bool) :
  forallb (fun i => month_bounds_ok leap (Z.of_nat i)) (seq 1 12) = true.
Proof. destruct leap; vm_compute; reflexivity. Qed.

Lemma month_bounds (leap : bool) m :
  1 ≤ m ≤ 12 →
  0 ≤ monthStart leap m
  ∧ monthStart leap m + monthLength leap m ≤ (if leap then 366 else 365)
  ∧ monthStart leap m
    = time.daysBefore (m - 1) + (if leap && (3 <=? m) then 1 else 0).
Proof.
  intros Hm.
  pose proof (proj1 (List.forallb_forall _ _) (month_bounds_all leap)
                (Z.to_nat m)) as H1.
  cbv beta in H1. rewrite Z2Nat.id in H1 by lia.
  specialize (H1 ltac:(apply List.in_seq; lia)).
  by apply bool_decide_eq_true in H1.
Qed.

(** [absDate] gives the day of the calendar with the day number of the
    count. *)
Lemma absDate_spec a :
  0 ≤ a < 2 ^ 64 →
  let '(y, m, d) := time.absDate a in
  valid_date y m d ∧ dayNumber y m d + absDays = a / time.secondsPerDay.
Proof.
  intros Ha. rewrite absDate_monthDay.
  destruct (absYear_spec a Ha) as [H1 H2].
  destruct (time.absYear a) as [y yd]. cbn [fst snd] in *.
  pose proof (monthDay_spec (time.isLeap y) yd H2) as Hok.
  unfold monthDay_ok in Hok. destruct (monthDay _ yd) as [m d]. cbn [fst snd].
  apply andb_prop in Hok as [[Hm%bool_decide_eq_true Hd%bool_decide_eq_true]%andb_prop
    Heq%bool_decide_eq_true].
  split; [done|]. unfold dayNumber. rewrite daysBeforeMonth_monthStart. lia.
Qed.

(** A day number is that of one day of the calendar only. *)
Lemma dayNumber_inj y1 m1 d1 y2 m2 d2 :
  valid_date y1 m1 d1 → valid_date y2 m2 d2 →
  dayNumber y1 m1 d1 = dayNumber y2 m2 d2 →
  y1 = y2 ∧ m1 = m2 ∧ d1 = d2.
Proof.
  intros [Hm1 Hd1] [Hm2 Hd2]. unfold dayNumber.
  rewrite !daysBeforeMonth_monthStart. rewrite daysIn_monthLength in Hd1, Hd2.
  pose proof (month_bounds (time.isLeap y1) m1 Hm1) as (A1 & B1 & _).
  pose proof (month_bounds (time.isLeap y2) m2 Hm2) as (A2 & B2 & _).
  fold (yearLength y1) in B1. fold (yearLength y2) in B2.
  intros Heq.
  assert (y1 = y2) as ->.
  { destruct (Z.lt_trichotomy y1 y2) as [Hlt|[->|Hgt]]; [|done|].
    - pose proof (yearStart_succ y1).
      pose proof (yearStart_mono (y1 + 1) y2 ltac:(lia)). lia.
    - pose proof (yearStart_succ y2).
      pose proof (yearStart_mono (y2 + 1) y1 ltac:(lia)). lia. }
  split; [done|].
  pose proof (monthDay_inverse (time.isLeap y2) m1 d1 Hm1 Hd1) as E1.
  pose proof (monthDay_inverse (time.isLeap y2) m2 d2 Hm2 Hd2) as E2.
  replace (monthStart (time.isLeap y2) m1 + (d1 - 1))
    with (monthStart (time.isLeap y2) m2 + (d2 - 1)) in E1 by lia.
  rewrite E1 in E2. by injection E2.
Qed.

Lemma norm_spec hi lo base :
  0 < base ≤ 2 ^ 31 →
  - 2 ^ 61 ≤ hi ≤ 2 ^ 61 → - 2 ^ 61 ≤ lo ≤ 2 ^ 61 →
  time.norm hi lo base = (hi + lo / base, lo mod base).
Proof.
  intros Hb Hhi Hlo. unfold time.norm.
  change (2 ^ 61) with 2305843009213693952 in *.
  change (2 ^ 31) with 2147483648 in *.
  destruct (lo <? 0) eqn:E1.
  - apply Z.ltb_lt in E1.
    rewrite (int64_id (- lo - 1))
      by (change (2 ^ 63) with 9223372036854775808; lia).
    rewrite Z.quot_div_nonneg by lia.
    assert (Hq : lo / base = - ((- lo - 1) / base + 1)
                 ∧ 0 ≤ (- lo - 1) / base ≤ - lo - 1).
    { pose proof (Z.div_mod (- lo - 1) base ltac:(lia)) as Hdm.
      pose proof (Z.mod_pos_bound (- lo - 1) base ltac:(lia)) as Hr.
      pose proof (Z.div_pos (- lo - 1) base ltac:(lia) ltac:(lia)) as Hq0.
      split.
      - symmetry.
        apply (Z.div_unique lo base _ (base - 1 - (- lo - 1) mod base));
          [lia|nia].
      - split; [done|]. nia. }
    destruct Hq as [Hq Hq'].
    rewrite (int64_id ((- lo - 1) / base + 1))
      by (change (2 ^ 63) with 9223372036854775808; lia).
    rewrite (int64_id (hi - _))
      by (change (2 ^ 63) with 9223372036854775808; lia).
    assert (Hm : lo + ((- lo - 1) / base + 1) * base = lo mod base).
    { rewrite (Z.mod_eq lo base) by lia. rewrite Hq. lia. }
    rewrite Hm.
    pose proof (Z.mod_pos_bound lo base ltac:(lia)) as Hr.
    rewrite (int64_id (lo mod base))
      by (change (2 ^ 63) with 9223372036854775808; lia).
    destruct (base <=? lo mod base) eqn:E2; [apply Z.leb_le in E2; lia|].
    f_equal. lia.
  - apply Z.ltb_ge in E1.
    destruct (base <=? lo) eqn:E2.
    + apply Z.leb_le in E2. rewrite Z.quot_div_nonneg by lia.
      assert (0 ≤ lo / base ≤ lo) by (Z.to_euclidean_division_equations; nia).
      rewrite !int64_id; change (2 ^ 63) with 9223372036854775808.
      * f_equal. rewrite (Z.mod_eq lo base) by lia. lia.
      * pose proof (Z.mod_pos_bound lo base ltac:(lia)).
        rewrite (Z.mod_eq lo base) in * by lia. lia.
      * lia.
    + apply Z.leb_gt in E2. rewrite Z.div_small, Z.mod_small by lia.
      f_equal. lia.
Qed.

(** *** [Date], [AddDate], [Add] and [Format] on a clock in range *)

Lemma norm_id hi lo base : 0 ≤ lo < base → time.norm hi lo base = (hi, lo).
Proof.
  intros H. unfold time.norm.
  destruct (lo <? 0) eqn:E1; [apply Z.ltb_lt in E1; lia|].
  destruct (base <=? lo) eqn:E2; [apply Z.leb_le in E2; lia|]. done.
Qed.

Lemma int64_wraps a c :
  - 2 ^ 63 ≤ a + c ≤ 2 ^ 63 - 1 → int64 (int64 (uint64 a) + c) = a + c.
Proof.
  intros H. rewrite int64_add_l.
  rewrite <- (int64_id (a + c)) by done.
  rewrite <- int64_add_l, int64_uint64, int64_add_l. done.
Qed.

Lemma abs_mk s ns l :
  - 2 ^ 60 ≤ s ≤ 2 ^ 60 → - 86400 < offsetAt l s < 86400 →
  time.abs (time.mkTime s ns l) = wallAt l s + time.internalToAbsolute.
Proof.
  intros Hs Ho. unfold time.abs, time.unixSec, wallAt, offsetAt in *.
  cbn [time.sec time.loc].
  change (2 ^ 60) with 1152921504606846976 in Hs.
  unfold time.internalToUnix, time.unixToInternal, time.internalToAbsolute
    in *.
  rewrite int64_id by (change (2 ^ 63) with 9223372036854775808; lia).
  replace (s + -62135596800) with (s - 62135596800) by lia.
  destruct (time.lookup l (s - 62135596800)) as [[off st] en].
  cbn [fst] in Ho.
  rewrite uint64_id by (change (2 ^ 64) with 18446744073709551616; lia).
  cbn [fst]. lia.
Qed.

Lemma abs_wall t :
  clock_ok t → time.abs t = wall t + time.internalToAbsolute.
Proof.
  intros (Hs & _ & Ho). destruct t as [s ns l]. cbn [time.sec time.loc] in *.
  apply abs_mk; [|done].
  change (2 ^ 55) with 36028797018963968 in Hs.
  change (2 ^ 60) with 1152921504606846976. lia.
Qed.

Lemma yearStart_bounds y :
  - 2 ^ 33 ≤ y ≤ 2 ^ 33 → - 2 ^ 42 ≤ yearStart y ≤ 2 ^ 42.
Proof.
  change (2 ^ 33) with 8589934592. change (2 ^ 42) with 4398046511104.
  intros H. unfold yearStart. Z.to_euclidean_division_equations; lia.
Qed.

Lemma Date_spec year month day hour min s ns l :
  - 2 ^ 32 ≤ year ≤ 2 ^ 32 → - 2 ^ 32 ≤ month ≤ 2 ^ 32 →
  - 2 ^ 32 ≤ day ≤ 2 ^ 32 →
  0 ≤ hour < 24 → 0 ≤ min < 60 → 0 ≤ s < 60 → 0 ≤ ns < 1000000000 →
  (∀ s, - 86400 < offsetAt l s < 86400) →
  let w := reading year month day (hour * 3600 + min * 60 + s) in
  steady l w →
  time.Date year month day hour min s ns l
  = time.mkTime (w - offsetAt l w) ns l.
Proof.
  intros Hy Hm Hd Hh Hmi Hs Hns Hoff w Hst.
  change (2 ^ 32) with 4294967296 in *.
  unfold time.Date.
  rewrite (int64_id (month - 1))
    by (change (2 ^ 63) with 9223372036854775808; lia).
  rewrite (norm_spec year (month - 1) 12)
    by (change (2 ^ 31) with 2147483648;
        change (2 ^ 61) with 2305843009213693952; lia).
  rewrite (norm_id s ns), (norm_id min s), (norm_id hour min),
    (norm_id day hour) by lia.
  set (year' := year + (month - 1) / 12).
  set (m' := (month - 1) mod 12).
  assert (Hm' : 0 ≤ m' < 12) by (apply Z.mod_pos_bound; lia).
  assert (Hy' : - 2 ^ 33 ≤ year' ≤ 2 ^ 33).
  { change (2 ^ 33) with 8589934592. subst year'.
    Z.to_euclidean_division_equations; lia. }
  change (2 ^ 33) with 8589934592 in Hy'.
  rewrite daysSinceEpoch_yearStart
    by (unfold time.absoluteZeroYear; change (2 ^ 45) with 35184372088832;
        lia).
  pose proof (month_bounds (time.isLeap year') (m' + 1) ltac:(lia))
    as (B1 & B2 & B3).
  replace (m' + 1 - 1) with m' in * by lia.
  set (D := dayNumber year' (m' + 1) day + absDays).
  assert (HD : uint64
                 (uint64 (D * time.secondsPerDay)
                  + uint64 (hour * time.secondsPerHour
                            + min * time.secondsPerMinute + s))
               = uint64 (w + time.internalToAbsolute)).
  { rewrite uint64_add_l, uint64_add_r. f_equal.
    subst w D. unfold reading. fold year' m'.
    unfold absDays, time.internalToAbsolute, time.secondsPerDay,
      time.secondsPerHour, time.secondsPerMinute. lia. }
  assert (Hd' : (if time.isLeap year' && (3 <=? m' + 1)
                 then uint64 (uint64 (yearStart year' + absDays
                                      + time.daysBefore m') + 1)
                 else uint64 (yearStart year' + absDays
                              + time.daysBefore m'))
                = uint64 (yearStart year' + absDays
                          + monthStart (time.isLeap year') (m' + 1))).
  { rewrite B3. destruct (time.isLeap year' && (3 <=? m' + 1)).
    - rewrite uint64_add_l. f_equal. lia.
    - f_equal. lia. }
  rewrite Hd'. clear Hd'.
  rewrite (uint64_add_l (yearStart year' + absDays
                         + monthStart (time.isLeap year') (m' + 1))).
  rewrite (uint64_add_r _ (day - 1)).
  replace (yearStart year' + absDays + monthStart (time.isLeap year') (m' + 1)
           + (day - 1)) with D
    by (subst D; unfold dayNumber; rewrite daysBeforeMonth_monthStart; lia).
  rewrite (uint64_mul_l D), HD.
  pose proof (yearStart_bounds year'
                ltac:(change (2 ^ 33) with 8589934592; lia)) as Hys.
  change (2 ^ 42) with 4398046511104 in Hys.
  assert (Hw : - 2 ^ 60 ≤ w ≤ 2 ^ 60).
  { change (2 ^ 60) with 1152921504606846976.
    subst w. unfold reading, dayNumber. fold year' m'.
    rewrite daysBeforeMonth_monthStart.
    pose proof (monthLength_le (time.isLeap year') (m' + 1)).
    destruct (time.isLeap year'); lia. }
  change (2 ^ 60) with 1152921504606846976 in Hw.
  rewrite int64_wraps
    by (unfold time.internalToAbsolute, time.absoluteToInternal,
          time.internalToUnix;
        change (2 ^ 63) with 9223372036854775808; lia).
  replace (w + time.internalToAbsolute
           + (time.absoluteToInternal + time.internalToUnix))
    with (w - time.unixToInternal)
    by (unfold time.internalToAbsolute, time.absoluteToInternal,
          time.internalToUnix, time.unixToInternal; lia).
  unfold steady in Hst. pose proof (Hoff w) as Ho. unfold offsetAt in Hst, Ho.
  unfold offsetAt.
  destruct (time.lookup l (w - time.unixToInternal)) as [[off st] en].
  cbn [fst] in *.
  unfold time.unixToInternal in *.
  destruct (decide (off = 0)) as [->|Hne].
  - rewrite int64_id by (change (2 ^ 63) with 9223372036854775808; lia).
    f_equal. lia.
  - rewrite (int64_id (w - 62135596800 - off))
      by (change (2 ^ 63) with 9223372036854775808; lia).
    replace (w - 62135596800 - off) with (w - off - 62135596800) by lia.
    assert (Hoff' : (if (w - off - 62135596800 <? st)
                        || (en <=? w - off - 62135596800)
                     then (time.lookup l (w - off - 62135596800)).1.1
                     else off) = off).
    { destruct (_ || _); [exact Hst|done]. }
    rewrite Hoff'.
    rewrite (int64_id (w - 62135596800 - off))
      by (change (2 ^ 63) with 9223372036854775808; lia).
    rewrite int64_id by (change (2 ^ 63) with 9223372036854775808; lia).
    f_equal. lia.
Qed.

Lemma absDate_wall w y m d :
  - 2 ^ 60 ≤ w ≤ 2 ^ 60 →
  valid_date y m d → dayNumber y m d = w / 86400 →
  time.absDate (w + time.internalToAbsolute) = (y, m, d).
Proof.
  intros Hw Hv Hn.
  change (2 ^ 60) with 1152921504606846976 in Hw.
  pose proof (absDate_spec (w + time.internalToAbsolute)) as H.
  destruct (time.absDate _) as [[y' m'] d'].
  destruct H as [Hv' Hn'].
  { unfold time.internalToAbsolute.
    change (2 ^ 64) with 18446744073709551616. lia. }
  assert (E : (w + time.internalToAbsolute) / time.secondsPerDay
              = w / 86400 + absDays).
  { unfold time.internalToAbsolute, time.secondsPerDay, absDays.
    replace 9223371966579724800 with (106751990353932 * 86400) by lia.
    by rewrite Z.div_add by lia. }
  rewrite E in Hn'.
  destruct (dayNumber_inj y' m' d' y m d Hv' Hv ltac:(lia)) as (-> & -> & ->).
  done.
Qed.

Lemma absDate_wall_ex w :
  - 2 ^ 60 ≤ w ≤ 2 ^ 60 →
  ∃ y m d, valid_date y m d ∧ dayNumber y m d = w / 86400.
Proof.
  intros Hw. change (2 ^ 60) with 1152921504606846976 in Hw.
  pose proof (absDate_spec (w + time.internalToAbsolute)) as H.
  destruct (time.absDate _) as [[y' m'] d'].
  destruct H as [Hv' Hn'].
  { unfold time.internalToAbsolute.
    change (2 ^ 64) with 18446744073709551616. lia. }
  exists y', m', d'. split; [done|].
  assert (E : (w + time.internalToAbsolute) / time.secondsPerDay
              = w / 86400 + absDays).
  { unfold time.internalToAbsolute, time.secondsPerDay, absDays.
    replace 9223371966579724800 with (106751990353932 * 86400) by lia.
    by rewrite Z.div_add by lia. }
  lia.
Qed.

Lemma absClock_wall w :
  - 2 ^ 60 ≤ w ≤ 2 ^ 60 →
  let '(h, mi, s) := time.absClock (w + time.internalToAbsolute) in
  0 ≤ h < 24 ∧ 0 ≤ mi < 60 ∧ 0 ≤ s < 60
  ∧ h = w mod 86400 / 3600 ∧ mi = w mod 3600 / 60 ∧ s = w mod 60
  ∧ h * 3600 + mi * 60 + s = w mod 86400.
Proof.
  intros Hw. unfold time.absClock, time.secondsPerDay, time.secondsPerHour,
    time.secondsPerMinute, time.internalToAbsolute. cbv zeta.
  replace 9223371966579724800 with (106751990353932 * 86400) by lia.
  rewrite Z_mod_plus_full.
  Z.to_euclidean_division_equations; lia.
Qed.

Lemma clock_ok_wall t :
  clock_ok t → - 36028797019050368 ≤ wall t ≤ 36028797019050368.
Proof.
  intros (Hs & _ & Ho). unfold wall, wallAt. specialize (Ho (time.sec t)).
  change (2 ^ 55) with 36028797018963968 in Hs. lia.
Qed.

Lemma shows_year t y m d :
  clock_ok t → shows t y m d →
  - 2 ^ 31 ≤ y ≤ 2 ^ 31 ∧ 1 ≤ m ≤ 12 ∧ 1 ≤ d ≤ 31.
Proof.
  intros Hok [[Hm Hd] Hn]. pose proof (clock_ok_wall t Hok) as Hw.
  change (2 ^ 31) with 2147483648.
  rewrite daysIn_monthLength in Hd.
  pose proof (monthLength_le (time.isLeap y) m).
  split; [|lia].
  unfold dayNumber in Hn. rewrite daysBeforeMonth_monthStart in Hn.
  pose proof (month_bounds (time.isLeap y) m Hm) as (B1 & B2 & _).
  assert (0 ≤ monthStart (time.isLeap y) m + (d - 1) < 366)
    by (destruct (time.isLeap y); lia).
  unfold yearStart in Hn.
  Z.to_euclidean_division_equations; lia.
Qed.

Lemma Date_of_shows t y m d :
  clock_ok t → shows t y m d → time.Date_of t = (y, m, d).
Proof.
  intros Hok [Hv Hn]. unfold time.Date_of. rewrite abs_wall by done.
  pose proof (clock_ok_wall t Hok) as Hw.
  apply absDate_wall; [|done..].
  change (2 ^ 60) with 1152921504606846976. lia.
Qed.

(** What [AddDate] returns: the instant at which the location shows the
    reading asked for. *)
Lemma AddDate_spec t years months days y m d :
  clock_ok t → shows t y m d →
  - 2 ^ 31 ≤ years ≤ 2 ^ 31 → - 2 ^ 31 ≤ months ≤ 2 ^ 31 →
  - 2 ^ 31 ≤ days ≤ 2 ^ 31 →
  let w := reading (y + years) (m + months) (d + days) (wall t mod 86400) in
  steady (time.loc t) w →
  time.AddDate t years months days
  = time.mkTime (w - offsetAt (time.loc t) w) (time.nsec t) (time.loc t).
Proof.
  intros Hok Hsh Hy Hm Hd w Hst.
  pose proof (shows_year t y m d Hok Hsh) as (By & Bm & Bd).
  pose proof (clock_ok_wall t Hok) as Hw.
  change (2 ^ 31) with 2147483648 in *.
  unfold time.AddDate. rewrite (Date_of_shows t y m d) by done.
  unfold time.Clock. rewrite abs_wall by done.
  pose proof (absClock_wall (wall t)
                ltac:(change (2 ^ 60) with 1152921504606846976; lia)) as Hc.
  destruct (time.absClock _) as [[h mi] s].
  destruct Hc as (Hh & Hmi & Hs & _ & _ & _ & Htod).
  rewrite !int64_id by (change (2 ^ 63) with 9223372036854775808; lia).
  destruct Hok as (_ & Hns & Ho).
  subst w. rewrite <- Htod in *.
  apply Date_spec; try done; change (2 ^ 32) with 4294967296; lia.
Qed.

Lemma two_digits_all :
  forallb (fun i => two_digits_ok (Z.of_nat i)) (seq 0 100) = true.
Proof. vm_compute. reflexivity. Qed.

Lemma appendInt_two x : 0 ≤ x < 100 → time.appendInt x 2 = two_digits x.
Proof.
  intros Hx.
  pose proof (proj1 (List.forallb_forall _ _) two_digits_all (Z.to_nat x))
    as H1.
  cbv beta in H1. rewrite Z2Nat.id in H1 by lia.
  specialize (H1 ltac:(apply List.in_seq; lia)).
  by apply bool_decide_eq_true in H1.
Qed.

Lemma four_digits_all :
  forallb (fun i => four_digits_ok (Z.of_nat i)) (seq 0 (Z.to_nat 10000)) = true.
Proof. vm_compute. reflexivity. Qed.

Lemma appendInt_four x : 0 ≤ x < 10000 → time.appendInt x 4 = four_digits x.
Proof.
  intros Hx.
  pose proof (proj1 (List.forallb_forall _ _) four_digits_all (Z.to_nat x))
    as H1.
  cbv beta in H1. rewrite Z2Nat.id in H1 by lia.
  specialize (H1 ltac:(apply List.in_seq; lia)).
  by apply bool_decide_eq_true in H1.
Qed.

(** The text of [Format] for the date layout, by the day the wall clock
    shows. *)
Lemma Format_date_shows s ns l y m d :
  - 2 ^ 59 ≤ s ≤ 2 ^ 59 → - 86400 < offsetAt l s < 86400 →
  valid_date y m d → dayNumber y m d = wallAt l s / 86400 →
  0 ≤ y ≤ 9999 →
  time.Format_date (time.mkTime s ns l) = date_text y m d.
Proof.
  intros Hs Ho Hv Hn Hy. unfold time.Format_date.
  change (2 ^ 59) with 576460752303423488 in Hs.
  rewrite abs_mk by (try done; change (2 ^ 60) with 1152921504606846976; lia).
  rewrite (absDate_wall _ y m d); try done.
  - destruct Hv as [Hm Hd]. rewrite daysIn_monthLength in Hd.
    pose proof (monthLength_le (time.isLeap y) m).
    unfold date_text.
    by rewrite appendInt_four, !appendInt_two by lia.
  - unfold wallAt. change (2 ^ 60) with 1152921504606846976. lia.
Qed.

(** The text of [Format] for the clock layout, by the reading of the wall
    clock. *)
Lemma Format_clock_wall s ns l :
  - 2 ^ 59 ≤ s ≤ 2 ^ 59 → - 86400 < offsetAt l s < 86400 →
  time.Format_clock (time.mkTime s ns l)
  = clock_text (wallAt l s mod 86400).
Proof.
  intros Hs Ho. unfold time.Format_clock.
  change (2 ^ 59) with 576460752303423488 in Hs.
  rewrite abs_mk by (try done; change (2 ^ 60) with 1152921504606846976; lia).
  pose proof (absClock_wall (wallAt l s)) as Hc.
  destruct (time.absClock _) as [[h mi] sc].
  destruct Hc as (Hh & Hmi & Hsc & Eh & Emi & Es & _).
  { unfold wallAt. change (2 ^ 60) with 1152921504606846976. lia. }
  unfold clock_text. rewrite !appendInt_two by lia.
  rewrite Eh, Emi, Es.
  set (r := wallAt l s mod 86400).
  assert (0 ≤ r < 86400) by (apply Z.mod_pos_bound; lia).
  replace (r mod 3600 / 60) with (wallAt l s mod 3600 / 60)
    by (subst r; Z.to_euclidean_division_equations; lia).
  replace (r mod 60) with (wallAt l s mod 60)
    by (subst r; Z.to_euclidean_division_equations; lia).
  done.
Qed.

Lemma Add_seconds t k :
  clock_ok t → - 2 ^ 40 ≤ k ≤ 2 ^ 40 →
  time.Add t (k * time.Second)
  = time.mkTime (time.sec t + k) (time.nsec t) (time.loc t).
Proof.
  intros (Hs & Hn & _) Hk. unfold time.Add, time.Second.
  change (2 ^ 55) with 36028797018963968 in Hs.
  change (2 ^ 40) with 1099511627776 in Hk.
  rewrite Z.quot_mul, Z.rem_mul by lia. rewrite Z.add_0_r.
  destruct (1000000000 <=? time.nsec t) eqn:E1; [apply Z.leb_le in E1; lia|].
  destruct (time.nsec t <? 0) eqn:E2; [apply Z.ltb_lt in E2; lia|].
  f_equal. unfold time.addSec.
  rewrite int64_id by (change (2 ^ 63) with 9223372036854775808; lia).
  rewrite bool_decide_eq_true_2; [done|].
  destruct (0 <? k) eqn:E3.
  - apply Z.ltb_lt in E3. apply Z.ltb_lt. lia.
  - apply Z.ltb_ge in E3. apply Z.ltb_ge. lia.
Qed.

(** *** What the tokens stand for *)

(** Well-formedness of a list of segments given in full. *)
Ltac solve_wf :=
  repeat first
    [ apply List.Forall_nil
    | apply List.Forall_cons
    | progress cbn [wf_segment no_match]
    | split
    | intros ?; reflexivity
    | discriminate
    | reflexivity
    | exact I ].

Lemma offset_value_in_range o :
  digits o ≠ "" →
  - 2 ^ 63 ≤ (if neg o then - decimal (digits o) else decimal (digits o))
    ≤ 2 ^ 63 - 1 →
  offset_value o
  = if neg o then - decimal (digits o) else decimal (digits o).
Proof.
  intros Hd Hr. unfold offset_value, clamp64. rewrite decide_False by done.
  lia.
Qed.

(** Every day number is that of one day of the calendar. *)
Lemma dayNumber_bij n :
  - 2 ^ 40 ≤ n ≤ 2 ^ 40 →
  ∃ y m d,
    valid_date y m d ∧ dayNumber y m d = n
    ∧ ∀ y' m' d', valid_date y' m' d' → dayNumber y' m' d' = n →
                  y' = y ∧ m' = m ∧ d' = d.
Proof.
  intros Hn. change (2 ^ 40) with 1099511627776 in Hn.
  destruct (absDate_wall_ex (n * 86400)) as (y & m & d & Hv & Hd).
  { change (2 ^ 60) with 1152921504606846976. lia. }
  rewrite Z.div_mul in Hd by lia.
  exists y, m, d. split; [done|]. split; [done|].
  intros y' m' d' Hv' Hd'. apply dayNumber_inj; [done..|lia].
Qed.

(** The text of a date token: the day of the calendar that has the day
    number asked for. *)
Lemma date_token_text t o1 o2 o3 year month day y' m' d' :
  clock_ok t → shows t year month day →
  - 10 ^ 9 ≤ offset_value o1 ≤ 10 ^ 9 →
  - 10 ^ 9 ≤ offset_value o2 ≤ 10 ^ 9 →
  - 10 ^ 9 ≤ offset_value o3 ≤ 10 ^ 9 →
  let year2 := year + offset_value o1 + (month - 1 + offset_value o2) / 12 in
  let month2 := (month - 1 + offset_value o2) mod 12 + 1 in
  let n := dayNumber year2 month2 (day + offset_value o3) in
  steady (time.loc t) (n * 86400 + wall t mod 86400) →
  valid_date y' m' d' → dayNumber y' m' d' = n → 0 ≤ y' ≤ 9999 →
  expansion t (Token "date" o1 o2 o3) = date_text y' m' d'.
Proof.
  intros Hok Hsh H1 H2 H3 year2 month2 n Hst Hv Hn Hy.
  change (10 ^ 9) with 1000000000 in *.
  cbn [expansion]. rewrite decide_True by done.
  pose proof (shows_year t year month day Hok Hsh) as (By & Bm & Bd).
  change (2 ^ 31) with 2147483648 in By.
  assert (Hw : reading (year + offset_value o1) (month + offset_value o2)
                 (day + offset_value o3) (wall t mod 86400)
               = n * 86400 + wall t mod 86400).
  { unfold reading. subst n year2 month2.
    replace (month + offset_value o2 - 1) with (month - 1 + offset_value o2)
      by lia.
    done. }
  rewrite (AddDate_spec t _ _ _ year month day Hok Hsh)
    by (rewrite ?Hw; try done; change (2 ^ 31) with 2147483648; lia).
  rewrite Hw.
  set (w := n * 86400 + wall t mod 86400) in *.
  pose proof (Z.mod_pos_bound (wall t) 86400 ltac:(lia)) as Htod.
  assert (Hy2 : - 2 ^ 33 ≤ year2 ≤ 2 ^ 33).
  { change (2 ^ 33) with 8589934592. subst year2.
    Z.to_euclidean_division_equations; lia. }
  pose proof (yearStart_bounds year2 Hy2) as Hys.
  change (2 ^ 42) with 4398046511104 in Hys.
  assert (Hm2 : 1 ≤ month2 ≤ 12).
  { subst month2.
    pose proof (Z.mod_pos_bound (month - 1 + offset_value o2) 12 ltac:(lia)).
    lia. }
  pose proof (month_bounds (time.isLeap year2) month2 Hm2) as (B1 & B2 & _).
  pose proof (monthLength_le (time.isLeap year2) month2) as B3.
  assert (Hnb : - 4400000000000 ≤ n ≤ 4400000000000).
  { subst n. unfold dayNumber. rewrite daysBeforeMonth_monthStart.
    destruct (time.isLeap year2); lia. }
  destruct Hok as (_ & _ & Ho).
  pose proof (Ho w) as Ho1. pose proof (Ho (w - offsetAt (time.loc t) w)) as Ho2.
  apply Format_date_shows; try done.
  - change (2 ^ 59) with 576460752303423488. lia.
  - unfold wallAt. rewrite Hst.
    replace (w - offsetAt (time.loc t) w + offsetAt (time.loc t) w) with w
      by lia.
    rewrite Hn. subst w. rewrite Z.add_comm, Z.div_add by lia.
    rewrite Z.div_small by lia. done.
Qed.

(** The text of a time token: the reading of the wall clock at the
    instant of the clock put forward by the offsets. *)
Lemma time_token_text t o1 o2 o3 :
  clock_ok t →
  - 10 ^ 6 ≤ offset_value o1 ≤ 10 ^ 6 →
  - 10 ^ 6 ≤ offset_value o2 ≤ 10 ^ 6 →
  - 10 ^ 6 ≤ offset_value o3 ≤ 10 ^ 6 →
  let seconds := offset_value o1 * 3600 + offset_value o2 * 60
                 + offset_value o3 in
  expansion t (Token "time" o1 o2 o3)
  = clock_text (wallAt (time.loc t) (time.sec t + seconds) mod 86400).
Proof.
  intros Hok H1 H2 H3 seconds.
  change (10 ^ 6) with 1000000 in *.
  cbn [expansion]. rewrite decide_False by done. rewrite decide_True by done.
  unfold time.Hour, time.Minute, time.Second.
  rewrite (int64_id (offset_value o1 * _)), (int64_id (offset_value o2 * _)),
    (int64_id (offset_value o3 * _))
    by (change (2 ^ 63) with 9223372036854775808; lia).
  rewrite (int64_id (offset_value o1 * _ + _))
    by (change (2 ^ 63) with 9223372036854775808; lia).
  rewrite (int64_id (offset_value o1 * _ + _ + _))
    by (change (2 ^ 63) with 9223372036854775808; lia).
  replace (offset_value o1 * (60 * (60 * 1000000000))
           + offset_value o2 * (60 * 1000000000)
           + offset_value o3 * 1000000000)
    with (seconds * time.Second) by (unfold seconds, time.Second; lia).
  rewrite Add_seconds
    by (try done; change (2 ^ 40) with 1099511627776; lia).
  destruct Hok as (Hs & _ & Ho).
  change (2 ^ 55) with 36028797018963968 in Hs.
  apply Format_clock_wall; [|apply Ho].
  change (2 ^ 59) with 576460752303423488. lia.
Qed.

(** C6. In a string made of plain text and well-formed tokens, a token
    being two opening braces, a unit of word bytes, a colon, three offsets
    separated by commas (each a minus sign or none, then digits) and two
    closing braces, [parseDateTimeString] replaces every token of unit
    date by the date of the clock advanced by its three offsets in years,
    months and days, written YYYY-MM-DD, and every token of unit time by
    the time of day of the clock advanced by its offsets in hours, minutes
    and seconds, written HH:MM:SS; the plain text, which is any text the
    pattern does not match in, and the tokens of another unit are left as
    they are. An offset is the number its digits write, read into an
    [int64]. A string in which the pattern has no match is returned
    unchanged, malformed tokens with it.

    What a token stands for is stated on the calendar and on the clock
    face. With the wall clock of the location showing the day [day] of
    [month] of [year], a date token with offsets of up to a thousand
    million is the day of the calendar that is [day] plus the days of the
    token, counted from the first of the month that is [month] plus the
    months of the token, itself counted from the January of the year that
    is [year] plus the years of the token: months past December count on
    into the following years and days past the end of the month into the
    following months. Every day number is that of one day of the
    calendar, and of one only. This holds where the time of day of the
    clock is a steady reading on the day arrived at, so not where a
    change of the offset of the location makes the clocks skip that
    reading or show it twice. A time token with offsets of up to a
    million is the reading of the wall clock at the instant of the clock
    put forward by the hours, minutes and seconds of the token, taken
    modulo a day; the offset of the location is the one in use at that
    instant. Larger offsets, and clocks a thousand million years away,
    run into the wrap-around of the library's 64-bit counts. On a clock
    showing 2024-03-15 the string of Scenario E expands to the day
    before. *)
Theorem placeholders_expanded :
  (∀ t segs,
     Forall wf_segment segs →
     parseDateTimeString t (text segs) = expanded t segs)
  ∧ (∀ t o1 o2 o3,
       expansion t (Token "date" o1 o2 o3)
       = time.Format_date
           (time.AddDate t (offset_value o1) (offset_value o2)
              (offset_value o3))
       ∧ expansion t (Token "time" o1 o2 o3)
         = time.Format_clock
             (time.Add t
                (int64 (int64 (int64 (offset_value o1 * time.Hour)
                               + int64 (offset_value o2 * time.Minute))
                        + int64 (offset_value o3 * time.Second)))))
  ∧ (∀ t o1 o2 o3 year month day y' m' d',
       clock_ok t → shows t year month day →
       - 10 ^ 9 ≤ offset_value o1 ≤ 10 ^ 9 →
       - 10 ^ 9 ≤ offset_value o2 ≤ 10 ^ 9 →
       - 10 ^ 9 ≤ offset_value o3 ≤ 10 ^ 9 →
       let year2 := year + offset_value o1
                    + (month - 1 + offset_value o2) / 12 in
       let month2 := (month - 1 + offset_value o2) mod 12 + 1 in
       let n := dayNumber year2 month2 (day + offset_value o3) in
       steady (time.loc t) (n * 86400 + wall t mod 86400) →
       valid_date y' m' d' → dayNumber y' m' d' = n → 0 ≤ y' ≤ 9999 →
       expansion t (Token "date" o1 o2 o3) = date_text y' m' d')
  ∧ (∀ n,
       - 2 ^ 40 ≤ n ≤ 2 ^ 40 →
       ∃ y m d,
         valid_date y m d ∧ dayNumber y m d = n
         ∧ ∀ y' m' d', valid_date y' m' d' → dayNumber y' m' d' = n →
                       y' = y ∧ m' = m ∧ d' = d)
  ∧ (∀ t o1 o2 o3,
       clock_ok t →
       - 10 ^ 6 ≤ offset_value o1 ≤ 10 ^ 6 →
       - 10 ^ 6 ≤ offset_value o2 ≤ 10 ^ 6 →
       - 10 ^ 6 ≤ offset_value o3 ≤ 10 ^ 6 →
       let seconds := offset_value o1 * 3600 + offset_value o2 * 60
                      + offset_value o3 in
       expansion t (Token "time" o1 o2 o3)
       = clock_text (wallAt (time.loc t) (time.sec t + seconds) mod 86400))
  ∧ (∀ o,
       digits o ≠ "" →
       - 2 ^ 63 ≤ (if neg o then - decimal (digits o) else decimal (digits o))
         ≤ 2 ^ 63 - 1 →
       offset_value o
       = if neg o then - decimal (digits o) else decimal (digits o))
  ∧ (∀ t data,
       regexp.FindAllStringSubmatch data = [] →
       parseDateTimeString t data = data)
  ∧ (∀ t,
       parseDateTimeString t
         "{{date:1,2}} {{date:+1,0,0}} {{date:1.5,0,0}} {date:1,2,3} {{day:1,2,3}}"
       = "{{date:1,2}} {{date:+1,0,0}} {{date:1.5,0,0}} {date:1,2,3} {{day:1,2,3}}")
  ∧ (∀ t,
       parseDateTimeString t
         "from {{date:0,0,0}} to {{date:1,-2,30}}, {{date:1,2}} at {{time:-1,0,90}}"
       = "from " +:+ time.Format_date (time.AddDate t 0 0 0)
           +:+ " to " +:+ time.Format_date (time.AddDate t 1 (-2) 30)
           +:+ ", {{date:1,2}} at "
           +:+ time.Format_clock
                 (time.Add t (- time.Hour + 90 * time.Second)))
  ∧ (∀ t,
       clock_ok t → shows t 2024 3 15 →
       steady (time.loc t) (dayNumber 2024 3 14 * 86400 + wall t mod 86400) →
       parseDateTimeString t "built on {{date:0,0,-1}}"
       = "built on 2024-03-14").
Proof.
  split; [exact parseDateTimeString_segments|].
  split; [done|].
  split; [exact date_token_text|].
  split; [exact dayNumber_bij|].
  split; [exact time_token_text|].
  split; [exact offset_value_in_range|].
  split; [exact parseDateTimeString_no_token|].
  split; [|split].
  - intros t. vm_compute. reflexivity.
  - intros t.
    pose proof (parseDateTimeString_segments t
      [Plain "from ";
       Token "date" (mkOffset false "0") (mkOffset false "0")
         (mkOffset false "0");
       Plain " to ";
       Token "date" (mkOffset false "1") (mkOffset true "2")
         (mkOffset false "30");
       Plain ", {{date:1,2}} at ";
       Token "time" (mkOffset true "1") (mkOffset false "0")
         (mkOffset false "90")]) as H.
    specialize (H ltac:(solve_wf)). etrans; [exact H|].
    cbn [expanded]. rewrite app_empty_r. reflexivity.
  - intros t Hok Hsh Hst.
    pose proof (parseDateTimeString_segments t
      [Plain "built on ";
       Token "date" (mkOffset false "0") (mkOffset false "0")
         (mkOffset true "1")]) as H.
    specialize (H ltac:(solve_wf)). etrans; [exact H|].
    cbn [expanded]. rewrite app_empty_r.
    rewrite (date_token_text t _ _ _ 2024 3 15 2024 3 14); try done.
    all: vm_compute; try split; try discriminate; reflexivity.
Qed.

(** C8. An offset segment with no digits is accepted by the pattern and
    counts as zero: the pattern matches a token whatever digits its three
    offsets have or lack, [ParseInt] gives 0 for a segment without
    digits, and the token is expanded with zero for it and the other
    offsets applied. *)
Theorem empty_offset_is_zero :
  (∀ o, digits o = "" →
        offset_value o = 0 ∧ (strconv.ParseInt (offset_text o)).1 = 0)
  ∧ (∀ unit o1 o2 o3 rest,
       wf_segment (Token unit o1 o2 o3) →
       regexp.matchAt (segment_text (Token unit o1 o2 o3) +:+ rest)
       = Some (group_text unit o1 o2 o3))
  ∧ (∀ t pre post unit o1 o2 o3,
       no_match pre → no_match post →
       wf_segment (Token unit o1 o2 o3) →
       parseDateTimeString t
         (pre +:+ segment_text (Token unit o1 o2 o3) +:+ post)
       = pre +:+ expansion t (Token unit o1 o2 o3) +:+ post)
  ∧ (∀ t, parseDateTimeString t "{{date:,,1}}"
          = time.Format_date (time.AddDate t 0 0 1))
  ∧ (∀ t, parseDateTimeString t "at {{time:-,,}}!"
          = "at " +:+ time.Format_clock (time.Add t 0) +:+ "!").
Proof.
  split; [|split; [|split; [|split]]].
  - intros [[] ds]; cbn [digits]; intros ->; split; reflexivity.
  - intros unit o1 o2 o3 rest. apply matchAt_token.
  - intros t pre post unit o1 o2 o3 Hpre Hpost Hwf.
    pose proof (parseDateTimeString_segments t
                  [Plain pre; Token unit o1 o2 o3; Plain post]) as H.
    cbn [text expanded] in H. rewrite !app_empty_r in H.
    apply H.
    repeat first [apply List.Forall_nil | apply List.Forall_cons]; assumption.
  - intros t.
    pose proof (parseDateTimeString_segments t
      [Token "date" (mkOffset false "") (mkOffset false "")
         (mkOffset false "1")]) as H.
    specialize (H ltac:(solve_wf)). etrans; [exact H|].
    cbn [expanded]. rewrite app_empty_r. reflexivity.
  - intros t.
    pose proof (parseDateTimeString_segments t
      [Plain "at ";
       Token "time" (mkOffset true "") (mkOffset false "")
         (mkOffset false "");
       Plain "!"]) as H.
    specialize (H ltac:(solve_wf)). etrans; [exact H|]. reflexivity.
Qed.

(** * Further properties of the package *)

(** ** The provider chain *)

Lemma getValueDefault_loop_getValue σ provs key d :
  getValueDefault_loop σ provs key d
  = if decide (getValue_loop σ provs key = "") then d
    else getValue_loop σ provs key.
Proof.
  induction provs as [|p provs IH]; [done|]. simpl.
  destruct (Get σ p key) as [v [e|]]; [done|].
  destruct (decide (v = "")) as [->|Hv]; [done|].
  by rewrite decide_False.
Qed.

(** X1. [getValue] is [getValueDefault] with the empty default, and
    [getValueDefault] is [getValue] with the default put in place of the
    empty answer: the two loops ask the same providers in the same order
    and skip the same answers. *)
Theorem getValue_getValueDefault σ key :
  getValue σ key = getValueDefault σ key ""
  ∧ ∀ envDefault,
      getValueDefault σ key envDefault
      = if decide (getValue σ key = "") then envDefault else getValue σ key.
Proof.
  unfold getValue, getValueDefault. split.
  - rewrite getValueDefault_loop_getValue. by destruct (decide _).
  - intros d. apply getValueDefault_loop_getValue.
Qed.

(** X2. What [MapProvider.Set] writes, [MapProvider.Get] reads back, with
    a nil error; the other keys of the provider, the other providers and
    the environment read as before; a second [Set] of the key replaces
    the first; and a key that was never set reads as the empty string, as
    does a key set to the empty string. *)
Theorem MapProvider_Set_Get σ m key value :
  MapProvider_Get (MapProvider_Set m key value σ) m key = (value, None)
  ∧ (∀ key', key' ≠ key →
       MapProvider_Get (MapProvider_Set m key value σ) m key'
       = MapProvider_Get σ m key')
  ∧ (∀ m' key', m' ≠ m →
       MapProvider_Get (MapProvider_Set m key value σ) m' key'
       = MapProvider_Get σ m' key')
  ∧ (∀ key', EnvironmentProvider_Get (MapProvider_Set m key value σ) key'
             = EnvironmentProvider_Get σ key')
  ∧ (∀ value2,
       MapProvider_Set m key value2 (MapProvider_Set m key value σ)
       = MapProvider_Set m key value2 σ)
  ∧ (store_of σ m !! key = None → MapProvider_Get σ m key = ("", None))
  ∧ (store_of σ m !! key = None →
     MapProvider_Get (MapProvider_Set m key "" σ) m key
     = MapProvider_Get σ m key).
Proof.
  unfold MapProvider_Get, MapProvider_Set, store_of. simpl.
  split; [|split; [|split; [|split; [|split; [|split]]]]].
  - rewrite lookup_insert_eq. simpl. by rewrite lookup_insert_eq.
  - intros key' Hne. rewrite lookup_insert_eq. simpl.
    by rewrite lookup_insert_ne.
  - intros m' key' Hne. by rewrite lookup_insert_ne.
  - done.
  - intros value2. unfold set_stores. simpl. f_equal.
    rewrite lookup_insert_eq. simpl.
    by rewrite !insert_insert_eq.
  - by intros ->.
  - intros ->. rewrite lookup_insert_eq. simpl. by rewrite lookup_insert_eq.
Qed.

Lemma Get_set_dataProviders σ ps prov key :
  Get (set_dataProviders ps σ) prov key = Get σ prov key.
Proof. by destruct prov. Qed.

Lemma getValueDefault_loop_set_dataProviders σ ps provs key d :
  getValueDefault_loop (set_dataProviders ps σ) provs key d
  = getValueDefault_loop σ provs key d.
Proof.
  induction provs as [|p provs IH]; [done|]. simpl.
  by rewrite Get_set_dataProviders, IH.
Qed.

Lemma getValueDefault_loop_app σ provs provs' key d :
  getValueDefault_loop σ (provs ++ provs') key d
  = getValueDefault_loop σ provs key (getValueDefault_loop σ provs' key d).
Proof.
  induction provs as [|p provs IH]; [done|]. simpl.
  destruct (Get σ p key) as [v [e|]]; [done|].
  by destruct (decide (v = "")).
Qed.

Lemma getValueDefault_loop_elem σ provs p key d :
  p ∈ provs →
  getValueDefault_loop σ provs key (getValueDefault_loop σ [p] key d)
  = getValueDefault_loop σ provs key d.
Proof.
  induction provs as [|q provs IH]; [by intros ?%elem_of_nil|].
  intros Hin. cbn [getValueDefault_loop].
  destruct (Get σ q key) as [v [e|]] eqn:Hq.
  - apply elem_of_cons in Hin as [->|Hin]; [|by apply IH].
    by rewrite Hq.
  - destruct (decide (v = "")) as [->|Hv]; [|done].
    apply elem_of_cons in Hin as [->|Hin]; [|by apply IH].
    rewrite Hq. by rewrite decide_True.
Qed.

(** X3. [AddDataProvider] gives the new provider the lowest priority: it
    is asked only when no provider already in the chain yields a value,
    and before the default is taken. Adding a provider that is already in
    the chain changes no answer. After [ClearDataProviders] every key
    resolves to its default, and the provider added next is the whole
    chain. *)
Theorem AddDataProvider_lowest_priority σ p key envDefault :
  getValueDefault (AddDataProvider p σ) key envDefault
  = getValueDefault σ key
      (match Get σ p key with
       | (v, None) => if decide (v = "") then envDefault else v
       | (_, Some _) => envDefault
       end)
  ∧ (p ∈ dataProviders σ →
     getValueDefault (AddDataProvider p σ) key envDefault
     = getValueDefault σ key envDefault)
  ∧ getValueDefault (ClearDataProviders σ) key envDefault = envDefault
  ∧ dataProviders (AddDataProvider p (ClearDataProviders σ)) = [p].
Proof.
  assert (H : getValueDefault (AddDataProvider p σ) key envDefault
              = getValueDefault_loop σ (dataProviders σ) key
                  (getValueDefault_loop σ [p] key envDefault)).
  { unfold getValueDefault, AddDataProvider.
    rewrite getValueDefault_loop_set_dataProviders.
    cbn [dataProviders set_dataProviders].
    apply getValueDefault_loop_app. }
  repeat split.
  - rewrite H. unfold getValueDefault. cbn [getValueDefault_loop].
    by destruct (Get σ p key) as [v [e|]].
  - intros Hin. rewrite H. by apply getValueDefault_loop_elem.
Qed.

(** ** Functional options *)

Lemma Defaults_app a b o : Defaults (a ++ b) o = Defaults b (Defaults a o).
Proof. unfold Defaults. apply fold_left_app. Qed.

Lemma Defaults_Set_notin kvs o key :
  key ∉ kvs.*1 →
  DefaultValues (Defaults ((fun kv => Set_ kv.1 kv.2) <$> kvs) o) !! key
  = DefaultValues o !! key.
Proof.
  revert o. induction kvs as [|[k v] kvs IH]; intros o Hnin; [done|].
  cbn [fmap list_fmap fst] in Hnin. apply not_elem_of_cons in Hnin as [Hk Hnin].
  change (DefaultValues
            (Defaults ((fun kv => Set_ kv.1 kv.2) <$> kvs) (Set_ k v o)) !! key
          = DefaultValues o !! key).
  rewrite IH by done. simpl. by rewrite lookup_insert_ne.
Qed.

(** X4. Of the [Set] options handed to [Defaults], the last one for a key
    gives the key its value, a key that none of them names keeps the
    value the options held, [Defaults] of no option changes nothing, and
    nesting [Defaults] is the same as handing over the options in one
    list. *)
Theorem Defaults_last_Set_wins :
  (∀ before key value after o,
     key ∉ after.*1 →
     DefaultValues
       (Defaults ((fun kv => Set_ kv.1 kv.2)
                    <$> (before ++ (key, value) :: after)) o) !! key
     = Some value)
  ∧ (∀ kvs key o,
       key ∉ kvs.*1 →
       DefaultValues (Defaults ((fun kv => Set_ kv.1 kv.2) <$> kvs) o) !! key
       = DefaultValues o !! key)
  ∧ (∀ o, Defaults [] o = o)
  ∧ (∀ a b o, Defaults [Defaults a; Defaults b] o = Defaults (a ++ b) o).
Proof.
  repeat split.
  - intros before key value after o Hnin.
    rewrite fmap_app, Defaults_app, fmap_cons.
    set (o' := Defaults _ o).
    change (DefaultValues
              (Defaults ((fun kv => Set_ kv.1 kv.2) <$> after)
                 (Set_ key value o')) !! key = Some value).
    rewrite Defaults_Set_notin by done. simpl. apply lookup_insert_eq.
  - intros kvs key o. apply Defaults_Set_notin.
  - intros a b o. by rewrite Defaults_app.
Qed.

(** ** The driver *)

Lemma Init_Ok_final options σ σ' e w :
  Init options σ = Ok (σ', e) w → σ' = Init_final options σ ∧ e = None.
Proof.
  intros HI. pose proof (Init_returned options σ) as HR.
  rewrite HI in HR. simpl in HR. by injection HR as -> ->.
Qed.

Lemma Init_final_sources options σ :
  same_sources (Init_state options σ) (Init_final options σ).
Proof. done. Qed.

(** X5. What [Init] keeps and what it discards. It returns a nil error; it
    leaves the environment and the provider chain alone; it merges the
    defaults of its options into the store of [DefaultMapProvider], where
    a key set by an earlier [Init] and not named by this one keeps its
    value; the stores of other map providers are not written; and the
    record it builds does not depend on what [configurationData] held
    before the call, which is overwritten. *)
Theorem Init_keeps_overrides options σ σ' e w :
  Init options σ = Ok (σ', e) w →
  let ops := fold_left (fun o option => option o) options (mkInitOptions ∅) in
  e = None
  ∧ environ σ' = environ σ
  ∧ dataProviders σ' = dataProviders σ
  ∧ (∀ key, store_of σ' DefaultMapProvider !! key
            = match DefaultValues ops !! key with
              | Some v => Some v
              | None => store_of σ DefaultMapProvider !! key
              end)
  ∧ (∀ m, m ≠ DefaultMapProvider → stores σ' !! m = stores σ !! m)
  ∧ (∀ c, Init options (set_configurationData c σ) = Init options σ).
Proof.
  intros [-> ->]%Init_Ok_final ops.
  destruct (fold_Set_spec (DefaultValues ops) _ (Init_state options σ) eq_refl)
    as (H1 & _ & _ & _ & H5 & _ & _ & H8 & H9).
  repeat split; done.
Qed.

(** X6. What ./config.json contributes. A value the file gives for the
    log level, the commit, the branch or the build number is what [Init]
    leaves in the field when no provider yields a value for the field's
    key, and it is left as the file writes it, placeholder tokens
    included; without the file's value the field keeps the package's own
    default. When a provider does yield a value, the field takes that
    value with its tokens expanded. The version never comes from the
    file: the field's default literal stands in whenever no provider
    yields one. *)
Theorem config_file_precedence options σ σ' e w :
  Init options σ = Ok (σ', e) w →
  let f := configFile σ in
  let d := defaultConfiguration σ in
  let db := Build_buildData (Configuration_Build d) in
  let c := configurationData σ' in
  let b := Build_buildData (Configuration_Build c) in
  let field (key old : string) (file : option string) :=
    if decide (getValueDefault σ' key "" = "") then default old file
    else parseDateTimeString (now σ) (getValueDefault σ' key "") in
  LogLevel c = field LOG_LEVEL (LogLevel d) (file_log_level f)
  ∧ Commit b = field COMMIT (Commit db) (file_commit f)
  ∧ Branch b = field BRANCH (Branch db) (file_branch f)
  ∧ BuildNumber b = field BUILD_NUMBER (BuildNumber db) (file_build_number f)
  ∧ Version b = parseDateTimeString (now σ) (getValueDefault σ' VERSION "1.3")
  ∧ defaultConfiguration σ'
    = mkConfiguration
        (default (LogLevel d) (file_log_level f))
        (mkBuild (mkBuildData
           (default (Version db) (file_version f))
           (default (Commit db) (file_commit f))
           (default (Branch db) (file_branch f))
           (default (BuildNumber db) (file_build_number f)))).
Proof.
  intros [-> ->]%Init_Ok_final. cbv zeta.
  set (σp := Init_state options σ).
  assert (Hg : ∀ key dflt,
            getValueDefault (Init_final options σ) key dflt
            = getValueDefault σp key dflt).
  { intros key dflt. apply getValueDefault_same, Init_final_sources. }
  rewrite !Hg.
  destruct (Init_state_frame options σ) as (_ & Hnow & _ & Hc).
  fold σp in Hnow, Hc.
  destruct (fold_Set_spec _ _ σp eq_refl) as (_ & _ & _ & _ & _ & H6 & _).
  change (configurationData (Init_final options σ))
    with (resolve_Configuration σp (configurationData σp)).
  change (defaultConfiguration (Init_final options σ))
    with (defaultConfiguration σp).
  rewrite H6, Hc. unfold resolve_Configuration, resolved. rewrite Hnow.
  cbn [LogLevel Configuration_Build Build_buildData Version Commit Branch
       BuildNumber InitFromConfigFiles defaultConfiguration
       set_defaultConfiguration set_configurationData].
  pose proof (getValueDefault_loop_nonempty σp (dataProviders σp) VERSION
                "1.3") as Hv.
  repeat split; try done.
  rewrite decide_False; [done|]. by apply Hv.
Qed.

(** ** The logger's levels *)

Lemma String_named l :
  log.String (log.Level_value l)
  = match l with
    | log.DEBUG => "DEBUG" | log.INFO => "INFO" | log.WARN => "WARN"
    | log.ERROR => "ERROR" | log.PANIC => "PANIC" | log.FATAL => "FATAL"
    end.
Proof. by destruct l. Qed.

Lemma UnmarshalText_name l0 text l :
  log.ToUpper text = log.String (log.Level_value l) →
  log.UnmarshalText l0 text = (l, true).
Proof.
  rewrite String_named. unfold log.UnmarshalText. intros ->.
  by destruct l.
Qed.

Lemma UnmarshalText_unknown l0 text :
  text ≠ "" →
  (∀ l, log.ToUpper text ≠ log.String (log.Level_value l)) →
  log.UnmarshalText l0 text = (l0, false).
Proof.
  intros Hne Hno. unfold log.UnmarshalText.
  assert (Hu : log.ToUpper text ≠ "") by (by destruct text).
  pose proof (Hno log.DEBUG) as H1. pose proof (Hno log.INFO) as H2.
  pose proof (Hno log.WARN) as H3. pose proof (Hno log.ERROR) as H4.
  pose proof (Hno log.PANIC) as H5. pose proof (Hno log.FATAL) as H6.
  rewrite String_named in H1, H2, H3, H4, H5, H6.
  rewrite !decide_False; [done|done|done|done|done| |done].
  by intros [?|?].
Qed.

Lemma String_unnamed v :
  v < -1 ∨ 4 < v → log.String v = log.Sprintf_Level v.
Proof.
  intros Hv. unfold log.String, log.Level_value.
  by rewrite !decide_False by lia.
Qed.

(** X7. The names of the levels round-trip: [UnmarshalText] reads the
    name [String] prints for each of the six levels, in any mix of upper
    and lower case; it reads the empty text as INFO; and it rejects what
    [String] prints for a value without a name, leaving the level as it
    was. *)
Theorem Level_String_round_trip :
  (∀ l l0, log.UnmarshalText l0 (log.String (log.Level_value l)) = (l, true))
  ∧ (∀ l l0 text,
       log.ToUpper text = log.String (log.Level_value l) →
       log.UnmarshalText l0 text = (l, true))
  ∧ (∀ l0, log.UnmarshalText l0 "" = (log.INFO, true))
  ∧ (∀ v l0, v < -1 ∨ 4 < v →
       log.UnmarshalText l0 (log.String v) = (l0, false)).
Proof.
  split; [|split; [|split]].
  - intros l l0. by destruct l.
  - intros l l0 text. apply UnmarshalText_name.
  - done.
  - intros v l0 Hv. rewrite String_unnamed by done.
    unfold log.UnmarshalText, log.Sprintf_Level.
    set (n := NilZero.string_of_int _ +:+ _).
    change (log.ToUpper ("Level(" +:+ n)) with ("LEVEL(" +:+ log.ToUpper n).
    rewrite !decide_False; [done|..]; try done.
    by intros [?|?].
Qed.

(** X8. [PaddedString] prints a named level in five bytes: its name,
    followed by one blank when the name has four letters. The padded INFO
    and WARN are therefore not read back by [UnmarshalText]. A value
    without a name is printed as [String] prints it. *)
Theorem PaddedString_width :
  (∀ l, String.length (log.PaddedString (log.Level_value l)) = 5%nat
        ∧ log.PaddedString (log.Level_value l)
          = log.String (log.Level_value l)
            +:+ (if decide (String.length (log.String (log.Level_value l))
                            = 4%nat) then " " else ""))
  ∧ (∀ l0, log.UnmarshalText l0 (log.PaddedString (log.Level_value log.INFO))
           = (l0, false)
           ∧ log.UnmarshalText l0
               (log.PaddedString (log.Level_value log.WARN))
             = (l0, false))
  ∧ (∀ v, v < -1 ∨ 4 < v → log.PaddedString v = log.String v).
Proof.
  split; [|split].
  - intros l. by destruct l.
  - done.
  - intros v Hv. rewrite String_unnamed by done.
    unfold log.PaddedString, log.Level_value.
    by rewrite !decide_False by lia.
Qed.

Lemma UnmarshalText_again l0 text :
  (log.UnmarshalText (log.UnmarshalText l0 text).1 text).1
  = (log.UnmarshalText l0 text).1.
Proof.
  unfold log.UnmarshalText.
  repeat (destruct (decide _); [done|]). done.
Qed.

(** X9. [Setup] on the default logger. Running it twice with the same
    configuration is running it once. A nil output and empty formats keep
    what the logger had, but the level text is not treated alike: the
    empty text sets INFO, and only a text that names no level keeps the
    level (the text being of ASCII bytes). On a logger not yet created it
    works on the one [New] makes. *)
Theorem Setup_idempotent (Writer : Type) (Stdout : Writer)
    (config : log.Configurator Writer) :
  (∀ d, log.Setup Writer Stdout config
          (Some (log.Setup Writer Stdout config d))
        = log.Setup Writer Stdout config d)
  ∧ log.Setup Writer Stdout config None
    = log.Setup Writer Stdout config (Some (log.New Writer Stdout))
  ∧ (∀ l,
       log.Output Writer config = None →
       log.TimestampFormat Writer config = "" →
       log.CallerFormat Writer config = "" →
       log.Setup Writer Stdout config (Some l)
       = log.SetLevel Writer
           (log.UnmarshalText (log.logLevel Writer l)
              (log.LogLevel Writer config)).1 l
       ∧ (log.LogLevel Writer config = "" →
          log.GetLevel Writer (log.Setup Writer Stdout config (Some l))
          = log.INFO)
       ∧ (log.LogLevel Writer config ≠ "" →
          ascii_text (log.LogLevel Writer config) →
          (∀ lv, log.ToUpper (log.LogLevel Writer config)
                 ≠ log.String (log.Level_value lv)) →
          log.Setup Writer Stdout config (Some l) = l)).
Proof.
  split; [|split].
  - intros d. unfold log.Setup.
    destruct config as [lv out tf cf]. cbn [log.LogLevel log.Output
      log.TimestampFormat log.CallerFormat].
    destruct out as [o|], (decide (tf = "")), (decide (cf = ""));
      cbn [log.logLevel log.outfile log.timestampFormat log.callerFormat];
      by rewrite UnmarshalText_again.
  - done.
  - intros l Ho Ht Hc. unfold log.Setup. rewrite Ho, Ht, Hc.
    rewrite !decide_True by done. split; [done|]. split.
    + intros ->. done.
    + intros Hne _ Hno. cbn [log.logLevel].
      rewrite UnmarshalText_unknown by done. by destruct l.
Qed.

(** X10. The level [Init] leaves the logger at is read from the log level
    of the record it built and from nothing else: the level a name
    stands for, in any case of letters, INFO for the empty text, and INFO
    as well for a text of ASCII bytes that names no level, whatever level
    the logger had before. *)
Theorem Init_sets_log_level options σ σ' e w :
  Init options σ = Ok (σ', e) w →
  let text := LogLevel (configurationData σ') in
  (∀ l, log.ToUpper text = log.String (log.Level_value l) → logLevel σ' = l)
  ∧ (text = "" → logLevel σ' = log.INFO)
  ∧ (ascii_text text →
     (∀ l, log.ToUpper text ≠ log.String (log.Level_value l)) →
     logLevel σ' = log.INFO).
Proof.
  intros [-> ->]%Init_Ok_final. cbv zeta.
  change (logLevel (Init_final options σ))
    with (log.UnmarshalText log.INFO
            (LogLevel (configurationData (Init_final options σ)))).1.
  set (text := LogLevel _). clearbody text.
  split; [|split].
  - intros l Hl. by rewrite (UnmarshalText_name log.INFO text l Hl).
  - by intros ->.
  - intros _ Hno. destruct (decide (text = "")) as [->|Hne]; [done|].
    by rewrite UnmarshalText_unknown.
Qed.

(** ** The walker *)

Lemma walkStruct_inv σ fl t fs maxDepth v' w :
  walkStruct σ fl t (DStruct fs) maxDepth = Ok v' w →
  ∃ fs' w1,
    walkFields σ fl maxDepth O fs = Ok fs' w1
    ∧ v' = DStruct fs'
    ∧ w = log.mkEntry log.DEBUG "walk: %s %d"
            [log.AStr (reflect.Type_Name t); log.AInt maxDepth] :: w1.
Proof.
  rewrite walkStruct_unfold.
  intros (u & w0 & w1 & Hd & Hrest & ->)%bind_Ok_inv.
  injection Hd as _ <-.
  apply bind_Ok_inv in Hrest as (fs' & w2 & w3 & Hfs & Hret & ->).
  injection Hret as <- <-. exists fs', w2. by rewrite app_nil_r.
Qed.

Lemma walkFields_inv σ fl maxDepth i ft fv fs r w :
  walkFields σ fl maxDepth i ((ft, fv) :: fs) = Ok r w →
  ∃ fv' w1 fs' w2,
    walkField (walkStruct σ) σ maxDepth i (reflect.Field_flag fl ft) ft fv
    = Ok fv' w1
    ∧ walkFields σ fl maxDepth (S i) fs = Ok fs' w2
    ∧ r = (ft, fv') :: fs' ∧ w = w1 ++ w2.
Proof.
  rewrite walkFields_cons.
  intros (fv' & w1 & w2 & Hfv & Hrest & ->)%bind_Ok_inv.
  apply bind_Ok_inv in Hrest as (fs' & w3 & w4 & Hfs & Hret & ->).
  injection Hret as <- <-. exists fv', w1, fs', w3. by rewrite app_nil_r.
Qed.

(** The four ways through the body of the loop. *)
Lemma walkField_inv σ maxDepth i fl ft fv fv' w :
  walkField (walkStruct σ) σ maxDepth i fl ft fv = Ok fv' w →
  let tag := reflect.Get (reflect.Tag ft) "env" in
  let envValue := getValueDefault σ tag (reflect.Get (reflect.Tag ft) "default") in
  ∃ w0,
    w = log.mkEntry log.DEBUG "walk[%d]: %s %s"
          [log.AInt (Z.of_nat i); log.AStr (reflect.Name ft);
           log.AStr (reflect.Type_Name (reflect.Typ ft))] :: w0
    ∧ ((tag = "" ∧ (0 <? maxDepth) && isStruct fv ft = true
        ∧ walkStruct σ fl (reflect.Typ ft) fv (maxDepth - 1) = Ok fv' w0)
       ∨ (tag = "" ∧ (0 <? maxDepth) && isStruct fv ft = false
          ∧ fv' = fv ∧ w0 = [])
       ∨ (tag ≠ "" ∧ envValue = "" ∧ fv' = fv ∧ w0 = [])
       ∨ (tag ≠ "" ∧ envValue ≠ ""
          ∧ ∃ w1,
              w0 = log.mkEntry log.DEBUG "setting %s to %s"
                     [log.AStr (reflect.Name ft); log.AStr envValue] :: w1
              ∧ setValue σ fl fv ft envValue = Ok fv' w1)).
Proof.
  unfold walkField.
  intros (u & w0 & w1 & Hd & Hrest & ->)%bind_Ok_inv.
  injection Hd as _ <-. cbv zeta. exists w1. split; [done|].
  destruct (decide (reflect.Get (reflect.Tag ft) "env" = "")) as [Htag|Htag].
  - destruct ((0 <? maxDepth) && isStruct fv ft) eqn:Hrec.
    + left. done.
    + right. left. by injection Hrest as <- <-.
  - destruct (decide (getValueDefault σ _ _ = "")) as [He|He].
    + right. right. left. by injection Hrest as <- <-.
    + right. right. right.
      apply bind_Ok_inv in Hrest as (u' & w2 & w3 & Hd & Hset & ->).
      injection Hd as _ <-. repeat split; try done. by exists w3.
Qed.

Lemma read_only_Field_flag fl ft :
  read_only fl → read_only (reflect.Field_flag fl ft).
Proof.
  unfold read_only. intros [H|H]; [left|right]; simpl; by rewrite H.
Qed.

Lemma read_only_CanSet fl : read_only fl → reflect.CanSet fl = false.
Proof.
  unfold read_only, reflect.CanSet, reflect.flagRO.
  intros [->| ->]; [|done]. by rewrite andb_comm.
Qed.

Lemma walkStruct_read_only σ v :
  ∀ fl t maxDepth v' w,
    read_only fl → walkStruct σ fl t v maxDepth = Ok v' w → v' = v.
Proof.
  induction v as [| | | | |fs IH|] using Data_ind;
    intros fl t maxDepth v' w Hro; try done.
  intros (fs' & w1 & Hfs & -> & _)%walkStruct_inv. f_equal.
  revert fs' w1 Hfs. generalize O.
  induction IH as [|[ft fv] fs Hf _ IHfs]; intros i fs' w1.
  - by intros [= <- _].
  - intros (fv' & w2 & fs'' & w3 & Hfv & Hrest & -> & _)%walkFields_inv.
    f_equal; [|by apply (IHfs (S i) fs'' w3)]. f_equal.
    apply walkField_inv in Hfv as (w0 & _ & Hcases). cbv zeta in Hcases.
    destruct Hcases as [(_ & _ & Hw)|[(_ & _ & -> & _)|[(_ & _ & -> & _)
      |(_ & _ & w4 & _ & Hset)]]]; try done.
    + apply (Hf _ _ _ _ _ (read_only_Field_flag fl ft Hro) Hw).
    + rewrite setValue_not_settable in Hset
        by by apply read_only_CanSet, read_only_Field_flag.
      by injection Hset as <- _.
Qed.

(** X11. Below a value that is not settable for good nothing is ever
    set: the walk of a struct that was reached through an unexported
    field that is not embedded, or that is not addressable, returns the
    struct as it was, bound fields and nested records included. So the
    walk of a record leaves each of its unexported, not embedded fields
    as it was, with everything below it. *)
Theorem read_only_value_untouched :
  (∀ σ fl t v maxDepth v' w,
     read_only fl → walkStruct σ fl t v maxDepth = Ok v' w → v' = v)
  ∧ (∀ σ fl t fields maxDepth i ft fv fields' w,
       fields !! i = Some (ft, fv) →
       reflect.IsExported ft = false →
       reflect.Anonymous ft = false →
       walkStruct σ fl t (DStruct fields) maxDepth = Ok (DStruct fields') w →
       fields' !! i = Some (ft, fv)).
Proof.
  split.
  - intros σ fl t v. apply walkStruct_read_only.
  - intros σ fl t fields maxDepth i ft fv fields' w Hi Hexp Hanon Hw.
    destruct (walkStruct_fields σ fl t fields maxDepth)
      as (fs' & w' & Hw' & _ & Hlook).
    rewrite Hw in Hw'. injection Hw' as -> _.
    destruct (Hlook i ft fv Hi) as (fv' & w1 & Hf & Hi').
    rewrite Hi'. do 2 f_equal.
    assert (Hro : read_only (reflect.Field_flag fl ft)).
    { left. simpl. by rewrite Hexp, Hanon, orb_true_r. }
    apply walkField_inv in Hf as (w0 & _ & Hcases). cbv zeta in Hcases.
    destruct Hcases as [(_ & _ & Hw1)|[(_ & _ & -> & _)|[(_ & _ & -> & _)
      |(_ & _ & w4 & _ & Hset)]]]; try done.
    + by apply (walkStruct_read_only σ fv _ _ _ _ _ Hro Hw1).
    + rewrite setValue_not_settable in Hset by by apply read_only_CanSet.
      by injection Hset as <- _.
Qed.

Lemma unbound_part_DStruct fs :
  unbound_part (DStruct fs)
  = DStruct ((fun f => (f.1, unbound_field f.1 f.2)) <$> fs).
Proof.
  induction fs as [|[ft fv] fs IH]; [done|].
  cbn [unbound_part] in *. injection IH as IH. rewrite fmap_cons. f_equal.
  f_equal. exact IH.
Qed.

Lemma walkStruct_unbound_part σ v :
  ∀ fl t maxDepth v' w,
    walkStruct σ fl t v maxDepth = Ok v' w → unbound_part v' = unbound_part v.
Proof.
  induction v as [| | | | |fs IH|] using Data_ind;
    intros fl t maxDepth v' w; try done.
  intros (fs' & w1 & Hfs & -> & _)%walkStruct_inv.
  rewrite !unbound_part_DStruct. f_equal.
  revert fs' w1 Hfs. generalize O.
  induction IH as [|[ft fv] fs Hf _ IHfs]; intros i fs' w1.
  - by intros [= <- _].
  - intros (fv' & w2 & fs'' & w3 & Hfv & Hrest & -> & _)%walkFields_inv.
    rewrite !fmap_cons. f_equal; [|by apply (IHfs (S i) fs'' w3)].
    cbn [fst snd]. f_equal. unfold unbound_field.
    apply walkField_inv in Hfv as (w0 & _ & Hcases). cbv zeta in Hcases.
    destruct Hcases as [(Htag & _ & Hw)|[(_ & _ & -> & _)|[(_ & _ & -> & _)
      |(Htag & _ & w4 & _ & Hset)]]]; try done.
    + rewrite !decide_True by done. by apply (Hf _ _ _ _ _ Hw).
    + by rewrite !decide_False.
Qed.

Lemma boundFields_DStruct_nil fs :
  boundFields (DStruct fs) = [] →
  Forall (fun f => reflect.Get (reflect.Tag f.1) "env" = ""
                   ∧ boundFields f.2 = []) fs.
Proof.
  induction fs as [|[ft fv] fs IH]; [by constructor|].
  rewrite boundFields_cons.
  intros (H1 & (H2 & H3)%app_eq_nil)%app_eq_nil.
  constructor; [|by apply IH]. simpl. split; [|done].
  by destruct (decide (reflect.Get (reflect.Tag ft) "env" = "")).
Qed.

Lemma walkStruct_no_bound σ v :
  ∀ fl t maxDepth v' w,
    boundFields v = [] → walkStruct σ fl t v maxDepth = Ok v' w → v' = v.
Proof.
  induction v as [| | | | |fs IH|] using Data_ind;
    intros fl t maxDepth v' w Hb; try done.
  intros (fs' & w1 & Hfs & -> & _)%walkStruct_inv. f_equal.
  apply boundFields_DStruct_nil in Hb.
  revert fs' w1 Hfs. generalize O.
  induction IH as [|[ft fv] fs Hf _ IHfs]; intros i fs' w1.
  - by intros [= <- _].
  - intros (fv' & w2 & fs'' & w3 & Hfv & Hrest & -> & _)%walkFields_inv.
    apply Forall_cons in Hb as [[Htag Hbf] Hb]. simpl in Htag, Hbf.
    f_equal; [|by apply (IHfs Hb (S i) fs'' w3)]. f_equal.
    apply walkField_inv in Hfv as (w0 & _ & Hcases). cbv zeta in Hcases.
    destruct Hcases as [(_ & _ & Hw)|[(_ & _ & -> & _)|[(? & _)|(? & _)]]];
      try done.
    by apply (Hf _ _ _ _ _ Hbf Hw).
Qed.

(** X12. The walk writes to bound fields only. A record and what the walk
    returns for it agree once the data of the bound fields, at every
    depth, is taken out of both; and a record without a bound field at
    any depth is returned as it was. *)
Theorem walk_writes_bound_fields_only σ fl t v maxDepth v' w :
  walkStruct σ fl t v maxDepth = Ok v' w →
  unbound_part v' = unbound_part v
  ∧ (boundFields v = [] → v' = v).
Proof.
  intros Hw. split.
  - by apply (walkStruct_unbound_part σ v fl t maxDepth v' w).
  - intros Hb. by apply (walkStruct_no_bound σ v fl t maxDepth v' w).
Qed.

Lemma unsupported_DStruct σ fs :
  unsupported σ (DStruct fs)
  = concat ((fun f => unsupported_field σ f.1 f.2) <$> fs).
Proof.
  induction fs as [|[ft fv] fs IH]; [done|].
  cbn [unsupported] in *. rewrite fmap_cons. cbn [concat].
  by rewrite <- IH.
Qed.

Lemma walk_entry_mono σ missing missing' e :
  missing ⊆ missing' → walk_entry σ missing e → walk_entry σ missing' e.
Proof.
  intros Hsub [H|(ft & k & Hin & Hk & ->)]; [by left|right].
  exists ft, k. split; [by apply Hsub|done].
Qed.

Lemma setValue_log σ fl fv ft value fv' w :
  setValue σ fl fv ft value = Ok fv' w →
  w = []
  ∨ (setters σ (Kind fv) = None
     ∧ w = [log.mkEntry log.WARN "did not find setter for field %s kind = %d"
              [log.AStr (reflect.Name ft);
               log.AInt (reflect.Kind_value (Kind fv))]]).
Proof.
  intros Hset.
  destruct (setValue_cases σ fl fv ft value)
    as (d & w' & Hset' & _ & Hno & _ & Hwarn & _).
  rewrite Hset in Hset'. injection Hset' as <- <-.
  destruct (reflect.CanSet fl) eqn:Hcan; [|left; by apply Hno].
  destruct (setters σ (Kind fv)) as [setter|] eqn:Hs; [|right; auto].
  left. unfold setValue in Hset. rewrite Hcan, Hs in Hset. cbn [negb] in Hset.
  pose proof (mustBeAssignable_CanSet _ Hcan) as Hm.
  destruct fv as [b|k i|k u|k x|s|fs|k]; cbn [Kind setters] in Hs.
  - injection Hs as <-. unfold setter_Bool, SetBool in Hset.
    destruct (strconv.ParseBool value) as [val [e|]]; rewrite ?Hm in Hset;
      by injection Hset.
  - assert (setter = setter_Int) as -> by (destruct k; by injection Hs).
    unfold setter_Int, SetInt in Hset.
    destruct (strconv.ParseInt value) as [val [e|]]; rewrite ?Hm in Hset;
      by injection Hset.
  - destruct k; try done;
      (assert (setter = setter_Uint) as -> by (by injection Hs));
      unfold setter_Uint, SetUint in Hset;
      destruct (strconv.ParseUint value) as [val [e|]]; rewrite ?Hm in Hset;
      by injection Hset.
  - assert (setter = setter_Float32) as -> by (destruct k; by injection Hs).
    unfold setter_Float32, SetFloat in Hset.
    destruct (ParseFloat value) as [val [e|]]; rewrite ?Hm in Hset;
      [by injection Hset|]. destruct k; by injection Hset.
  - injection Hs as <-. unfold setter_String, SetString in Hset.
    rewrite Hm in Hset. by injection Hset.
  - done.
  - by destruct k.
Qed.

Lemma walkStruct_log σ v :
  ∀ fl t maxDepth v' w,
    walkStruct σ fl t v maxDepth = Ok v' w →
    Forall (walk_entry σ (unsupported σ v)) w.
Proof.
  induction v as [| | | | |fs IH|] using Data_ind;
    intros fl t maxDepth v' w; try done.
  intros (fs' & w1 & Hfs & -> & ->)%walkStruct_inv.
  constructor; [by left|]. rewrite unsupported_DStruct.
  revert fs' w1 Hfs. generalize O.
  induction IH as [|[ft fv] fs Hf _ IHfs]; intros i fs' w1.
  - intros [= _ <-]. constructor.
  - intros (fv' & w2 & fs'' & w3 & Hfv & Hrest & -> & ->)%walkFields_inv.
    rewrite fmap_cons. cbn [concat fst snd]. apply Forall_app. split.
    2:{ eapply Forall_impl; [by apply (IHfs (S i) fs'' w3)|].
        intros e. apply walk_entry_mono. intros x Hx.
        apply elem_of_app. by right. }
    eapply Forall_impl with (P := walk_entry σ (unsupported_field σ ft fv));
      [|intros e; apply walk_entry_mono; intros x Hx; apply elem_of_app;
        by left].
    unfold unsupported_field.
    apply walkField_inv in Hfv as (w0 & -> & Hcases). cbv zeta in Hcases.
    constructor; [by left|].
    destruct Hcases as [(Htag & _ & Hw)|[(_ & _ & _ & ->)|[(_ & _ & _ & ->)
      |(Htag & _ & w4 & -> & Hset)]]]; try by constructor.
    + rewrite decide_True by done. by apply (Hf _ _ _ _ _ Hw).
    + rewrite decide_False by done. constructor; [by left|].
      apply setValue_log in Hset as [->|[Hs ->]]; [constructor|].
      rewrite Hs. constructor; [|constructor]. right.
      exists ft, (Kind fv). split; [constructor|done].
Qed.

(** X13. What a walk logs. Every entry is debugging output, except the
    warnings of [setValue], each for a bound field whose kind has no
    setter. So for a record whose bound fields all have a setter, the
    package's own [Configuration] among them, a logger that is not at the
    DEBUG level shows nothing of the walk. *)
Theorem walk_log_entries σ fl t v maxDepth v' w :
  walkStruct σ fl t v maxDepth = Ok v' w →
  Forall (walk_entry σ (unsupported σ v)) w
  ∧ (unsupported σ v = [] →
     ∀ logLevel, logLevel ≠ log.DEBUG →
       Forall (fun e => log.emitted logLevel e = false) w)
  ∧ (∀ c, v = Data_of_Configuration c → unsupported σ v = []).
Proof.
  intros Hw.
  pose proof (walkStruct_log σ v fl t maxDepth v' w Hw) as Hlog.
  split; [done|]. split.
  - intros Hnone lv Hlv. rewrite Hnone in Hlog.
    eapply Forall_impl; [exact Hlog|]. intros e [He|(ft & k & Hin & _)].
    + unfold log.emitted. rewrite He. by destruct lv.
    + by apply elem_of_nil in Hin.
  - by intros c ->.
Qed.

(** ** The setters of the numeric kinds *)

Lemma ParseUint_digits ds :
  all_chars regexp.isDigit ds = true → ds ≠ "" →
  strconv.ParseUint ds
  = if decide (decimal ds ≤ strconv.maxUint64) then (decimal ds, None)
    else (strconv.maxUint64, Some strconv.ErrRange).
Proof.
  intros Hd Hne. destruct ds as [|c ds]; [done|].
  unfold strconv.ParseUint, decimal. apply parseUintLoop_spec; [done|].
  unfold strconv.maxUint64. lia.
Qed.

Lemma ParseInt_decimal o :
  wf_offset o → digits o ≠ "" →
  let z := if neg o then - decimal (digits o) else decimal (digits o) in
  strconv.ParseInt (offset_text o)
  = if decide (- 2 ^ 63 ≤ z ≤ 2 ^ 63 - 1) then (z, None)
    else (clamp64 z, Some strconv.ErrRange).
Proof.
  unfold wf_offset, offset_text.
  destruct o as [sgn ds]. cbn [neg digits]. intros Hd Hne.
  pose proof (ParseUint_digits ds Hd Hne) as Hu.
  pose proof (decimal_from_ge 0 ds Hd ltac:(lia)) as Hge.
  fold (decimal ds) in Hge.
  destruct ds as [|c ds]; [done|].
  set (v := decimal (String c ds)) in *. clearbody v.
  assert (Hc : regexp.isDigit c = true)
    by (simpl in Hd; by apply andb_prop in Hd as [? ?]).
  unfold clamp64, strconv.maxUint64 in *. cbv zeta.
  change (2 ^ 64 - 1) with 18446744073709551615 in *.
  change (2 ^ 63) with 9223372036854775808 in *.
  destruct sgn.
  - change ("-" +:+ String c ds) with (String "-" (String c ds)).
    unfold strconv.ParseInt. rewrite decide_False by done.
    rewrite decide_True by done. rewrite Hu.
    change (2 ^ 63) with 9223372036854775808.
    destruct (decide (v ≤ 18446744073709551615)); cbn [negb andb].
    + destruct (9223372036854775808 <? v) eqn:Hlt.
      * apply Z.ltb_lt in Hlt. rewrite decide_False by lia. f_equal. lia.
      * apply Z.ltb_ge in Hlt. by rewrite decide_True by lia.
    + change (9223372036854775808 <? 18446744073709551615) with true.
      cbv iota. rewrite decide_False by lia. f_equal. lia.
  - rewrite app_empty_l.
    unfold strconv.ParseInt.
    assert (c ≠ "+"%char) by (intros ->; done).
    assert (c ≠ "-"%char) by (intros ->; done).
    rewrite !decide_False by done. rewrite Hu.
    change (2 ^ 63) with 9223372036854775808.
    destruct (decide (v ≤ 18446744073709551615)); cbn [negb andb].
    + destruct (9223372036854775808 <=? v) eqn:Hlt.
      * apply Z.leb_le in Hlt. rewrite decide_False by lia. f_equal. lia.
      * apply Z.leb_gt in Hlt. by rewrite decide_True by lia.
    + change (9223372036854775808 <=? 18446744073709551615) with true.
      cbv iota. rewrite decide_False by lia. f_equal. lia.
Qed.

(** X14. The setter of the signed integer kinds. A settable field of one
    of them, resolved to a decimal text with or without a minus sign,
    takes the number written when it fits 64 bits, cut down to the width
    of the field without a check: the field holds the number itself when
    it fits the field, and its low bits otherwise. A number that does
    not fit 64 bits leaves the field as it was. Nothing is logged. *)
Theorem int_field_takes_low_bits σ fl k old ft o :
  reflect.CanSet fl = true →
  wf_offset o →
  digits o ≠ "" →
  let z := if neg o then - decimal (digits o) else decimal (digits o) in
  let bits := reflect.IntKind_bits k in
  (- 2 ^ 63 ≤ z ≤ 2 ^ 63 - 1 →
   setValue σ fl (DInt k old) ft (offset_text o)
   = Ok (DInt k (wrap_signed bits z)) [])
  ∧ (- 2 ^ (bits - 1) ≤ z < 2 ^ (bits - 1) → wrap_signed bits z = z)
  ∧ (¬ - 2 ^ 63 ≤ z ≤ 2 ^ 63 - 1 →
     setValue σ fl (DInt k old) ft (offset_text o) = Ok (DInt k old) []).
Proof.
  intros Hcan Hwf Hne z bits.
  pose proof (ParseInt_decimal o Hwf Hne) as HP. cbv zeta in HP. fold z in HP.
  pose proof (mustBeAssignable_CanSet _ Hcan) as Hm.
  assert (Hset : setValue σ fl (DInt k old) ft (offset_text o)
                 = setter_Int fl (DInt k old) (offset_text o)).
  { unfold setValue. rewrite Hcan. by destruct k. }
  rewrite Hset. unfold setter_Int, SetInt. rewrite HP.
  split; [|split].
  - intros Hz. rewrite decide_True by done. by rewrite Hm.
  - intros Hz. unfold wrap_signed.
    assert (0 < 2 ^ (bits - 1)) by (by destruct k).
    assert (2 ^ bits = 2 * 2 ^ (bits - 1)) as -> by (by destruct k).
    rewrite Z.mod_small; lia.
  - intros Hz. by rewrite decide_False.
Qed.

(** X15. The setter of the unsigned integer kinds. A settable field of
    one of them ([uintptr], which has no setter, apart), resolved to a
    text of decimal digits, takes the number
    written when it fits 64 bits, cut down to the low bits that the field
    has; a number that does not fit 64 bits leaves the field as it was,
    and so does any text that starts with a sign. Nothing is logged. *)
Theorem uint_field_takes_low_bits σ fl k old ft ds :
  reflect.CanSet fl = true →
  k ≠ reflect.uintptr_ →
  all_chars regexp.isDigit ds = true →
  ds ≠ "" →
  let bits := reflect.UintKind_bits k in
  (decimal ds ≤ 2 ^ 64 - 1 →
   setValue σ fl (DUint k old) ft ds
   = Ok (DUint k (decimal ds mod 2 ^ bits)) [])
  ∧ (decimal ds < 2 ^ bits → decimal ds mod 2 ^ bits = decimal ds)
  ∧ (2 ^ 64 ≤ decimal ds →
     setValue σ fl (DUint k old) ft ds = Ok (DUint k old) [])
  ∧ (∀ text,
       setValue σ fl (DUint k old) ft ("-" +:+ text) = Ok (DUint k old) []
       ∧ setValue σ fl (DUint k old) ft ("+" +:+ text)
         = Ok (DUint k old) []).
Proof.
  intros Hcan Hk Hd Hne bits.
  pose proof (ParseUint_digits ds Hd Hne) as HP.
  pose proof (decimal_from_ge 0 ds Hd ltac:(lia)) as Hge.
  fold (decimal ds) in Hge.
  pose proof (mustBeAssignable_CanSet _ Hcan) as Hm.
  assert (Hset : ∀ text, setValue σ fl (DUint k old) ft text
                         = setter_Uint fl (DUint k old) text).
  { intros text. unfold setValue. rewrite Hcan. by destruct k. }
  rewrite !Hset. unfold setter_Uint, SetUint. rewrite HP.
  unfold strconv.maxUint64.
  split; [|split; [|split]].
  - intros Hz. rewrite decide_True by done. by rewrite Hm.
  - intros Hz. apply Z.mod_small. lia.
  - intros Hz. by rewrite decide_False by lia.
  - intros text. by rewrite !Hset.
Qed.

(** ** Placeholder expansion, once more *)

Lemma settled_wf t g : wf_segment g → wf_segment (settled t g).
Proof.
  destruct g as [s|unit o1 o2 o3]; [done|]. intros Hwf. cbn [settled].
  destruct (decide (expandable unit)) as [He|He]; [|done].
  by apply expansion_no_match.
Qed.

Lemma settled_text t segs : text (settled t <$> segs) = expanded t segs.
Proof.
  induction segs as [|g segs IH]; [done|].
  rewrite fmap_cons. cbn [text expanded]. rewrite IH. f_equal.
  destruct g as [s|unit o1 o2 o3]; [done|]. cbn [settled].
  destruct (decide (expandable unit)) as [He|He]; [done|].
  by rewrite expansion_not_expandable.
Qed.

Lemma settled_expanded t segs :
  expanded t (settled t <$> segs) = text (settled t <$> segs).
Proof.
  induction segs as [|g segs IH]; [done|].
  rewrite fmap_cons. cbn [text expanded]. rewrite IH. f_equal.
  destruct g as [s|unit o1 o2 o3]; [done|]. cbn [settled].
  destruct (decide (expandable unit)) as [He|He]; [done|].
  by rewrite expansion_not_expandable.
Qed.

Lemma settled_tokens t segs :
  Forall (fun g => match g with
                   | Token unit _ _ _ => expandable unit
                   | Plain _ => True
                   end) segs →
  tokens (settled t <$> segs) = [].
Proof.
  induction 1 as [|g segs Hg _ IH]; [done|].
  rewrite fmap_cons. destruct g as [s|unit o1 o2 o3]; cbn [settled tokens].
  - exact IH.
  - rewrite decide_True by done. exact IH.
Qed.

(** X16. Expanding an expanded string changes nothing more, on the same
    clock: what [parseDateTimeString] returns for a string cut into plain
    text and well-formed tokens, it returns unchanged when handed it
    again. When every token of the string is a date or a time token, the
    result holds no match of the pattern at all. A string without an
    opening brace is returned as it is. *)
Theorem expansion_settles t :
  (∀ segs,
     Forall wf_segment segs →
     parseDateTimeString t (parseDateTimeString t (text segs))
     = parseDateTimeString t (text segs))
  ∧ (∀ segs,
       Forall wf_segment segs →
       Forall (fun g => match g with
                        | Token unit _ _ _ => expandable unit
                        | Plain _ => True
                        end) segs →
       regexp.FindAllStringSubmatch (parseDateTimeString t (text segs)) = [])
  ∧ (∀ data, free_of "{" data → parseDateTimeString t data = data).
Proof.
  assert (Hwf : ∀ segs, Forall wf_segment segs →
                        Forall wf_segment (settled t <$> segs)).
  { intros segs H. apply Forall_fmap. eapply Forall_impl; [exact H|].
    intros g. apply settled_wf. }
  split; [|split].
  - intros segs H. rewrite (parseDateTimeString_segments t segs H).
    rewrite <- settled_text.
    rewrite (parseDateTimeString_segments t _ (Hwf segs H)).
    apply settled_expanded.
  - intros segs H Hall. rewrite (parseDateTimeString_segments t segs H).
    rewrite <- settled_text, (FindAll_text _ (Hwf segs H)).
    by rewrite settled_tokens.
  - intros data Hfree.
    assert (Hw : Forall wf_segment [Plain data]).
    { constructor; [|constructor]. by apply free_no_match. }
    pose proof (parseDateTimeString_segments t [Plain data] Hw) as H.
    cbn [text expanded expansion segment_text] in H.
    by rewrite !app_empty_r in H.
Qed.

(** ** The calendar behind the tokens *)

Lemma parse_token_between t pre post unit o1 o2 o3 :
  no_match pre → no_match post → wf_segment (Token unit o1 o2 o3) →
  parseDateTimeString t (pre +:+ segment_text (Token unit o1 o2 o3) +:+ post)
  = pre +:+ expansion t (Token unit o1 o2 o3) +:+ post.
Proof.
  intros Hpre Hpost Hwf.
  pose proof (parseDateTimeString_segments t
                [Plain pre; Token unit o1 o2 o3; Plain post]) as H.
  cbn [text expanded] in H. rewrite !app_empty_r in H.
  apply H.
  repeat first [apply List.Forall_nil | apply List.Forall_cons]; assumption.
Qed.

Lemma monthStart_succ (leap : bool) m :
  1 ≤ m ≤ 11 → monthStart leap (m + 1) = monthStart leap m + monthLength leap m.
Proof.
  intros Hm.
  assert (m = 1 ∨ m = 2 ∨ m = 3 ∨ m = 4 ∨ m = 5 ∨ m = 6 ∨ m = 7 ∨ m = 8
          ∨ m = 9 ∨ m = 10 ∨ m = 11) as H by lia.
  destruct leap;
    repeat (destruct H as [->|H]; [reflexivity|]); subst m; reflexivity.
Qed.

(** X18. What a date token computes, case by case, on a clock showing the
    day [day] of [month] of [year] and with offsets of up to a thousand
    million. With zero years and months, the token is the day of the
    calendar that comes the token's number of days after the day shown,
    or before it. With zero days, the token adds the years to the year
    and the months to the month, carrying the months beyond December, or
    before January, into the year; it keeps the day of the month where
    the month arrived at has that day, and where it has not, the token is
    in the month after, on the day that is as many days into it as the
    day shown lies past the end of the month arrived at: a month after
    the 31st of January is the 2nd or the 3rd of March. The time of day of
    the clock is taken to be a steady reading on the day arrived at, and
    the year arrived at to have four digits at most. *)
Theorem date_token_calendar t pre post o1 o2 o3 year month day :
  clock_ok t → shows t year month day →
  no_match pre → no_match post →
  wf_offset o1 → wf_offset o2 → wf_offset o3 →
  - 10 ^ 9 ≤ offset_value o1 ≤ 10 ^ 9 →
  - 10 ^ 9 ≤ offset_value o2 ≤ 10 ^ 9 →
  - 10 ^ 9 ≤ offset_value o3 ≤ 10 ^ 9 →
  let data := pre +:+ segment_text (Token "date" o1 o2 o3) +:+ post in
  (offset_value o1 = 0 → offset_value o2 = 0 →
   steady (time.loc t) (wall t + offset_value o3 * 86400) →
   ∀ y' m' d',
     valid_date y' m' d' →
     dayNumber y' m' d' = dayNumber year month day + offset_value o3 →
     0 ≤ y' ≤ 9999 →
     parseDateTimeString t data = pre +:+ date_text y' m' d' +:+ post)
  ∧ (offset_value o3 = 0 →
     let year2 := year + offset_value o1
                  + (month - 1 + offset_value o2) / 12 in
     let month2 := (month - 1 + offset_value o2) mod 12 + 1 in
     steady (time.loc t)
       (dayNumber year2 month2 day * 86400 + wall t mod 86400) →
     0 ≤ year2 ≤ 9999 →
     (day ≤ daysIn year2 month2 →
      parseDateTimeString t data
      = pre +:+ date_text year2 month2 day +:+ post)
     ∧ (daysIn year2 month2 < day →
        parseDateTimeString t data
        = pre +:+ date_text year2 (month2 + 1) (day - daysIn year2 month2)
            +:+ post)).
Proof.
  intros Hok Hsh Hpre Hpost Hw1 Hw2 Hw3 H1 H2 H3 data. subst data.
  rewrite parse_token_between by done.
  pose proof (shows_year t year month day Hok Hsh) as (_ & Bm & Bd).
  split.
  - intros E1 E2 Hst y' m' d' Hv Hn Hy.
    rewrite (date_token_text t o1 o2 o3 year month day y' m' d');
      try done; rewrite E1, E2, !Z.add_0_r;
      rewrite (Z.div_small (month - 1) 12), (Z.mod_small (month - 1) 12),
        Z.add_0_r by lia;
      replace (month - 1 + 1) with month by lia.
    + replace (dayNumber year month (day + offset_value o3))
        with (dayNumber year month day + offset_value o3)
        by (unfold dayNumber; lia).
      destruct Hsh as [_ ->].
      replace ((wall t / 86400 + offset_value o3) * 86400 + wall t mod 86400)
        with (wall t + offset_value o3 * 86400); [done|].
      pose proof (Z.div_mod (wall t) 86400 ltac:(lia)). lia.
    + rewrite Hn. unfold dayNumber. lia.
  - intros E3 year2 month2 Hst Hy.
    assert (Hm2 : 1 ≤ month2 ≤ 12).
    { subst month2.
      pose proof (Z.mod_pos_bound (month - 1 + offset_value o2) 12 ltac:(lia)).
      lia. }
    split.
    + intros Hd.
      rewrite (date_token_text t o1 o2 o3 year month day year2 month2 day);
        try done; rewrite ?E3, ?Z.add_0_r; try done.
      split; [done|]. destruct Hsh as [[_ ?] _]. lia.
    + intros Hd.
      assert (month2 ≤ 11).
      { destruct (decide (month2 = 12)) as [E|]; [|lia].
        rewrite E in Hd. change (daysIn year2 12) with 31 in Hd. lia. }
      pose proof (monthLength_le (time.isLeap year2) month2) as Hl.
      pose proof (monthLength_le (time.isLeap year2) (month2 + 1)) as Hl'.
      rewrite daysIn_monthLength in *.
      rewrite (date_token_text t o1 o2 o3 year month day year2 (month2 + 1)
                 (day - monthLength (time.isLeap year2) month2));
        try done; rewrite ?E3, ?Z.add_0_r; try done.
      * split; [lia|]. rewrite daysIn_monthLength. lia.
      * unfold dayNumber. rewrite !daysBeforeMonth_monthStart.
        rewrite monthStart_succ by lia. fold year2 month2. lia.
Qed.

(** X19. What a time token computes, with offsets of up to a million
    hours, minutes and seconds. The token is the reading of the wall clock
    at the instant of the clock put forward by the offsets (or back),
    taken modulo a day, so that the token never shows a date. Where the
    location has the same offset in use then as now, this is the reading
    of the clock itself put forward by the offsets; where daylight saving
    time has begun or ended in between, it is an hour more or less. *)
Theorem time_token_clock t pre post o1 o2 o3 :
  clock_ok t →
  no_match pre → no_match post →
  wf_offset o1 → wf_offset o2 → wf_offset o3 →
  - 10 ^ 6 ≤ offset_value o1 ≤ 10 ^ 6 →
  - 10 ^ 6 ≤ offset_value o2 ≤ 10 ^ 6 →
  - 10 ^ 6 ≤ offset_value o3 ≤ 10 ^ 6 →
  let seconds := offset_value o1 * 3600 + offset_value o2 * 60
                 + offset_value o3 in
  let later := time.sec t + seconds in
  let change := offsetAt (time.loc t) later
                - offsetAt (time.loc t) (time.sec t) in
  let data := pre +:+ segment_text (Token "time" o1 o2 o3) +:+ post in
  parseDateTimeString t data
  = pre +:+ clock_text (wallAt (time.loc t) later mod 86400) +:+ post
  ∧ parseDateTimeString t data
    = pre +:+ clock_text ((wall t + seconds + change) mod 86400) +:+ post
  ∧ (change = 0 →
     parseDateTimeString t data
     = pre +:+ clock_text ((wall t + seconds) mod 86400) +:+ post).
Proof.
  intros Hok Hpre Hpost Hw1 Hw2 Hw3 H1 H2 H3 seconds later change data.
  subst data. rewrite parse_token_between by done.
  rewrite time_token_text by done. fold seconds later.
  assert (E : wallAt (time.loc t) later = wall t + seconds + change).
  { unfold wall, wallAt. subst change later. lia. }
  split; [done|]. split; [by rewrite E|].
  intros E0. by rewrite E, E0, Z.add_0_r.
Qed.

(** ** The matches of the pattern *)

Lemma expect_inv c s s' : regexp.expect c s = Some s' → s = String c s'.
Proof.
  destruct s as [|c' s0]; [done|]. simpl.
  destruct (decide (c' = c)) as [->|]; [|done]. by intros [= ->].
Qed.

Lemma span_inv p s a b :
  regexp.span p s = (a, b) →
  s = a +:+ b ∧ all_chars p a = true ∧ starts_outside p b.
Proof.
  revert a b. induction s as [|c s IH]; intros a b.
  - by intros [= <- <-].
  - simpl. destruct (p c) eqn:Hc.
    + destruct (regexp.span p s) as [a' b'] eqn:Hs. intros [= <- <-].
      destruct (IH a' b' eq_refl) as (-> & Ha & Hb).
      split; [done|]. split; [|done]. simpl. by rewrite Hc.
    + intros [= <- <-]. by split.
Qed.

Lemma offset_inv s o r :
  regexp.offset s = (o, r) →
  ∃ off, wf_offset off ∧ o = offset_text off ∧ s = o +:+ r.
Proof.
  unfold regexp.offset.
  destruct (regexp.expect "-" s) as [s'|] eqn:He.
  - apply expect_inv in He as ->.
    destruct (regexp.span regexp.isDigit s') as [d r'] eqn:Hs.
    intros [= <- <-]. apply span_inv in Hs as (-> & Hd & _).
    by exists (mkOffset true d).
  - intros Hs. apply span_inv in Hs as (-> & Hd & _).
    by exists (mkOffset false o).
Qed.

(** A match of the pattern is a well-formed token. *)
Lemma matchAt_inv s g :
  regexp.matchAt s = Some g →
  ∃ unit o1 o2 o3 rest,
    wf_segment (Token unit o1 o2 o3)
    ∧ g = group_text unit o1 o2 o3
    ∧ s = segment_text (Token unit o1 o2 o3) +:+ rest.
Proof.
  unfold regexp.matchAt.
  destruct (regexp.expect "{" s) as [s1|] eqn:E1; [|done].
  apply expect_inv in E1 as ->. cbn [mbind option_bind].
  destruct (regexp.expect "{" s1) as [s2|] eqn:E2; [|done].
  apply expect_inv in E2 as ->. cbn [mbind option_bind].
  destruct (regexp.span regexp.isWord s2) as [w s3] eqn:E3.
  apply span_inv in E3 as (-> & Hw & _).
  destruct (decide (w = "")) as [|Hne]; [done|].
  destruct (regexp.expect ":" s3) as [s4|] eqn:E4; [|done].
  apply expect_inv in E4 as ->. cbn [mbind option_bind].
  destruct (regexp.offset s4) as [o1 s5] eqn:E5.
  apply offset_inv in E5 as (off1 & W1 & -> & ->).
  destruct (regexp.expect "," s5) as [s6|] eqn:E6; [|done].
  apply expect_inv in E6 as ->. cbn [mbind option_bind].
  destruct (regexp.offset s6) as [o2 s7] eqn:E7.
  apply offset_inv in E7 as (off2 & W2 & -> & ->).
  destruct (regexp.expect "," s7) as [s8|] eqn:E8; [|done].
  apply expect_inv in E8 as ->. cbn [mbind option_bind].
  destruct (regexp.offset s8) as [o3 s9] eqn:E9.
  apply offset_inv in E9 as (off3 & W3 & -> & ->).
  destruct (regexp.expect "}" s9) as [s10|] eqn:E10; [|done].
  apply expect_inv in E10 as ->. cbn [mbind option_bind].
  destruct (regexp.expect "}" s10) as [s11|] eqn:E11; [|done].
  apply expect_inv in E11 as ->. cbn [mbind option_bind].
  intros [= <-]. exists w, off1, off2, off3, s11.
  split; [done|]. split; [done|].
  unfold segment_text, group_text. by norm_str.
Qed.

Lemma findAllFrom_inv s :
  ∀ skip m, m ∈ regexp.findAllFrom skip s →
    ∃ unit o1 o2 o3,
      wf_segment (Token unit o1 o2 o3) ∧ m = submatch (Token unit o1 o2 o3).
Proof.
  induction s as [|c s IH]; intros skip m; [by intros ?%elem_of_nil|].
  cbn [regexp.findAllFrom]. destruct skip as [|k]; [|by apply IH].
  destruct (regexp.matchAt (String c s)) as [g|] eqn:Hm; [|by apply IH].
  intros [->|Hin]%elem_of_cons; [|by apply (IH _ _ Hin)].
  apply matchAt_inv in Hm as (unit & o1 & o2 & o3 & rest & Hwf & -> & _).
  by exists unit, o1, o2, o3.
Qed.

(** X20. Of whatever string, every match the pattern finds is a
    well-formed token: a unit of word bytes, a colon and three offsets
    between two commas. So the two length checks in the loop of
    [parseDateTimeString] always pass, every offset is parsed to the
    number it writes (zero when it has no digits, the nearest 64-bit
    number when it is too large), and the only matches the loop leaves
    alone are those of a unit other than date and time. *)
Theorem matches_are_tokens data m :
  m ∈ regexp.FindAllStringSubmatch data →
  ∃ unit o1 o2 o3,
    wf_segment (Token unit o1 o2 o3)
    ∧ regexp.whole m = segment_text (Token unit o1 o2 o3)
    ∧ strings.Split (regexp.group1 m) ":"
      = [unit;
         offset_text o1 +:+ "," +:+ offset_text o2 +:+ "," +:+ offset_text o3]
    ∧ strings.Split
        (offset_text o1 +:+ "," +:+ offset_text o2 +:+ "," +:+ offset_text o3)
        ","
      = [offset_text o1; offset_text o2; offset_text o3]
    ∧ (strconv.ParseInt (offset_text o1)).1 = offset_value o1
    ∧ (strconv.ParseInt (offset_text o2)).1 = offset_value o2
    ∧ (strconv.ParseInt (offset_text o3)).1 = offset_value o3
    ∧ ∀ t current,
        expandMatch t current m
        = if decide (unit = "date" ∨ unit = "time")
          then strings.Replace current (regexp.whole m)
                 (expansion t (Token unit o1 o2 o3))
          else current.
Proof.
  intros Hin. apply findAllFrom_inv in Hin as (unit & o1 & o2 & o3 & Hwf & ->).
  exists unit, o1, o2, o3.
  destruct (Split_group unit o1 o2 o3 Hwf) as [S1 S2].
  pose proof Hwf as (_ & _ & W1 & W2 & W3).
  split; [done|]. split; [done|]. split; [done|]. split; [done|].
  rewrite !ParseInt_offset by done. split; [done|]. split; [done|].
  split; [done|].
  intros t current. by rewrite expandMatch_token.
Qed.

End Engine.


(** * The theorems at concrete inputs *)

Lemma environment_wins_witness :
  ∃ σ' w,
    Init unit no_ParseFloat id [Defaults [Set_ BUILD_NUMBER "7.0.0"]]
      (started {[BUILD_NUMBER := "8.0.0"]}) = Ok (σ', None) w
    ∧ MapProvider_Get σ' DefaultMapProvider BUILD_NUMBER = ("7.0.0", None)
    ∧ BuildNumber (Build_buildData (Configuration_Build (configurationData σ')))
      = "8.0.0".
Proof.
  apply (proj2 (proj2 (environment_wins unit no_ParseFloat id))
           (started {[BUILD_NUMBER := "8.0.0"]})).
  - reflexivity.
  - vm_compute. reflexivity.
Defined.

Lemma walk_never_fails_witness :
  ∃ d w,
    setValue unit no_ParseFloat id (started ∅) reflect.Elem_flag
      (DInt unit reflect.int8_ 5) field_LogLevel "five"
    = Ok d w
    ∧ d = DInt unit reflect.int8_ 5.
Proof.
  destruct (proj2 (walk_never_fails unit no_ParseFloat id) (started ∅)
              reflect.Elem_flag (DInt unit reflect.int8_ 5) field_LogLevel
              "five")
    as (d & w & H & _ & _ & _ & _ & Hparse).
  exists d, w. split; [exact H|]. apply Hparse. vm_compute. reflexivity.
Defined.



Lemma getValueDefault_first_found_witness :
  getValueDefault (started {[BUILD_NUMBER := "8.0.0"]}) BUILD_NUMBER "0.0.0"
  = "8.0.0"
  ∧ getValueDefault (started ∅) BUILD_NUMBER "0.0.0" = "0.0.0".
Proof.
  split.
  - apply (proj1 (getValueDefault_first_found
                    (started {[BUILD_NUMBER := "8.0.0"]}) BUILD_NUMBER "0.0.0")
             [] EnvironmentProvider [MapProvider DefaultMapProvider]).
    + reflexivity.
    + intros p Hp. by apply elem_of_nil in Hp.
    + split; [vm_compute; reflexivity|discriminate].
  - apply (proj2 (getValueDefault_first_found (started ∅) BUILD_NUMBER "0.0.0")).
    intros p Hp u [Hget Hu]. apply Hu.
    apply elem_of_cons in Hp as [->|Hp].
    { vm_compute in Hget. congruence. }
    apply elem_of_cons in Hp as [->|Hp].
    { vm_compute in Hget. congruence. }
    by apply elem_of_nil in Hp.
Defined.


(** Closed goals of arithmetic on the clock are settled by running
    them. *)
Ltac by_computation :=
  vm_compute; repeat split; solve [reflexivity | discriminate].

Lemma UTC_clock_ok s ns :
  - 2 ^ 55 ≤ s ≤ 2 ^ 55 → 0 ≤ ns < 1000000000 →
  clock_ok (time.mkTime s ns time.UTC).
Proof.
  intros Hs Hns. split; [done|]. split; [done|].
  intros s'. unfold offsetAt. cbn. lia.
Qed.

Lemma New_York_clock_ok s ns :
  - 2 ^ 55 ≤ s ≤ 2 ^ 55 → 0 ≤ ns < 1000000000 →
  clock_ok (time.mkTime s ns New_York).
Proof.
  intros Hs Hns. split; [done|]. split; [done|].
  intros s'. unfold offsetAt, New_York. cbn [time.loc time.lookup].
  destruct (_ <? _); [cbn; lia|]. destruct (_ <? _); cbn; lia.
Qed.

Lemma placeholders_expanded_witness :
  parseDateTimeString (time.Date 2024 3 15 10 30 0 0 time.UTC)
    "built on {{date:0,0,-1}}"
  = "built on 2024-03-14"
  ∧ expansion (time.Date 2024 1 31 10 30 0 0 time.UTC)
      (Token "date" (mkOffset false "0") (mkOffset false "1")
         (mkOffset false ""))
    = "2024-03-02"
  ∧ expansion (time.Date 2024 3 9 23 30 0 0 time.UTC)
      (Token "time" (mkOffset false "3") (mkOffset true "0")
         (mkOffset false "90"))
    = "02:31:30"
  ∧ expansion (time.Date 2024 3 9 23 30 0 0 New_York)
      (Token "time" (mkOffset false "3") (mkOffset true "0")
         (mkOffset false "90"))
    = "03:31:30".
Proof.
  destruct placeholders_expanded
    as (_ & _ & Hdate & _ & Htime & _ & _ & _ & _ & HE).
  split; [|split; [|split]].
  - apply HE.
    + apply UTC_clock_ok; by_computation.
    + by_computation.
    + reflexivity.
  - apply (Hdate (time.Date 2024 1 31 10 30 0 0 time.UTC) _ _ _
             2024 1 31 2024 3 2).
    + apply UTC_clock_ok; by_computation.
    + by_computation.
    + by_computation.
    + by_computation.
    + by_computation.
    + reflexivity.
    + by_computation.
    + vm_compute. reflexivity.
    + lia.
  - etrans.
    + apply (Htime (time.Date 2024 3 9 23 30 0 0 time.UTC)).
      * apply UTC_clock_ok; by_computation.
      * by_computation.
      * by_computation.
      * by_computation.
    + vm_compute. reflexivity.
  - etrans.
    + apply (Htime (time.Date 2024 3 9 23 30 0 0 New_York)).
      * apply New_York_clock_ok; by_computation.
      * by_computation.
      * by_computation.
      * by_computation.
    + vm_compute. reflexivity.
Defined.

(** Past the offsets of C6 the 64-bit count of seconds of [Date] wraps
    around: four million million million days after 2024-03-15 the token
    reads a year of ten digits, which is not the year that many days
    away. *)
Example date_token_wraps_around :
  expansion (time.Date 2024 3 15 10 30 0 0 time.UTC)
    (Token "date" (mkOffset false "0") (mkOffset false "0")
       (mkOffset false "4000000000000000000"))
  = "7915185073-04-07".
Proof. vm_compute. reflexivity. Qed.

(** [Date] carries a field that overflows into the next one: a thousand
    million nanoseconds after 2024-02-29 23:59:59 it is the first of
    March, and the 32nd of October is the first of November. *)
Example Date_carries_over :
  time.Date_of (time.Date 2024 2 29 23 59 59 1000000000 time.UTC)
  = (2024, 3, 1)
  ∧ time.Clock (time.Date 2024 2 29 23 59 59 1000000000 time.UTC)
    = (0, 0, 0)
  ∧ time.Date_of (time.Date 2024 10 32 0 0 0 0 time.UTC) = (2024, 11, 1).
Proof. vm_compute. repeat split. Qed.

(** A reading that is not steady: the clocks of New York go from 02:00
    to 03:00 on 2024-03-10, and the day after 2024-03-09 02:30:00
    [AddDate] arrives at 01:30:00, an hour before the change. The date
    is the one asked for all the same. *)
Example skipped_reading :
  ¬ steady New_York (reading 2024 3 10 (2 * 3600 + 30 * 60))
  ∧ time.Format_clock
      (time.AddDate (time.Date 2024 3 9 2 30 0 0 New_York) 0 0 1)
    = "01:30:00"
  ∧ expansion (time.Date 2024 3 9 2 30 0 0 New_York)
      (Token "date" (mkOffset false "0") (mkOffset false "0")
         (mkOffset false "1"))
    = "2024-03-10".
Proof.
  split; [|split]; [|vm_compute; reflexivity..].
  vm_compute. discriminate.
Qed.

Lemma unbound_field_untouched_witness :
  ∃ fields' w,
    walkStruct unit no_ParseFloat id (started {[ "NAME" := "x" ]})
      reflect.Elem_flag Configuration_type
      (DStruct unit
         [(reflect.mkField "Name" "" string_type [("json", "name")] false,
           DString unit "kept")]) 4
    = Ok (DStruct unit fields') w
    ∧ fields' !! 0%nat
      = Some (reflect.mkField "Name" "" string_type [("json", "name")] false,
              DString unit "kept").
Proof.
  apply (unbound_field_untouched unit no_ParseFloat id); reflexivity.
Defined.

Lemma empty_offset_is_zero_witness :
  parseDateTimeString (time.Date 2024 3 15 10 30 0 0 time.UTC) "{{date:,,1}}"
  = time.Format_date (time.AddDate (time.Date 2024 3 15 10 30 0 0 time.UTC) 0 0 1)
  ∧ time.Format_date (time.AddDate (time.Date 2024 3 15 10 30 0 0 time.UTC) 0 0 1)
    = "2024-03-16".
Proof.
  split; [|vm_compute; reflexivity].
  pose proof (proj1 (proj2 (proj2 empty_offset_is_zero))
                (time.Date 2024 3 15 10 30 0 0 time.UTC) "" "" "date"
                (mkOffset false "") (mkOffset false "") (mkOffset false "1")
                I I) as H.
  etrans; [apply H|vm_compute; reflexivity].
  repeat split; [discriminate|reflexivity..].
Defined.

Lemma resolution_idempotent_witness :
  ∃ w',
    walkStruct unit no_ParseFloat id (started {[BUILD_NUMBER := "8.0.0"]})
      reflect.Elem_flag Configuration_type
      (Data_of_Configuration unit
         (mkConfiguration "INFO" (mkBuild (mkBuildData "1.3" "" "" "8.0.0"))))
      4
    = Ok (Data_of_Configuration unit
            (mkConfiguration "INFO" (mkBuild (mkBuildData "1.3" "" "" "8.0.0"))))
         w'.
Proof.
  eapply (proj1 (resolution_idempotent unit no_ParseFloat id)
            (started {[BUILD_NUMBER := "8.0.0"]}) reflect.Elem_flag
            Configuration_type
            (Data_of_Configuration unit defaultConfiguration_init) 4).
  vm_compute. reflexivity.
Defined.

(** Why idempotence sets the wall-clock tokens apart: with VERSION set to a date
    token in the environment, the walk of the 15th leaves that day in the
    version, and a walk of its result on the 16th replaces it. *)
Example token_field_follows_clock :
  ∃ w w',
    walkStruct unit no_ParseFloat id (started {[VERSION := "{{date:0,0,0}}"]})
      reflect.Elem_flag Configuration_type
      (Data_of_Configuration unit defaultConfiguration_init) 4
    = Ok (Data_of_Configuration unit
            (mkConfiguration "INFO"
               (mkBuild (mkBuildData "2024-03-15" "" "" "")))) w
    ∧ walkStruct unit no_ParseFloat id
        (set_now (time.Date 2024 3 16 10 30 0 0 time.UTC)
           (started {[VERSION := "{{date:0,0,0}}"]}))
        reflect.Elem_flag Configuration_type
        (Data_of_Configuration unit
           (mkConfiguration "INFO"
              (mkBuild (mkBuildData "2024-03-15" "" "" "")))) 4
      = Ok (Data_of_Configuration unit
              (mkConfiguration "INFO"
                 (mkBuild (mkBuildData "2024-03-16" "" "" "")))) w'.
Proof. eexists _, _. split; vm_compute; reflexivity. Qed.

(** C10, as the claim states it: after [Init] the fields of [Build] are
    those from before the walk. With BUILD_NUMBER=8.0.0 in the environment
    this is false: the build number was empty and is 8.0.0 afterwards (and
    the version, 1.0.0 before, is the default literal 1.3). *)
Lemma Build_fields_retained_counterexample :
  ¬ (∀ σ' e w,
       Init unit no_ParseFloat id [] (started {[BUILD_NUMBER := "8.0.0"]})
       = Ok (σ', e) w →
       Configuration_Build (configurationData σ')
       = Configuration_Build
           (defaultConfiguration (started {[BUILD_NUMBER := "8.0.0"]}))).
Proof.
  intros H.
  pose proof (Init_returned unit no_ParseFloat id []
                (started {[BUILD_NUMBER := "8.0.0"]})) as HI.
  destruct (Init unit no_ParseFloat id [] (started {[BUILD_NUMBER := "8.0.0"]}))
    as [[σ' e] w|] eqn:E; [|discriminate HI].
  specialize (H σ' e w eq_refl).
  simpl in HI. injection HI as Hσ He. subst σ'.
  vm_compute in H. discriminate H.
Qed.

(** ** Further properties at concrete inputs *)

Lemma MapProvider_Set_Get_witness :
  MapProvider_Get
    (MapProvider_Set DefaultMapProvider COMMIT "xe32sdf" (started ∅))
    DefaultMapProvider COMMIT = ("xe32sdf", None)
  ∧ MapProvider_Get
      (MapProvider_Set DefaultMapProvider COMMIT "xe32sdf" (started ∅))
      DefaultMapProvider BRANCH
    = MapProvider_Get (started ∅) DefaultMapProvider BRANCH.
Proof.
  split.
  - apply (proj1 (MapProvider_Set_Get (started ∅) DefaultMapProvider COMMIT
                    "xe32sdf")).
  - apply (proj1 (proj2 (MapProvider_Set_Get (started ∅) DefaultMapProvider
                           COMMIT "xe32sdf"))).
    discriminate.
Defined.

Lemma AddDataProvider_lowest_priority_witness :
  getValueDefault
    (AddDataProvider EnvironmentProvider (started {[COMMIT := "abc"]}))
    COMMIT "none"
  = getValueDefault (started {[COMMIT := "abc"]}) COMMIT "none".
Proof.
  apply (proj1 (proj2 (AddDataProvider_lowest_priority
                         (started {[COMMIT := "abc"]}) EnvironmentProvider
                         COMMIT "none"))).
  apply list_elem_of_here.
Defined.

Lemma Defaults_last_Set_wins_witness :
  DefaultValues
    (Defaults [Set_ COMMIT "first"; Set_ COMMIT "second"] (mkInitOptions ∅))
    !! COMMIT
  = Some "second".
Proof.
  apply (proj1 Defaults_last_Set_wins [(COMMIT, "first")] COMMIT "second" []
           (mkInitOptions ∅)).
  apply not_elem_of_nil.
Defined.

Lemma Init_keeps_overrides_witness :
  ∃ σ1 w1 σ2 w2,
    Init unit no_ParseFloat id [Defaults [Set_ COMMIT "xe32sdf"]] (started ∅)
    = Ok (σ1, None) w1
    ∧ Init unit no_ParseFloat id [] σ1 = Ok (σ2, None) w2
    ∧ store_of σ2 DefaultMapProvider !! COMMIT = Some "xe32sdf".
Proof.
  destruct (proj1 (returned_Some _ _)
              (Init_returned unit no_ParseFloat id
                 [Defaults [Set_ COMMIT "xe32sdf"]] (started ∅)))
    as [w1 E1].
  destruct (proj1 (returned_Some _ _)
              (Init_returned unit no_ParseFloat id []
                 (Init_final [Defaults [Set_ COMMIT "xe32sdf"]] (started ∅))))
    as [w2 E2].
  destruct (Init_keeps_overrides unit no_ParseFloat id _ _ _ _ _ E2)
    as (_ & _ & _ & Hstore & _).
  eexists _, w1, _, w2. split; [exact E1|]. split; [exact E2|].
  rewrite Hstore. vm_compute. reflexivity.
Defined.

Lemma config_file_precedence_witness :
  ∃ σ' w,
    Init unit no_ParseFloat id [] (started_with_file ∅) = Ok (σ', None) w
    ∧ LogLevel (configurationData σ') = "warn"
    ∧ Commit (Build_buildData (Configuration_Build (configurationData σ')))
      = "{{date:0,0,0}}"
    ∧ Version (Build_buildData (Configuration_Build (configurationData σ')))
      = "1.3".
Proof.
  destruct (proj1 (returned_Some _ _)
              (Init_returned unit no_ParseFloat id [] (started_with_file ∅)))
    as [w E].
  destruct (config_file_precedence unit no_ParseFloat id _ _ _ _ _ E)
    as (H1 & H2 & _ & _ & H5 & _).
  eexists _, w. split; [exact E|].
  rewrite H1, H2, H5. vm_compute. repeat split.
Defined.

Lemma Level_String_round_trip_witness :
  log.UnmarshalText log.ERROR "debug" = (log.DEBUG, true)
  ∧ log.UnmarshalText log.WARN (log.String 7) = (log.WARN, false).
Proof.
  split.
  - apply (proj1 (proj2 Level_String_round_trip) log.DEBUG log.ERROR "debug").
    reflexivity.
  - apply (proj2 (proj2 (proj2 Level_String_round_trip)) 7 log.WARN).
    right. lia.
Defined.

Lemma PaddedString_width_witness : log.PaddedString 9 = log.String 9.
Proof.
  apply (proj2 (proj2 PaddedString_width) 9). right. lia.
Defined.

Lemma Setup_idempotent_witness :
  log.Setup unit tt (log.mkConfigurator unit "verbose" None "" "")
    (Some (log.mkCoreLogger unit log.DEBUG tt "15:04:05 " "%s:%d "))
  = log.mkCoreLogger unit log.DEBUG tt "15:04:05 " "%s:%d ".
Proof.
  apply (proj2 (proj2 (Setup_idempotent unit tt
                         (log.mkConfigurator unit "verbose" None "" "")))
           (log.mkCoreLogger unit log.DEBUG tt "15:04:05 " "%s:%d ")).
  - reflexivity.
  - reflexivity.
  - reflexivity.
  - discriminate.
  - vm_compute. reflexivity.
  - intros lv. destruct lv; discriminate.
Defined.

Lemma Init_sets_log_level_witness :
  ∃ σ' w,
    Init unit no_ParseFloat id []
      (started_with_file {[LOG_LEVEL := "verbose"]}) = Ok (σ', None) w
    ∧ logLevel (started_with_file {[LOG_LEVEL := "verbose"]}) = log.DEBUG
    ∧ logLevel σ' = log.INFO.
Proof.
  destruct (proj1 (returned_Some _ _)
              (Init_returned unit no_ParseFloat id []
                 (started_with_file {[LOG_LEVEL := "verbose"]})))
    as [w E].
  destruct (Init_sets_log_level unit no_ParseFloat id _ _ _ _ _ E)
    as (_ & _ & H3).
  eexists _, w. split; [exact E|]. split; [reflexivity|].
  apply H3.
  - vm_compute. reflexivity.
  - intros l. vm_compute. destruct l; discriminate.
Defined.

Lemma read_only_value_untouched_witness :
  ∃ fields' w,
    walkStruct unit no_ParseFloat id (started {[ "TOKEN" := "abc" ]})
      reflect.Elem_flag Configuration_type
      (DStruct unit
         [(reflect.mkField "token" pkg string_type [("env", "TOKEN")] false,
           DString unit "kept")]) 4
    = Ok (DStruct unit fields') w
    ∧ fields' !! 0%nat
      = Some (reflect.mkField "token" pkg string_type [("env", "TOKEN")] false,
              DString unit "kept").
Proof.
  destruct (walkStruct_fields unit no_ParseFloat id
              (started {[ "TOKEN" := "abc" ]}) reflect.Elem_flag
              Configuration_type
              [(reflect.mkField "token" pkg string_type [("env", "TOKEN")]
                  false, DString unit "kept")] 4)
    as (fields' & w & Hw & _).
  exists fields', w. split; [exact Hw|].
  apply (proj2 (read_only_value_untouched unit no_ParseFloat id)
           (started {[ "TOKEN" := "abc" ]}) reflect.Elem_flag
           Configuration_type
           [(reflect.mkField "token" pkg string_type [("env", "TOKEN")]
               false, DString unit "kept")] 4 0%nat
           (reflect.mkField "token" pkg string_type [("env", "TOKEN")] false)
           (DString unit "kept") fields' w eq_refl eq_refl eq_refl Hw).
Defined.

Lemma walk_writes_bound_fields_only_witness :
  ∃ w,
    walkStruct unit no_ParseFloat id (started {[ "NAME" := "x" ]})
      reflect.Elem_flag Configuration_type
      (DStruct unit
         [(reflect.mkField "Name" "" string_type [("json", "name")] false,
           DString unit "kept")]) 4
    = Ok (DStruct unit
            [(reflect.mkField "Name" "" string_type [("json", "name")] false,
              DString unit "kept")]) w.
Proof.
  destruct (walkStruct_fields unit no_ParseFloat id
              (started {[ "NAME" := "x" ]}) reflect.Elem_flag
              Configuration_type
              [(reflect.mkField "Name" "" string_type [("json", "name")]
                  false, DString unit "kept")] 4)
    as (fields' & w & Hw & _).
  exists w.
  pose proof (proj2 (walk_writes_bound_fields_only unit no_ParseFloat id
                       _ _ _ _ _ _ _ Hw) eq_refl) as Heq.
  rewrite Heq in Hw. exact Hw.
Defined.

Lemma walk_log_entries_witness :
  ∃ v' w,
    walkStruct unit no_ParseFloat id (started {[COMMIT := "abc"]})
      reflect.Elem_flag Configuration_type
      (Data_of_Configuration unit defaultConfiguration_init) 4
    = Ok v' w
    ∧ Forall (fun e => log.emitted log.INFO e = false) w.
Proof.
  destruct (walkStruct_fields unit no_ParseFloat id
              (started {[COMMIT := "abc"]}) reflect.Elem_flag
              Configuration_type
              [(field_LogLevel, DString unit "INFO");
               (field_Build,
                Data_of_Build unit
                  (Configuration_Build defaultConfiguration_init))] 4)
    as (fields' & w & Hw & _).
  exists (DStruct unit fields'), w. split; [exact Hw|].
  destruct (walk_log_entries unit no_ParseFloat id _ _ _ _ _ _ _ Hw)
    as (_ & H2 & H3).
  apply H2; [|discriminate].
  apply (H3 defaultConfiguration_init). reflexivity.
Defined.

Lemma int_field_takes_low_bits_witness :
  setValue unit no_ParseFloat id (started ∅) reflect.Elem_flag
    (DInt unit reflect.int8_ 5) field_LogLevel "300"
  = Ok (DInt unit reflect.int8_ 44) [].
Proof.
  apply (proj1 (int_field_takes_low_bits unit no_ParseFloat id (started ∅)
                  reflect.Elem_flag reflect.int8_ 5 field_LogLevel
                  (mkOffset false "300") eq_refl eq_refl
                  ltac:(discriminate))).
  by_computation.
Defined.

Lemma uint_field_takes_low_bits_witness :
  setValue unit no_ParseFloat id (started ∅) reflect.Elem_flag
    (DUint unit reflect.uint8_ 5) field_LogLevel "256"
  = Ok (DUint unit reflect.uint8_ 0) [].
Proof.
  apply (proj1 (uint_field_takes_low_bits unit no_ParseFloat id (started ∅)
                  reflect.Elem_flag reflect.uint8_ 5 field_LogLevel "256"
                  eq_refl ltac:(discriminate) eq_refl ltac:(discriminate))).
  vm_compute. discriminate.
Defined.

Lemma expansion_settles_witness :
  parseDateTimeString (time.Date 2024 3 15 10 30 0 0 time.UTC) "release-candidate"
  = "release-candidate".
Proof.
  apply (proj2 (proj2 (expansion_settles (time.Date 2024 3 15 10 30 0 0 time.UTC)))).
  vm_compute. reflexivity.
Defined.

Lemma date_token_calendar_witness :
  parseDateTimeString (time.Date 2024 3 1 10 30 0 0 time.UTC)
    "built on {{date:0,0,-1}}"
  = "built on 2024-02-29"
  ∧ parseDateTimeString (time.Date 2023 1 31 10 30 0 0 New_York)
      "due {{date:0,1,0}}."
    = "due 2023-03-03.".
Proof.
  split.
  - apply (proj1 (date_token_calendar (time.Date 2024 3 1 10 30 0 0 time.UTC)
                    "built on " ""
                    (mkOffset false "0") (mkOffset false "0")
                    (mkOffset true "1") 2024 3 1
                    ltac:(apply UTC_clock_ok; by_computation)
                    ltac:(by_computation)
                    ltac:(apply free_no_match; reflexivity) I
                    eq_refl eq_refl eq_refl
                    ltac:(by_computation)
                    ltac:(by_computation)
                    ltac:(by_computation))
             eq_refl eq_refl eq_refl 2024 2 29).
    + by_computation.
    + vm_compute. reflexivity.
    + lia.
  - apply (proj2 (proj2 (date_token_calendar
                    (time.Date 2023 1 31 10 30 0 0 New_York)
                    "due " "."
                    (mkOffset false "0") (mkOffset false "1")
                    (mkOffset false "0") 2023 1 31
                    ltac:(apply New_York_clock_ok; by_computation)
                    ltac:(by_computation)
                    ltac:(apply free_no_match; reflexivity)
                    ltac:(apply free_no_match; reflexivity)
                    eq_refl eq_refl eq_refl
                    ltac:(by_computation)
                    ltac:(by_computation)
                    ltac:(by_computation))
                  eq_refl eq_refl
                  ltac:(by_computation))).
    vm_compute. reflexivity.
Defined.

Lemma time_token_clock_witness :
  parseDateTimeString (time.Date 2024 3 15 0 30 0 0 time.UTC)
    "at {{time:-1,0,90}}"
  = "at 23:31:30"
  ∧ parseDateTimeString (time.Date 2024 3 9 23 30 0 0 New_York)
      "at {{time:3,0,0}}"
    = "at 03:30:00".
Proof.
  split.
  - pose proof (proj2 (proj2 (time_token_clock
                         (time.Date 2024 3 15 0 30 0 0 time.UTC)
                         "at " ""
                         (mkOffset true "1") (mkOffset false "0")
                         (mkOffset false "90")
                         ltac:(apply UTC_clock_ok; by_computation)
                         ltac:(apply free_no_match; reflexivity) I
                         eq_refl eq_refl eq_refl
                         ltac:(by_computation)
                         ltac:(by_computation)
                         ltac:(by_computation)))
                  eq_refl) as H.
    etrans; [exact H|]. vm_compute. reflexivity.
  - pose proof (proj1 (proj2 (time_token_clock
                         (time.Date 2024 3 9 23 30 0 0 New_York)
                         "at " ""
                         (mkOffset false "3") (mkOffset false "0")
                         (mkOffset false "0")
                         ltac:(apply New_York_clock_ok; by_computation)
                         ltac:(apply free_no_match; reflexivity) I
                         eq_refl eq_refl eq_refl
                         ltac:(by_computation)
                         ltac:(by_computation)
                         ltac:(by_computation)))) as H.
    etrans; [exact H|]. vm_compute. reflexivity.
Defined.

Lemma matches_are_tokens_witness :
  ∃ unit o1 o2 o3,
    "{{day:1,-2,}}" = segment_text (Token unit o1 o2 o3)
    ∧ strings.Split "day:1,-2," ":"
      = [unit;
         offset_text o1 +:+ "," +:+ offset_text o2 +:+ "," +:+ offset_text o3]
    ∧ ∀ t current,
        expandMatch t current (regexp.mkSubmatch "{{day:1,-2,}}" "day:1,-2,")
        = if decide (unit = "date" ∨ unit = "time")
          then strings.Replace current "{{day:1,-2,}}"
                 (expansion t (Token unit o1 o2 o3))
          else current.
Proof.
  destruct (matches_are_tokens "on {{day:1,-2,}}"
              (regexp.mkSubmatch "{{day:1,-2,}}" "day:1,-2,"))
    as (unit & o1 & o2 & o3 & _ & H2 & H3 & _ & _ & _ & _ & H8).
  { apply list_elem_of_here. }
  exists unit, o1, o2, o3. split; [exact H2|]. split; [exact H3|exact H8].
Defined.
